(** * js-powerkit, [src/objectUtils.js]: the structural traversal utilities

    A shallow embedding of [deepClone], [deepMerge], [isEqual],
    [getNestedValue], [setNestedValue], [flattenObject] and
    [unflattenObject], and the properties of them that the specification
    states; then the other functions of the module ([getAllKeys],
    [removeNullish], [filterObject], [mapValues], [mapKeys], [defaults],
    [pick], [omit], [has], [invert], [isEmpty], [size], [hasPath]) and
    further properties of the code.  [toQueryString] and
    [fromQueryString] are not modelled.

    ** Modelling of JavaScript values

    - A number is an IEEE-754 double ([float]); only its comparison by
      [===] and its truthiness are used.
    - A string is a [string]; [split('.')] and template concatenation work
      on it code unit by code unit.
    - Every object (plain object, array, [Date]) is a node [VObj r c ps]:
      [r] is the identity of the object (what [===] compares), [c] its
      class, and [ps] its own enumerable string-keyed properties in the
      order [Object.keys] and [for..in] enumerate them: the array indices
      in ascending order, then the other keys in the order of their
      creation.  An array is the object of class [CArray] whose elements
      are the properties keyed by the decimal indices.
    - Objects are allocated from a counter that the allocating functions
      thread through (the [next] argument, and the second component of
      their result); a call receives values allocated before [next].
    - The values are trees: no object is reachable along two different
      paths, so the in-place update that [setNestedValue] performs on a
      nested object is the replacement of that child in its parent, and
      the object a function mutates is the one it returns.  A statement
      about what an update leaves alone asks for [tree].
    - A loop over [Object.keys(o)] that reads [o[key]] is a loop over the
      entries of [ps].
    - A property read [o[k]] looks at own properties only, and an
      assignment [o[k] = v] on an object creates or replaces an own
      property.  The members an object inherits from the built-in
      prototypes, and the non-enumerable [length] of arrays and strings,
      are not part of the model.  The model is exact where a read falls
      on a property that the object has of its own, or on a key that
      names no inherited member, and where an assignment is made under a
      key other than ["__proto__"] (the accessor of [Object.prototype])
      and, on an array, ["length"].  A theorem whose statement depends
      on this says so in its hypotheses ([data_key], [proto_free],
      [object_prototype_member]).
    - The module is an ES module, hence strict code: assigning a property
      on a primitive raises a [TypeError]. *)

From Stdlib Require Import PrimFloat List String Ascii Bool Arith NArith Lia Permutation.
From Stdlib Require FloatAxioms.
Import ListNotations.
Open Scope string_scope.
Open Scope list_scope.

(* ================================================================== *)
(** * Values *)

Definition loc := nat.

Inductive class : Type :=
| CPlain                 (* [{}], object literal *)
| CArray                 (* [Array.isArray] holds *)
| CDate (time : float).  (* [instanceof Date] holds; [getTime()] is [time] *)

Unset Elimination Schemes.
Inductive value : Type :=
| VUndefined
| VNull
| VBool (b : bool)
| VNum (x : float)
| VStr (s : string)
| VObj (r : loc) (c : class) (ps : list (string * value)).
Set Elimination Schemes.

Definition props := list (string * value).

Inductive jstype : Type := TUndefined | TObject | TBoolean | TNumber | TString.

Definition jstype_eqb (a b : jstype) : bool :=
  match a, b with
  | TUndefined, TUndefined | TObject, TObject | TBoolean, TBoolean
  | TNumber, TNumber | TString, TString => true
  | _, _ => false
  end.

(** [typeof v] *)
Definition typeof (v : value) : jstype :=
  match v with
  | VUndefined => TUndefined
  | VNull => TObject
  | VBool _ => TBoolean
  | VNum _ => TNumber
  | VStr _ => TString
  | VObj _ _ _ => TObject
  end.

Definition is_nan (x : float) : bool := negb (PrimFloat.eqb x x).

(** ToBoolean: what [!v], [v && ...] and [v || ...] test. *)
Definition truthy (v : value) : bool :=
  match v with
  | VUndefined | VNull => false
  | VBool b => b
  | VNum x => negb (PrimFloat.eqb x 0%float) && negb (is_nan x)
  | VStr s => negb (s =? "")
  | VObj _ _ _ => true
  end.

(** [a === b]: primitives by value (IEEE comparison on numbers), objects
    by identity. *)
Definition strict_eq (a b : value) : bool :=
  match a, b with
  | VUndefined, VUndefined => true
  | VNull, VNull => true
  | VBool x, VBool y => Bool.eqb x y
  | VNum x, VNum y => PrimFloat.eqb x y
  | VStr x, VStr y => (x =? y)
  | VObj r1 _ _, VObj r2 _ _ => Nat.eqb r1 r2
  | _, _ => false
  end.

(** [v == null] *)
Definition is_nullish (v : value) : bool :=
  match v with
  | VUndefined | VNull => true
  | _ => false
  end.

(** [Array.isArray(v)], [v instanceof Array] *)
Definition isArray (v : value) : bool :=
  match v with
  | VObj _ CArray _ => true
  | _ => false
  end.

(* ================================================================== *)
(** * Own properties *)

(** [Object.keys] *)
Definition keys (ps : props) : list string := map fst ps.

Fixpoint lookup (k : string) (ps : props) : option value :=
  match ps with
  | [] => None
  | (k', x) :: rest => if k' =? k then Some x else lookup k rest
  end.

Definition has_key (k : string) (ps : props) : bool :=
  match lookup k ps with
  | Some _ => true
  | None => false
  end.

(** [ks.includes(k)] on an array of strings *)
Fixpoint includes (k : string) (ks : list string) : bool :=
  match ks with
  | [] => false
  | k' :: rest => (k' =? k) || includes k rest
  end.

(** An array index is the canonical decimal numeral of an integer below
    [2^32 - 1]; such keys are enumerated first, in ascending order. *)
Definition digit_of (c : ascii) : option N :=
  let n := N_of_ascii c in
  if (48 <=? n)%N && (n <=? 57)%N then Some (n - 48)%N else None.

Fixpoint digits_value (s : string) (acc : N) : option N :=
  match s with
  | "" => Some acc
  | String c s' =>
      match digit_of c with
      | Some d => digits_value s' (10 * acc + d)%N
      | None => None
      end
  end.

Definition array_index (k : string) : option N :=
  match k with
  | "" => None
  | String c rest =>
      if (c =? "0")%char
      then (if rest =? "" then Some 0%N else None)
      else match digits_value k 0 with
           | Some n => if (n <? 4294967295)%N then Some n else None
           | None => None
           end
  end.

Definition is_index (k : string) : bool :=
  match array_index k with
  | Some _ => true
  | None => false
  end.

Fixpoint replace_value (k : string) (v : value) (ps : props) : props :=
  match ps with
  | [] => []
  | (k', x) :: rest =>
      if k' =? k then (k', v) :: rest else (k', x) :: replace_value k v rest
  end.

Fixpoint insert_index (i : N) (k : string) (v : value) (ps : props) : props :=
  match ps with
  | [] => [(k, v)]
  | (k', x) :: rest =>
      match array_index k' with
      | Some j => if (j <? i)%N then (k', x) :: insert_index i k v rest
                  else (k, v) :: ps
      | None => (k, v) :: ps
      end
  end.

Definition add_key (k : string) (v : value) (ps : props) : props :=
  match array_index k with
  | Some i => insert_index i k v ps
  | None => ps ++ [(k, v)]
  end.

(** [o[k] = v] on the properties of an object: an existing key keeps its
    place, a new one is created (after the existing string keys, or at
    its numeric place among the indices).  This is what the assignment
    does under every key but ["__proto__"] and, on an array, ["length"]
    (see [data_key]). *)
Definition obj_set (ps : props) (k : string) (v : value) : props :=
  if has_key k ps then replace_value k v ps else add_key k v ps.

(** [v[k]], read, among the properties that [v] has of its own: what
    the read gives when [v] has the property, or [k] names no member
    that [v] inherits. *)
Definition get_prop (v : value) (k : string) : value :=
  match v with
  | VObj _ _ ps =>
      match lookup k ps with
      | Some x => x
      | None => VUndefined
      end
  | VStr s =>
      match array_index k with
      | Some i =>
          match String.get (N.to_nat i) s with
          | Some c => VStr (String c "")
          | None => VUndefined
          end
      | None => VUndefined
      end
  | _ => VUndefined
  end.

(** How a call completes: with a value, or by throwing a [TypeError]. *)
Inductive completion (A : Type) : Type :=
| Normal (a : A)
| ThrowTypeError.
Arguments Normal {A} a.
Arguments ThrowTypeError {A}.

Definition bind {A B : Type} (c : completion A) (f : A -> completion B)
  : completion B :=
  match c with
  | Normal a => f a
  | ThrowTypeError => ThrowTypeError
  end.

(** [o[k] = v], the assignment: defined on objects, a [TypeError] on
    anything else. *)
Definition put (o : value) (k : string) (v : value) : completion value :=
  match o with
  | VObj r c ps => Normal (VObj r c (obj_set ps k v))
  | _ => ThrowTypeError
  end.

(** The object [o] once the object it holds under [k] has been updated in
    place to [child]; the update shows under [k] only, the values being
    trees (see [tree]). *)
Definition update_child (o : value) (k : string) (child : value) : value :=
  match o with
  | VObj r c ps => VObj r c (replace_value k child ps)
  | _ => o
  end.

(* ================================================================== *)
(** * Paths *)

(** [path.split('.')] *)
Fixpoint split_dot (s : string) : list string :=
  match s with
  | "" => [""]
  | String c rest =>
      if (c =? ".")%char then "" :: split_dot rest
      else match split_dot rest with
           | [] => [String c ""]
           | w :: ws => String c w :: ws
           end
  end.

(* ================================================================== *)
(** * getNestedValue *)

(** The body of [for (const key of keys)], with [result] the loop variable. *)
Fixpoint get_loop (ks : list string) (result defaultValue : value) : value :=
  match ks with
  | [] => result
  | key :: rest =>
      let result' :=
        if truthy result && truthy (get_prop result key)
        then get_prop result key else defaultValue in
      if strict_eq result' VUndefined then defaultValue
      else get_loop rest result' defaultValue
  end.

Definition getNestedValue (obj path defaultValue : value) : value :=
  if negb (truthy obj) || negb (jstype_eqb (typeof path) TString)
  then defaultValue
  else match path with
       | VStr p => get_loop (split_dot p) obj defaultValue
       | _ => defaultValue
       end.

(* ================================================================== *)
(** * setNestedValue *)

(** The loop over the components before the last one, followed by the
    final assignment.  The result is [current] after the update, and the
    allocation counter. *)
Fixpoint set_loop (ks : list string) (lastKey : string) (v : value)
         (current : value) (next : loc) : completion (value * loc) :=
  match ks with
  | [] => bind (put current lastKey v) (fun o => Normal (o, next))
  | key :: rest =>
      let child := get_prop current key in
      if negb (truthy child) || negb (jstype_eqb (typeof child) TObject)
      then
        let fresh := VObj next CPlain [] in
        bind (put current key fresh) (fun current1 =>
        bind (set_loop rest lastKey v fresh (S next)) (fun '(child', next') =>
        Normal (update_child current1 key child', next')))
      else
        bind (set_loop rest lastKey v child next) (fun '(child', next') =>
        Normal (update_child current key child', next'))
  end.

Definition setNestedValue (obj path v : value) (next : loc)
  : completion (value * loc) :=
  if negb (truthy obj) || negb (jstype_eqb (typeof path) TString)
  then Normal (obj, next)
  else match path with
       | VStr p =>
           let ks := split_dot p in
           set_loop (removelast ks) (last ks "") v obj next
       | _ => Normal (obj, next)
       end.

(* ================================================================== *)
(** * isEqual *)

Section equal_loop.
Variable equal : value -> value -> bool.
Variable obj2 : value.
Variable keys2 : list string.

(** [for (const key of keys1)]: the entry [(key, x)] visited is
    [key] with [x = obj1[key]]. *)
Fixpoint equal_props (ps1 : props) : bool :=
  match ps1 with
  | [] => true
  | (key, x) :: rest =>
      if negb (includes key keys2) then false
      else if negb (equal x (get_prop obj2 key)) then false
      else equal_props rest
  end.
End equal_loop.

Fixpoint isEqual (obj1 obj2 : value) : bool :=
  if strict_eq obj1 obj2 then true
  else if is_nullish obj1 || is_nullish obj2 then false
  else if negb (jstype_eqb (typeof obj1) TObject)
          || negb (jstype_eqb (typeof obj2) TObject) then false
  else match obj1, obj2 with
       | VObj _ _ ps1, VObj _ _ ps2 =>
           let keys1 := keys ps1 in
           let keys2 := keys ps2 in
           if negb (List.length keys1 =? List.length keys2)%nat then false
           else equal_props isEqual obj2 keys2 ps1
       | _, _ => false
       end.

(* ================================================================== *)
(** * deepClone *)

Section clone_loop.
Variable clone : value -> loc -> value * loc.
Variable visited : string -> bool.

(** [cloned[key] = deepClone(obj[key])] for each visited key. *)
Fixpoint clone_props (ps cloned : props) (next : loc) : props * loc :=
  match ps with
  | [] => (cloned, next)
  | (key, x) :: rest =>
      if visited key then
        let '(x', next') := clone x next in
        clone_props rest (obj_set cloned key x') next'
      else clone_props rest cloned next
  end.
End clone_loop.

(** A date is rebuilt from its time value, an array is mapped
    ([Array.prototype.map] visits the indices only), any other object is
    copied key by key. *)
Fixpoint deepClone (obj : value) (next : loc) : value * loc :=
  if strict_eq obj VNull || negb (jstype_eqb (typeof obj) TObject)
  then (obj, next)
  else match obj with
       | VObj _ (CDate time) _ => (VObj next (CDate time) [], S next)
       | VObj _ CArray ps =>
           let '(items, next') :=
             clone_props deepClone is_index ps [] (S next) in
           (VObj next CArray items, next')
       | VObj _ CPlain ps =>
           let '(cloned, next') :=
             clone_props deepClone (fun _ => true) ps [] (S next) in
           (VObj next CPlain cloned, next')
       | _ => (obj, next)
       end.

(* ================================================================== *)
(** * deepMerge *)

(** [merged[key]] on the properties of the accumulator. *)
Definition read (ps : props) (k : string) : value :=
  match lookup k ps with
  | Some x => x
  | None => VUndefined
  end.

(** [x && typeof x === 'object' && !Array.isArray(x)] *)
Definition merged_by_keys (x : value) : bool :=
  truthy x && jstype_eqb (typeof x) TObject && negb (isArray x).

Section merge_loop.
(** the recursive call [deepMerge(a, b)] *)
Variable merge : list value -> loc -> option (value * loc).

(** [Object.keys(obj).forEach(key => ...)] *)
Fixpoint merge_keys (ps merged : props) (next : loc)
  : option (props * loc) :=
  match ps with
  | [] => Some (merged, next)
  | (key, x) :: rest =>
      if merged_by_keys x
      then
        let old := read merged key in
        let '(first, next1) :=
          if truthy old then (old, next)
          else (VObj next CPlain [], S next) in
        match merge [first; x] next1 with
        | Some (m, next2) => merge_keys rest (obj_set merged key m) next2
        | None => None
        end
      else merge_keys rest (obj_set merged key x) next
  end.

(** the reducer [(merged, obj) => ...] *)
Definition merge_arg (merged : props) (next : loc) (obj : value)
  : option (props * loc) :=
  if truthy obj && jstype_eqb (typeof obj) TObject
  then match obj with
       | VObj _ _ ps => merge_keys ps merged next
       | _ => Some (merged, next)
       end
  else Some (merged, next).

(** [objects.reduce(..., merged)] *)
Fixpoint merge_reduce (objects : list value) (merged : props) (next : loc)
  : option (props * loc) :=
  match objects with
  | [] => Some (merged, next)
  | obj :: rest =>
      match merge_arg merged next obj with
      | Some (merged', next') => merge_reduce rest merged' next'
      | None => None
      end
  end.
End merge_loop.

(** The recursion of [deepMerge] goes through the accumulator, which is
    not a part of any argument, so the depth of the recursion is bounded
    by [fuel]; [None] means the bound was reached. *)
Fixpoint deepMerge (fuel : nat) (objects : list value) (next : loc)
  : option (value * loc) :=
  match fuel with
  | 0 => None
  | S fuel' =>
      match merge_reduce (deepMerge fuel') objects [] (S next) with
      | Some (merged, next') => Some (VObj next CPlain merged, next')
      | None => None
      end
  end.

(* ================================================================== *)
(** * flattenObject, unflattenObject *)

(** [prefix ? `${prefix}.${key}` : key] *)
Definition new_key (prefix key : string) : string :=
  if negb (prefix =? "") then prefix ++ "." ++ key else key.

(** [typeof x === 'object' && x !== null && !Array.isArray(x)] *)
Definition flattened_by_keys (x : value) : bool :=
  jstype_eqb (typeof x) TObject && negb (strict_eq x VNull)
  && negb (isArray x).

(** the own enumerable properties of a value *)
Definition props_of (v : value) : props :=
  match v with
  | VObj _ _ ps => ps
  | _ => []
  end.

(** [Object.assign(target, source)] *)
Definition assign (target source : props) : props :=
  fold_left (fun acc kv => obj_set acc (fst kv) (snd kv)) source target.

Section flatten_loop.
Variable flatten : value -> string -> loc -> value * loc.
Variable prefix : string.

(** [Object.keys(obj).reduce((acc, key) => ..., acc)] *)
Fixpoint flatten_props (ps acc : props) (next : loc) : props * loc :=
  match ps with
  | [] => (acc, next)
  | (key, x) :: rest =>
      let newKey := new_key prefix key in
      if flattened_by_keys x
      then
        let '(sub, next') := flatten x newKey next in
        flatten_props rest (assign acc (props_of sub)) next'
      else flatten_props rest (obj_set acc newKey x) next
  end.
End flatten_loop.

Fixpoint flattenObject (obj : value) (prefix : string) (next : loc)
  : value * loc :=
  if negb (truthy obj) || negb (jstype_eqb (typeof obj) TObject)
  then (VObj next CPlain [], S next)
  else match obj with
       | VObj _ _ ps =>
           let '(acc, next') :=
             flatten_props flattenObject prefix ps [] (S next) in
           (VObj next CPlain acc, next')
       | _ => (VObj next CPlain [], S next)
       end.

(** [for (const key in obj) setNestedValue(result, key, obj[key])];
    [result] is updated in place by each call. *)
Fixpoint unflatten_loop (ps : props) (result : value) (next : loc)
  : completion (value * loc) :=
  match ps with
  | [] => Normal (result, next)
  | (key, x) :: rest =>
      bind (setNestedValue result (VStr key) x next) (fun '(result', next') =>
      unflatten_loop rest result' next')
  end.

Definition unflattenObject (obj : value) (next : loc)
  : completion (value * loc) :=
  if negb (truthy obj) || negb (jstype_eqb (typeof obj) TObject)
  then Normal (VObj next CPlain [], S next)
  else unflatten_loop (props_of obj) (VObj next CPlain []) (S next).

(* ================================================================== *)
(** * Literals used in the examples *)

Definition obj (r : loc) (ps : props) : value := VObj r CPlain ps.
Definition arr (r : loc) (ps : props) : value := VObj r CArray ps.
Definition date (r : loc) (time : float) : value := VObj r (CDate time) [].
Definition num (x : float) : value := VNum x.

(* ================================================================== *)
(** * Plain Values (specification, section 3) *)

Inductive kind : Type := Scalar | Sequence | Mapping.

(** The runtime kind of a value; an opaque date is a scalar. *)
Definition kind_of (v : value) : kind :=
  match v with
  | VObj _ CPlain _ => Mapping
  | VObj _ CArray _ => Sequence
  | _ => Scalar
  end.

(** string, number, boolean, null or absence of value *)
Definition is_primitive (v : value) : bool :=
  match v with
  | VObj _ _ _ => false
  | _ => true
  end.

Fixpoint distinct (ks : list string) : bool :=
  match ks with
  | [] => true
  | k :: rest => negb (includes k rest) && distinct rest
  end.

Section over_props.
Variable p : value -> bool.
Variable m : value -> nat.

Fixpoint all_values (ps : props) : bool :=
  match ps with
  | [] => true
  | (_, x) :: rest => p x && all_values rest
  end.

Fixpoint max_value (ps : props) : nat :=
  match ps with
  | [] => 0
  | (_, x) :: rest => Nat.max (m x) (max_value rest)
  end.
End over_props.

Definition no_props (ps : props) : bool :=
  match ps with
  | [] => true
  | _ :: _ => false
  end.

(** The representation of a Plain Value: the keys of an object are
    pairwise different, a Sequence has index keys only, a date has no
    key. *)
Fixpoint plain (v : value) : bool :=
  match v with
  | VObj _ c ps =>
      distinct (keys ps) && all_values plain ps
      && match c with
         | CPlain => true
         | CArray => forallb is_index (keys ps)
         | CDate _ => no_props ps
         end
  | _ => true
  end.

(** No number in the value is NaN. *)
Fixpoint nan_free (v : value) : bool :=
  match v with
  | VNum x => negb (is_nan x)
  | VObj _ _ ps => all_values nan_free ps
  | _ => true
  end.

(** The values that [deepMerge] carries over: Mappings with distinct
    keys, key-less dates, Sequences (by reference, whatever they hold),
    and the scalars other than NaN. *)
Fixpoint mergeable (v : value) : bool :=
  match v with
  | VNum x => negb (is_nan x)
  | VObj _ CPlain ps => distinct (keys ps) && all_values mergeable ps
  | VObj _ CArray _ => true
  | VObj _ (CDate _) ps => no_props ps
  | _ => true
  end.

(** nesting depth of objects *)
Fixpoint depth (v : value) : nat :=
  match v with
  | VObj _ _ ps => S (max_value depth ps)
  | _ => 0
  end.

(** Only Mappings and scalars below a Mapping (the scalars of section 3,
    dates included). *)
Fixpoint mappings_and_scalars (v : value) : bool :=
  match v with
  | VObj _ CPlain ps => all_values mappings_and_scalars ps
  | VObj _ CArray _ => false
  | _ => true
  end.

(* ================================================================== *)
(** * getNestedValue as the specification words it (section 4.4) *)

(** At each step, if the current node is a Mapping containing the
    component as a key and the value of that key is not null or absent,
    descend into it; otherwise stop and return the fallback. *)
Fixpoint spec_walk (ks : list string) (node fallback : value) : value :=
  match ks with
  | [] => node
  | k :: rest =>
      match node with
      | VObj _ CPlain ps =>
          match lookup k ps with
          | Some x =>
              if is_nullish x then fallback else spec_walk rest x fallback
          | None => fallback
          end
      | _ => fallback
      end
  end.

Definition spec_getNestedValue (root : value) (path : string)
           (fallback : value) : value :=
  spec_walk (split_dot path) root fallback.

(* ================================================================== *)
(** * Paths and leaves (specification, sections 3 and 4.6) *)

Fixpoint dot_free (k : string) : bool :=
  match k with
  | "" => true
  | String c rest => negb (c =? ".")%char && dot_free rest
  end.

(** A path component: not empty, without a dot. *)
Definition path_key (k : string) : bool := negb (k =? "") && dot_free k.

(** [p.join('.')] *)
Fixpoint dot_join (p : list string) : string :=
  match p with
  | [] => ""
  | k :: rest =>
      match rest with
      | [] => k
      | _ :: _ => k ++ "." ++ dot_join rest
      end
  end.

Definition under (k : string) (e : list string * value)
  : list string * value := (k :: fst e, snd e).

Section leaves_loop.
Variable leaves : value -> list (list string * value).

Fixpoint leaves_props (ps : props) : list (list string * value) :=
  match ps with
  | [] => []
  | (k, x) :: rest =>
      match kind_of x with
      | Mapping => map (under k) (leaves x)
      | _ => [([k], x)]
      end ++ leaves_props rest
  end.
End leaves_loop.

(** The leaves of a Mapping as the specification has them: every nested
    value that is not a Mapping, with the keys that lead to it from the
    root. *)
Fixpoint leaves (v : value) : list (list string * value) :=
  match v with
  | VObj _ CPlain ps => leaves_props leaves ps
  | _ => []
  end.

(** The entry the specification asks for a leaf. *)
Definition leaf_entry (e : list string * value) : string * value :=
  (dot_join (fst e), snd e).

(** Keys that are path components, pairwise different, and no date among
    the values reached through Mappings. *)
Fixpoint flattenable (v : value) : bool :=
  match v with
  | VObj _ CPlain ps =>
      distinct (keys ps) && forallb path_key (keys ps)
      && all_values flattenable ps
  | VObj _ CArray _ => true
  | VObj _ (CDate _) _ => false
  | _ => true
  end.

(** A nested value that [unflattenObject] rebuilds from the output of
    [flattenObject]: a scalar other than a date or NaN, or a Mapping that
    is not empty, has path components for keys, and holds such values. *)
Fixpoint restorable (v : value) : bool :=
  match v with
  | VNum x => negb (is_nan x)
  | VObj _ CPlain ps =>
      negb (no_props ps) && distinct (keys ps) && forallb path_key (keys ps)
      && all_values restorable ps
  | VObj _ _ _ => false
  | _ => true
  end.

Definition restorable_root (m : value) : bool :=
  match m with
  | VObj _ CPlain ps =>
      distinct (keys ps) && forallb path_key (keys ps)
      && all_values restorable ps
  | _ => false
  end.

(* ================================================================== *)
(** * What the code writes and where *)

Section writes_loop.
Variable writes : value -> string -> list (string * value).
Variable prefix : string.

Fixpoint writes_props (ps : props) : list (string * value) :=
  match ps with
  | [] => []
  | (key, x) :: rest =>
      let newKey := new_key prefix key in
      (if flattened_by_keys x then writes x newKey else [(newKey, x)])
      ++ writes_props rest
  end.
End writes_loop.

(** The assignments [acc[newKey] = obj[key]] that [flattenObject]
    performs, in the order it performs them. *)
Fixpoint writes (o : value) (prefix : string) : list (string * value) :=
  match o with
  | VObj _ _ ps => writes_props writes prefix ps
  | _ => []
  end.

(** What a lookup finds in the output, in terms of the assignments
    performed: the last one made under that key. *)
Definition last_written (k : string) (ws : list (string * value))
  : option value := lookup k (rev ws).

(** The value reached from [v] by following the keys of [p] through
    objects. *)
Fixpoint lookup_path (p : list string) (v : value) : option value :=
  match p with
  | [] => Some v
  | k :: q =>
      match v with
      | VObj _ _ ps =>
          match lookup k ps with
          | Some child => lookup_path q child
          | None => None
          end
      | _ => None
      end
  end.

Definition is_prefix (p q : list string) : Prop := exists s, q = p ++ s.

(** The prefix that [flattenObject] hands down is the dot-joined path,
    as long as that path is empty or its joined form is not. *)
Definition joinable (path : list string) : Prop :=
  path = [] \/ dot_join path <> "".

(** Pairwise different keys at every object of the value. *)
Fixpoint wf_keys (v : value) : bool :=
  match v with
  | VObj _ _ ps => distinct (keys ps) && all_values wf_keys ps
  | _ => true
  end.

(** The object that the walk of [setNestedValue] goes into under a key
    whose current value is [child]: [child] itself when it is an object,
    a new empty object otherwise. *)
Definition descend (child : value) (next : loc) : value * loc :=
  if negb (truthy child) || negb (jstype_eqb (typeof child) TObject)
  then (VObj next CPlain [], S next)
  else (child, next).

(** [r] is an object with pairwise different keys throughout, it has the
    value of every assignment of [done] at the path of that assignment,
    and every key in it lies on the path of an assignment of [done]. *)
Definition holds (r : value) (done : list (list string * value)) : Prop :=
  is_primitive r = false
  /\ wf_keys r = true
  /\ (forall p v, In (p, v) done -> lookup_path p r = Some v)
  /\ (forall q k rr c ps,
        lookup_path q r = Some (VObj rr c ps) -> In k (keys ps) ->
        exists p v, In (p, v) done /\ is_prefix (q ++ [k]) p).

(** The properties of the object [built] were assigned one key at a
    time, each from the entry of [ps0] with that key, to which [Q]
    relates it. *)
Definition built_from (Q : value -> value -> Prop) (ps0 built : props)
  : Prop :=
  NoDup (keys built)
  /\ forall k c, In (k, c) built -> exists x, In (k, x) ps0 /\ Q c x.

(* ================================================================== *)
(** * The properties, as stated *)

(** Every object of [v] was allocated before [next]: the states of the
    allocation counter in which a call can receive [v]. *)
Fixpoint allocated (next : loc) (v : value) : bool :=
  match v with
  | VObj r _ ps => (r <? next)%nat && all_values (allocated next) ps
  | _ => true
  end.

(** [getNestedValue(setNestedValue(root, path, v), path)] returns [v]. *)
Definition get_after_set (root : value) (path : string) (v : value) : Prop :=
  forall next, allocated next root = true -> allocated next v = true ->
    exists root' next',
      setNestedValue root (VStr path) v next = Normal (root', next')
      /\ getNestedValue root' (VStr path) VUndefined = v.

(** [unflattenObject(flattenObject(m))] is [isEqual] to [m]. *)
Definition flatten_roundtrip (m : value) : Prop :=
  forall next, allocated next m = true ->
    exists r next',
      unflattenObject (fst (flattenObject m "" next))
                      (snd (flattenObject m "" next)) = Normal (r, next')
      /\ isEqual r m = true.

(** Values of differing kind are not [isEqual]. *)
Definition kinds_unequal (a b : value) : Prop :=
  kind_of a <> kind_of b -> isEqual a b = false.

(** [isEqual(deepClone(x), x)] returns true. *)
Definition clone_equal (x : value) : Prop :=
  forall next, allocated next x = true ->
    isEqual (fst (deepClone x next)) x = true.

(** The output of [flattenObject(root)] has exactly the entries of the
    leaves of [root], one for each. *)
Definition one_entry_per_leaf (root : value) : Prop :=
  forall next, allocated next root = true ->
    Permutation (props_of (fst (flattenObject root "" next)))
                (map leaf_entry (leaves root)).

(** [isEqual(deepMerge(m), m)] returns true. *)
Definition merge_identity (m : value) : Prop :=
  forall next, allocated next m = true ->
    exists fuel0, forall fuel, fuel0 <= fuel ->
      exists r next',
        deepMerge fuel [m] next = Some (r, next') /\ isEqual r m = true.

(* ================================================================== *)
(** * getAllKeys *)

Section all_keys_loop.
Variable allKeys : value -> string -> list string.
Variable prefix : string.

(** [Object.keys(obj).reduce((keys, key) => ..., keys)]; [concat]
    appends the elements of an array argument, and a string argument as
    it is. *)
Fixpoint all_keys_props (ps : props) (keys : list string) : list string :=
  match ps with
  | [] => keys
  | (key, x) :: rest =>
      let newKey := new_key prefix key in
      if flattened_by_keys x
      then all_keys_props rest (keys ++ allKeys x newKey)
      else all_keys_props rest (keys ++ [newKey])
  end.
End all_keys_loop.

(** The array that [getAllKeys] returns, as the list of its elements. *)
Fixpoint getAllKeys (obj : value) (prefix : string) : list string :=
  if negb (truthy obj) || negb (jstype_eqb (typeof obj) TObject) then []
  else match obj with
       | VObj _ _ ps => all_keys_props getAllKeys prefix ps []
       | _ => []
       end.

(* ================================================================== *)
(** * removeNullish *)

(** [Object.keys(obj).reduce((result, key) => ..., result)] *)
Fixpoint remove_nullish_props (ps result : props) : props :=
  match ps with
  | [] => result
  | (key, x) :: rest =>
      if negb (is_nullish x)
      then remove_nullish_props rest (obj_set result key x)
      else remove_nullish_props rest result
  end.

Definition removeNullish (obj : value) (next : loc) : value * loc :=
  if negb (truthy obj) || negb (jstype_eqb (typeof obj) TObject)
  then (obj, next)
  else (VObj next CPlain (remove_nullish_props (props_of obj) []), S next).

(* ================================================================== *)
(** * Functions as arguments: filterObject, mapValues *)

(** An argument that is meant to be a function.  A function of the model
    is pure and total: it returns a value, mutates nothing and does not
    throw.  Any other argument is a value, and [typeof] never answers
    ['function'] for it. *)
Inductive callback (F : Type) : Type :=
| Callback (f : F)
| NotCallable (v : value).
Arguments Callback {F} f.
Arguments NotCallable {F} v.

(** [typeof fn === 'function'] *)
Definition is_function {F : Type} (fn : callback F) : bool :=
  match fn with
  | Callback _ => true
  | NotCallable _ => false
  end.

Section filter_loop.
Variable fn : value -> string -> value -> value.
Variable obj : value.

(** [Object.keys(obj).reduce((result, key) => ..., result)], the test
    being [fn(obj[key], key, obj)] *)
Fixpoint filter_props (ps result : props) : props :=
  match ps with
  | [] => result
  | (key, x) :: rest =>
      if truthy (fn x key obj)
      then filter_props rest (obj_set result key x)
      else filter_props rest result
  end.
End filter_loop.

Definition filterObject (obj : value)
           (fn : callback (value -> string -> value -> value)) (next : loc)
  : value * loc :=
  if negb (truthy obj) || negb (jstype_eqb (typeof obj) TObject)
     || negb (is_function fn)
  then (VObj next CPlain [], S next)
  else match fn with
       | Callback f =>
           (VObj next CPlain (filter_props f obj (props_of obj) []), S next)
       | NotCallable _ => (VObj next CPlain [], S next)
       end.

Section map_values_loop.
Variable fn : value -> value.

(** [Object.keys(obj).forEach(key => { result[key] = fn(obj[key]) })] *)
Fixpoint map_values_props (ps result : props) : props :=
  match ps with
  | [] => result
  | (key, x) :: rest => map_values_props rest (obj_set result key (fn x))
  end.
End map_values_loop.

Definition mapValues (obj : value) (fn : callback (value -> value))
           (next : loc) : completion (value * loc) :=
  if negb (truthy obj) || negb (jstype_eqb (typeof obj) TObject)
  then ThrowTypeError
  else if negb (is_function fn) then ThrowTypeError
  else match fn with
       | Callback f =>
           Normal (VObj next CPlain (map_values_props f (props_of obj) []),
                   S next)
       | NotCallable _ => ThrowTypeError
       end.

(* ================================================================== *)
(** * defaults *)

(** [{ ...source }]: the properties of a new object that receives the
    own enumerable properties of [source], in their order. *)
Definition spread (source : value) : props := assign [] (props_of source).

(** [Object.keys(obj).forEach(key => { if (obj[key] !== undefined) ... })] *)
Fixpoint defaults_props (ps result : props) : props :=
  match ps with
  | [] => result
  | (key, x) :: rest =>
      if negb (strict_eq x VUndefined)
      then defaults_props rest (obj_set result key x)
      else defaults_props rest result
  end.

Definition defaults (obj defaults : value) (next : loc)
  : completion (value * loc) :=
  if negb (truthy obj) || negb (jstype_eqb (typeof obj) TObject)
  then ThrowTypeError
  else if negb (truthy defaults) || negb (jstype_eqb (typeof defaults) TObject)
  then ThrowTypeError
  else Normal (VObj next CPlain
                    (defaults_props (props_of obj) (spread defaults)),
               S next).

(* ================================================================== *)
(** * Values as property keys: pick, omit, has, invert, mapKeys *)

(** The elements that [forEach] visits on an array: the values at its
    indices, in ascending order. *)
Definition elements (ps : props) : list value :=
  map snd (filter (fun kv => is_index (fst kv)) ps).

(** [delete o[k]] on the properties of an ordinary object *)
Fixpoint delete (k : string) (ps : props) : props :=
  match ps with
  | [] => []
  | (k', x) :: rest =>
      if k' =? k then delete k rest else (k', x) :: delete k rest
  end.

Section property_keys.
(** The conversion to a string of a value that is not one (the numeral
    of a number, ["null"], ["[object Object]"], the joined elements of an
    array, ...).  It is left open here: what is proved below holds
    whatever it yields. *)
Variable to_string : value -> string.

(** ToPropertyKey, which [o[v]] and [v in o] apply to [v].  On a
    primitive the conversion always yields a string; on an object it can
    throw, which is not modelled: the statements about listed or
    computed keys ask for primitives. *)
Definition to_property_key (v : value) : string :=
  match v with
  | VStr s => s
  | _ => to_string v
  end.

(** [keys.forEach(key => { if (key in obj) result[key] = obj[key] })];
    [in] is tested on the properties that [obj] has of its own, which is
    what it tells of a key that names no inherited member. *)
Fixpoint pick_loop (o : value) (ks : list value) (result : props) : props :=
  match ks with
  | [] => result
  | key :: rest =>
      let k := to_property_key key in
      if has_key k (props_of o)
      then pick_loop o rest (obj_set result k (get_prop o k))
      else pick_loop o rest result
  end.

Definition pick (obj keys : value) (next : loc) : completion (value * loc) :=
  if negb (truthy obj) || negb (jstype_eqb (typeof obj) TObject)
  then ThrowTypeError
  else if negb (isArray keys) then ThrowTypeError
  else Normal (VObj next CPlain
                    (pick_loop obj (elements (props_of keys)) []),
               S next).

(** [keys.forEach(key => delete result[key])] *)
Fixpoint omit_loop (ks : list value) (result : props) : props :=
  match ks with
  | [] => result
  | key :: rest => omit_loop rest (delete (to_property_key key) result)
  end.

Definition omit (obj keys : value) (next : loc) : completion (value * loc) :=
  if negb (truthy obj) || negb (jstype_eqb (typeof obj) TObject)
  then ThrowTypeError
  else if negb (isArray keys) then ThrowTypeError
  else Normal (VObj next CPlain
                    (omit_loop (elements (props_of keys)) (spread obj)),
               S next).

(** [prop in obj], on the properties that [obj] has of its own: what the
    test tells of a key that names no inherited member *)
Definition has (obj prop : value) : completion bool :=
  if negb (truthy obj) || negb (jstype_eqb (typeof obj) TObject)
  then ThrowTypeError
  else Normal (has_key (to_property_key prop) (props_of obj)).

(** [Object.keys(obj).forEach(key => { result[obj[key]] = key })] *)
Fixpoint invert_props (ps result : props) : props :=
  match ps with
  | [] => result
  | (key, x) :: rest =>
      invert_props rest (obj_set result (to_property_key x) (VStr key))
  end.

Definition invert (obj : value) (next : loc) : completion (value * loc) :=
  if negb (truthy obj) || negb (jstype_eqb (typeof obj) TObject)
  then ThrowTypeError
  else Normal (VObj next CPlain (invert_props (props_of obj) []), S next).

Section map_keys_loop.
Variable fn : string -> value.

(** [Object.keys(obj).forEach(key => { result[fn(key)] = obj[key] })] *)
Fixpoint map_keys_props (ps result : props) : props :=
  match ps with
  | [] => result
  | (key, x) :: rest =>
      map_keys_props rest (obj_set result (to_property_key (fn key)) x)
  end.
End map_keys_loop.

Definition mapKeys (obj : value) (fn : callback (string -> value))
           (next : loc) : completion (value * loc) :=
  if negb (truthy obj) || negb (jstype_eqb (typeof obj) TObject)
  then ThrowTypeError
  else if negb (is_function fn) then ThrowTypeError
  else match fn with
       | Callback f =>
           Normal (VObj next CPlain (map_keys_props f (props_of obj) []),
                   S next)
       | NotCallable _ => ThrowTypeError
       end.
End property_keys.

(* ================================================================== *)
(** * isEmpty, size *)

(** [obj != null && typeof obj === 'object'
     && Object.keys(obj).length === 0] *)
Definition isEmpty (obj : value) : bool :=
  negb (is_nullish obj) && jstype_eqb (typeof obj) TObject
  && (List.length (keys (props_of obj)) =? 0)%nat.

(** The number returned is a count; it is given as a natural number. *)
Definition size (obj : value) : nat :=
  if negb (truthy obj) || negb (jstype_eqb (typeof obj) TObject) then 0
  else List.length (keys (props_of obj)).

(* ================================================================== *)
(** * Identities *)

(** The identities of the objects of a value: its own, then those of the
    objects below it. *)
Fixpoint object_ids (v : value) : list loc :=
  match v with
  | VObj r _ ps => r :: flat_map (fun kv => object_ids (snd kv)) ps
  | _ => []
  end.

(** The identities of the objects held by the properties [ps]. *)
Definition ids_of (ps : props) : list loc :=
  flat_map (fun kv => object_ids (snd kv)) ps.

(* ================================================================== *)
(** * hasPath *)

(** [Symbol('not-found')]: a new symbol.  [getNestedValue] tests its
    third argument for truthiness, reads properties from it and compares
    it with [===]; in the first and the last a new symbol behaves as a
    new object without properties does, and it is represented by one.
    No property is read from it when the walk ends with the component
    that puts it in place of a value, which is the case the statements
    about [hasPath] cover. *)
Definition new_symbol (next : loc) : value := VObj next CPlain [].

Definition hasPath (obj path : value) (next : loc) : bool * loc :=
  if negb (truthy obj) || negb (jstype_eqb (typeof path) TString)
  then (false, next)
  else
    let notFound := new_symbol next in
    (negb (strict_eq (getNestedValue obj path notFound) notFound), S next).

(** Every object of [v] that can be reached without going through an
    array is a plain object that was allocated at [lo] or later, and
    before [hi]. *)
Fixpoint new_mappings (lo hi : loc) (v : value) : bool :=
  match v with
  | VObj r CPlain ps =>
      (lo <=? r)%nat && (r <? hi)%nat && all_values (new_mappings lo hi) ps
  | VObj _ CArray _ => true
  | VObj _ (CDate _) _ => false
  | _ => true
  end.

(* ================================================================== *)
(** * Where the model of the properties is exact *)

(** On the objects of the model an assignment [o[k] = v] creates or
    replaces an own enumerable property, as [obj_set] has it, and a read
    of a key so assigned finds that property, for every key but two:
    ["__proto__"], which on every object names the accessor inherited
    from [Object.prototype] (the assignment sets the prototype, or does
    nothing), and ["length"], which on an array is its length (the
    assignment truncates or extends the array, or throws a
    [RangeError]).  The other keys are the data keys. *)
Definition data_key (k : string) : bool :=
  negb (k =? "__proto__") && negb (k =? "length").

(** No object of the value has the key ["__proto__"]. *)
Fixpoint proto_free (v : value) : bool :=
  match v with
  | VObj _ _ ps =>
      negb (includes "__proto__" (keys ps)) && all_values proto_free ps
  | _ => true
  end.

(** The string-keyed members of [Object.prototype].  A plain object
    inherits them: a read [o[k]] and a test [k in o] find them when [o]
    has no property of its own under [k]. *)
Definition object_prototype_member (k : string) : bool :=
  includes k ["constructor"; "__defineGetter__"; "__defineSetter__";
              "hasOwnProperty"; "__lookupGetter__"; "__lookupSetter__";
              "isPrototypeOf"; "propertyIsEnumerable"; "toString";
              "valueOf"; "__proto__"; "toLocaleString"].

Fixpoint all_different (l : list loc) : bool :=
  match l with
  | [] => true
  | r :: rest => negb (existsb (Nat.eqb r) rest) && all_different rest
  end.

(** No object occurs twice in the value: no object is reachable along
    two paths, so that an update in place of an object at one path is an
    update at that path only. *)
Definition tree (v : value) : bool := all_different (object_ids v).

(* ================================================================== *)
(** * Induction on values *)

Section value_induction.
Variable P : value -> Prop.
Hypothesis Hundefined : P VUndefined.
Hypothesis Hnull : P VNull.
Hypothesis Hbool : forall b, P (VBool b).
Hypothesis Hnum : forall x, P (VNum x).
Hypothesis Hstr : forall s, P (VStr s).
Hypothesis Hobj :
  forall r c ps, (forall k x, In (k, x) ps -> P x) -> P (VObj r c ps).

Fixpoint value_ind (v : value) : P v :=
  match v with
  | VUndefined => Hundefined
  | VNull => Hnull
  | VBool b => Hbool b
  | VNum x => Hnum x
  | VStr s => Hstr s
  | VObj r c ps =>
      Hobj r c ps
        ((fix children (l : props) : forall k x, In (k, x) l -> P x :=
            match l with
            | [] => fun k x H => match H with end
            | (k', x') :: rest => fun k x H =>
                match H with
                | or_introl e =>
                    eq_ind x' P (value_ind x') x (f_equal snd e)
                | or_intror H' => children rest k x H'
                end
            end) ps)
  end.
End value_induction.

(* ================================================================== *)
(** * The cases of [tests/objectUtils.test.js] *)

Example test_deepClone :
  deepClone (obj 0 [("a", num 1); ("b", obj 1 [("c", num 2)])]) 2
  = (obj 2 [("a", num 1); ("b", obj 3 [("c", num 2)])], 4)
  /\ deepClone (num 42) 0 = (num 42, 0)
  /\ deepClone (VStr "hello") 0 = (VStr "hello", 0).
Proof.
  repeat split; reflexivity.
Qed.

Example test_deepMerge :
  deepMerge 2 [obj 0 [("a", num 1); ("b", obj 1 [("c", num 2)])];
               obj 2 [("b", obj 3 [("d", num 3)]); ("e", num 4)]] 4
  = Some (obj 4 [("a", num 1);
                 ("b", obj 7 [("c", num 2); ("d", num 3)]);
                 ("e", num 4)], 8)
  /\ deepMerge 1 [obj 0 [("a", num 1)]; obj 1 [("b", num 2)]] 2
     = Some (obj 2 [("a", num 1); ("b", num 2)], 3).
Proof.
  split; reflexivity.
Qed.

Example test_getNestedValue :
  getNestedValue (obj 0 [("a", obj 1 [("b", obj 2 [("c", num 42)])])])
                 (VStr "a.b.c") VUndefined = num 42
  /\ getNestedValue (obj 0 [("a", obj 1 [("b", num 1)])])
                    (VStr "a.c") (VStr "default") = VStr "default".
Proof.
  split; reflexivity.
Qed.

Example test_setNestedValue :
  setNestedValue (obj 0 [("a", obj 1 [("b", num 1)])]) (VStr "a.c.d")
                 (num 42) 2
  = Normal (obj 0 [("a", obj 1 [("b", num 1);
                                ("c", obj 2 [("d", num 42)])])], 3).
Proof.
  reflexivity.
Qed.

Example test_flattenObject :
  flattenObject
    (obj 0 [("a", num 1);
            ("b", obj 1 [("c", num 2); ("d", obj 2 [("e", num 3)])])])
    "" 3
  = (obj 3 [("a", num 1); ("b.c", num 2); ("b.d.e", num 3)], 6).
Proof.
  reflexivity.
Qed.

Example test_unflattenObject :
  unflattenObject
    (obj 0 [("a", num 1); ("b.c", num 2); ("b.d.e", num 3)]) 1
  = Normal
      (obj 1 [("a", num 1);
              ("b", obj 2 [("c", num 2); ("d", obj 3 [("e", num 3)])])],
       4).
Proof.
  reflexivity.
Qed.

Example test_isEqual :
  isEqual (obj 0 [("a", num 1); ("b", obj 1 [("c", num 2)])])
          (obj 2 [("a", num 1); ("b", obj 3 [("c", num 2)])]) = true
  /\ isEqual (obj 0 [("a", num 1)]) (obj 1 [("a", num 2)]) = false.
Proof.
  split; reflexivity.
Qed.

(* ================================================================== *)
(** * Keys and lookups *)

Lemma includes_In (k : string) (ks : list string) :
  includes k ks = true <-> In k ks.
Proof.
  induction ks as [|k' ks IH]; simpl.
  - split; [discriminate | tauto].
  - rewrite orb_true_iff, IH, String.eqb_eq. tauto.
Qed.

Lemma includes_false (k : string) (ks : list string) :
  includes k ks = false <-> ~ In k ks.
Proof.
  rewrite <- includes_In. destruct (includes k ks); split; congruence.
Qed.

Lemma distinct_NoDup (ks : list string) :
  distinct ks = true <-> NoDup ks.
Proof.
  induction ks as [|k ks IH]; simpl.
  - split; [constructor | reflexivity].
  - rewrite andb_true_iff, negb_true_iff, includes_false, IH.
    split.
    + intros [H1 H2]. now constructor.
    + intros H. inversion H; subst. tauto.
Qed.

Lemma lookup_In (k : string) (ps : props) (x : value) :
  lookup k ps = Some x -> In (k, x) ps.
Proof.
  induction ps as [|[k' x'] ps IH]; simpl; [discriminate|].
  destruct (String.eqb_spec k' k) as [->|Hne].
  - intros [= ->]. now left.
  - intros H. right. now apply IH.
Qed.

Lemma lookup_None (k : string) (ps : props) :
  lookup k ps = None <-> ~ In k (keys ps).
Proof.
  induction ps as [|[k' x'] ps IH]; simpl.
  - tauto.
  - destruct (String.eqb_spec k' k) as [->|Hne].
    + split; [discriminate | tauto].
    + rewrite IH. tauto.
Qed.

Lemma lookup_Some_key (k : string) (ps : props) (x : value) :
  lookup k ps = Some x -> In k (keys ps).
Proof.
  intros H. apply lookup_In in H.
  apply (in_map fst) in H. exact H.
Qed.

Lemma key_lookup (k : string) (ps : props) :
  In k (keys ps) -> exists x, lookup k ps = Some x.
Proof.
  intros H. destruct (lookup k ps) as [x|] eqn:E.
  - now exists x.
  - apply lookup_None in E. contradiction.
Qed.

Lemma In_lookup (k : string) (ps : props) (x : value) :
  NoDup (keys ps) -> In (k, x) ps -> lookup k ps = Some x.
Proof.
  induction ps as [|[k' x'] ps IH]; simpl; [tauto|].
  intros Hnd [H|H].
  - injection H as -> ->. now rewrite String.eqb_refl.
  - inversion Hnd as [|? ? Hk Hnd']; subst.
    destruct (String.eqb_spec k' k) as [->|Hne].
    + exfalso. apply Hk. apply (in_map fst) in H. exact H.
    + now apply IH.
Qed.

Lemma has_key_In (k : string) (ps : props) :
  has_key k ps = true <-> In k (keys ps).
Proof.
  unfold has_key. destruct (lookup k ps) as [x|] eqn:E.
  - apply lookup_Some_key in E. tauto.
  - apply lookup_None in E. split; [discriminate | contradiction].
Qed.

Lemma has_key_false (k : string) (ps : props) :
  has_key k ps = false <-> ~ In k (keys ps).
Proof.
  rewrite <- has_key_In. destruct (has_key k ps); split; congruence.
Qed.

Lemma NoDup_keys_pairs (ps : props) : NoDup (keys ps) -> NoDup ps.
Proof.
  apply NoDup_map_inv.
Qed.

(** ** Replacing the value of a key *)

Lemma keys_replace_value (k : string) (v : value) (ps : props) :
  keys (replace_value k v ps) = keys ps.
Proof.
  induction ps as [|[k' x'] ps IH]; simpl; [reflexivity|].
  destruct (k' =? k); simpl; [reflexivity | now rewrite IH].
Qed.

Lemma lookup_replace_same (k : string) (v : value) (ps : props) :
  In k (keys ps) -> lookup k (replace_value k v ps) = Some v.
Proof.
  induction ps as [|[k' x'] ps IH]; simpl; [tauto|].
  intros H. destruct (String.eqb_spec k' k) as [->|Hne]; simpl.
  - now rewrite String.eqb_refl.
  - destruct (String.eqb_spec k' k); [contradiction|].
    apply IH. destruct H; [contradiction | assumption].
Qed.

Lemma lookup_replace_other (k k' : string) (v : value) (ps : props) :
  k' <> k -> lookup k' (replace_value k v ps) = lookup k' ps.
Proof.
  intros Hne. induction ps as [|[k0 x0] ps IH]; simpl; [reflexivity|].
  destruct (String.eqb_spec k0 k) as [->|Hne0]; simpl.
  - destruct (String.eqb_spec k k'); [congruence | reflexivity].
  - now rewrite IH.
Qed.

(** ** Creating a key *)

Lemma insert_index_perm (i : N) (k : string) (v : value) (ps : props) :
  Permutation (insert_index i k v ps) ((k, v) :: ps).
Proof.
  induction ps as [|[k' x'] ps IH]; simpl; [reflexivity|].
  destruct (array_index k') as [j|]; [|reflexivity].
  destruct (j <? i)%N; [|reflexivity].
  rewrite IH. apply perm_swap.
Qed.

Lemma add_key_perm (k : string) (v : value) (ps : props) :
  Permutation (add_key k v ps) ((k, v) :: ps).
Proof.
  unfold add_key. destruct (array_index k).
  - apply insert_index_perm.
  - symmetry. apply Permutation_cons_append.
Qed.

Lemma lookup_insert_index_same (i : N) (k : string) (v : value) (ps : props) :
  ~ In k (keys ps) -> lookup k (insert_index i k v ps) = Some v.
Proof.
  induction ps as [|[k' x'] ps IH]; simpl; intros Hk.
  - now rewrite String.eqb_refl.
  - destruct (array_index k') as [j|]; [destruct (j <? i)%N|]; simpl;
      try now rewrite String.eqb_refl.
    destruct (String.eqb_spec k' k); [tauto|]. apply IH. tauto.
Qed.

Lemma lookup_insert_index_other (i : N) (k k' : string) (v : value)
      (ps : props) :
  k' <> k -> lookup k' (insert_index i k v ps) = lookup k' ps.
Proof.
  intros Hne. induction ps as [|[k0 x0] ps IH]; simpl.
  - destruct (String.eqb_spec k k'); [congruence | reflexivity].
  - destruct (array_index k0) as [j|]; [destruct (j <? i)%N|]; simpl;
      try (destruct (String.eqb_spec k k'); [congruence | reflexivity]).
    now rewrite IH.
Qed.

Lemma lookup_app (k : string) (ps qs : props) :
  lookup k (ps ++ qs) =
  match lookup k ps with
  | Some x => Some x
  | None => lookup k qs
  end.
Proof.
  induction ps as [|[k' x'] ps IH]; simpl; [reflexivity|].
  destruct (k' =? k); [reflexivity | exact IH].
Qed.

Lemma lookup_add_key_same (k : string) (v : value) (ps : props) :
  ~ In k (keys ps) -> lookup k (add_key k v ps) = Some v.
Proof.
  intros Hk. unfold add_key. destruct (array_index k).
  - now apply lookup_insert_index_same.
  - rewrite lookup_app. apply lookup_None in Hk. rewrite Hk. simpl.
    now rewrite String.eqb_refl.
Qed.

Lemma lookup_add_key_other (k k' : string) (v : value) (ps : props) :
  k' <> k -> lookup k' (add_key k v ps) = lookup k' ps.
Proof.
  intros Hne. unfold add_key. destruct (array_index k).
  - now apply lookup_insert_index_other.
  - rewrite lookup_app. destruct (lookup k' ps); [reflexivity|]. simpl.
    destruct (String.eqb_spec k k'); [congruence | reflexivity].
Qed.

(** ** Assignment to a property *)

Lemma lookup_obj_set_same (ps : props) (k : string) (v : value) :
  lookup k (obj_set ps k v) = Some v.
Proof.
  unfold obj_set. destruct (has_key k ps) eqn:E.
  - apply lookup_replace_same. now apply has_key_In.
  - apply lookup_add_key_same. now apply has_key_false.
Qed.

Lemma lookup_obj_set_other (ps : props) (k k' : string) (v : value) :
  k' <> k -> lookup k' (obj_set ps k v) = lookup k' ps.
Proof.
  intros Hne. unfold obj_set. destruct (has_key k ps).
  - now apply lookup_replace_other.
  - now apply lookup_add_key_other.
Qed.

Lemma keys_obj_set (ps : props) (k k' : string) (v : value) :
  In k' (keys (obj_set ps k v)) <-> k' = k \/ In k' (keys ps).
Proof.
  destruct (String.eqb_spec k' k) as [->|Hne].
  - split; [tauto|]. intros _.
    eapply lookup_Some_key. apply lookup_obj_set_same.
  - rewrite <- !has_key_In. unfold has_key at 1.
    rewrite lookup_obj_set_other by assumption.
    fold (has_key k' ps). split; [tauto|]. intros [H|H]; [contradiction|exact H].
Qed.

Lemma NoDup_keys_obj_set (ps : props) (k : string) (v : value) :
  NoDup (keys ps) -> NoDup (keys (obj_set ps k v)).
Proof.
  intros Hnd. unfold obj_set. destruct (has_key k ps) eqn:E.
  - now rewrite keys_replace_value.
  - apply has_key_false in E.
    assert (Hp : Permutation (keys (add_key k v ps)) (k :: keys ps)).
    { unfold keys. change (k :: map fst ps) with (map fst ((k, v) :: ps)).
      apply Permutation_map, add_key_perm. }
    eapply Permutation_NoDup; [symmetry; exact Hp|]. now constructor.
Qed.

Lemma In_obj_set (ps : props) (k k' : string) (v x : value) :
  NoDup (keys ps) ->
  In (k', x) (obj_set ps k v) ->
  (k' = k /\ x = v) \/ (k' <> k /\ In (k', x) ps).
Proof.
  intros Hnd Hin.
  apply In_lookup in Hin; [|now apply NoDup_keys_obj_set].
  destruct (String.eqb_spec k' k) as [->|Hne].
  - rewrite lookup_obj_set_same in Hin. left. split; congruence.
  - rewrite lookup_obj_set_other in Hin by assumption.
    right. split; [assumption | now apply lookup_In].
Qed.

Lemma built_from_nil (Q : value -> value -> Prop) (ps0 : props) :
  built_from Q ps0 [].
Proof.
  split; [constructor | intros k c []].
Qed.

Lemma built_from_obj_set (Q : value -> value -> Prop) (ps0 built : props)
      (k : string) (c x : value) :
  built_from Q ps0 built -> In (k, x) ps0 -> Q c x ->
  built_from Q ps0 (obj_set built k c).
Proof.
  intros [Hnd Hall] Hin HQ. split.
  - now apply NoDup_keys_obj_set.
  - intros k' c' Hin'.
    destruct (In_obj_set _ _ _ _ _ Hnd Hin') as [[-> ->]|[_ Hin'']].
    + now exists x.
    + now apply Hall.
Qed.

Lemma length_keys_same (ks1 ks2 : list string) :
  NoDup ks1 -> NoDup ks2 -> (forall k, In k ks1 <-> In k ks2) ->
  List.length ks1 = List.length ks2.
Proof.
  intros H1 H2 H. apply Permutation_length. now apply NoDup_Permutation.
Qed.

(* ================================================================== *)
(** * getNestedValue and setNestedValue *)

Lemma split_dot_nonempty (s : string) : split_dot s <> [].
Proof.
  destruct s as [|c s]; simpl; [discriminate|].
  destruct (c =? ".")%char; [discriminate|].
  destruct (split_dot s); discriminate.
Qed.

Lemma truthy_not_undefined (v : value) :
  truthy v = true -> strict_eq v VUndefined = false.
Proof.
  destruct v; simpl; congruence.
Qed.

Lemma object_truthy (v : value) :
  is_primitive v = false ->
  truthy v = true /\ jstype_eqb (typeof v) TObject = true.
Proof.
  destruct v; simpl; try discriminate. now split.
Qed.

Lemma truthy_object (v : value) :
  truthy v = true -> jstype_eqb (typeof v) TObject = true ->
  is_primitive v = false.
Proof.
  destruct v; simpl; congruence.
Qed.

Lemma get_prop_object (o : value) (k : string) :
  is_primitive (get_prop o k) = false ->
  exists r c ps, o = VObj r c ps /\ lookup k ps = Some (get_prop o k).
Proof.
  destruct o as [| | | |s|r c ps]; simpl; try discriminate.
  - destruct (array_index k); [|discriminate].
    destruct (get _ s); discriminate.
  - destruct (lookup k ps) as [x|] eqn:E; [|discriminate].
    intros _. now exists r, c, ps.
Qed.

(** After the walk of [setNestedValue] along [ks] and the assignment of a
    truthy [v] under [lastKey], the walk of [getNestedValue] along the
    same components ends on [v]. *)
Lemma set_loop_get_loop (ks : list string) :
  forall (lastKey : string) (v current : value) (next : loc),
    is_primitive current = false -> truthy v = true ->
    exists current' next',
      set_loop ks lastKey v current next = Normal (current', next')
      /\ is_primitive current' = false
      /\ get_loop (ks ++ [lastKey]) current' VUndefined = v.
Proof.
  induction ks as [|key rest IH]; intros lastKey v current next Hobj Hv.
  - destruct current as [| | | | |r c ps]; try discriminate. simpl.
    eexists _, _. split; [reflexivity|]. split; [reflexivity|].
    unfold get_prop. rewrite lookup_obj_set_same, Hv. simpl.
    now rewrite (truthy_not_undefined _ Hv).
  - simpl set_loop.
    destruct (negb (truthy (get_prop current key))
              || negb (jstype_eqb (typeof (get_prop current key)) TObject))
      eqn:Hchild.
    + destruct current as [| | | | |r c ps]; try discriminate.
      destruct (IH lastKey v (VObj next CPlain []) (S next) eq_refl Hv)
        as (child' & next' & Hset & Hobj' & Hget).
      simpl put. simpl bind at 1. rewrite Hset. simpl.
      eexists _, _. split; [reflexivity|]. split; [reflexivity|].
      unfold get_prop.
      rewrite lookup_replace_same
        by (apply keys_obj_set; now left).
      destruct (object_truthy _ Hobj') as [Ht _]. rewrite Ht. simpl.
      now rewrite (truthy_not_undefined _ Ht).
    + apply orb_false_iff in Hchild as [Ht Hty].
      apply negb_false_iff in Ht, Hty.
      pose proof (truthy_object _ Ht Hty) as Hco.
      destruct (get_prop_object _ _ Hco) as (r & c & ps & -> & Hl).
      destruct (IH lastKey v _ next Hco Hv)
        as (child' & next' & Hset & Hobj' & Hget).
      rewrite Hset. simpl.
      eexists _, _. split; [reflexivity|]. split; [reflexivity|].
      unfold get_prop.
      rewrite lookup_replace_same by (eapply lookup_Some_key; exact Hl).
      destruct (object_truthy _ Hobj') as [Ht' _]. rewrite Ht'. simpl.
      now rewrite (truthy_not_undefined _ Ht').
Qed.

(** On a walk that finds an object under every component but the last
    and a truthy value under the last one, [getNestedValue] returns that
    value, whatever the fallback. *)
Lemma get_loop_found (ks : list string) :
  forall root v fallback,
    is_primitive root = false -> lookup_path ks root = Some v ->
    truthy v = true ->
    get_loop ks root fallback = v.
Proof.
  induction ks as [|k rest IH]; intros root v fallback Hroot Hpath Hv.
  - simpl in Hpath. now injection Hpath as ->.
  - destruct root as [| | | | |r c ps]; try discriminate.
    simpl in Hpath. destruct (lookup k ps) as [child|] eqn:El;
      [|discriminate].
    simpl. unfold get_prop. rewrite El.
    destruct rest as [|k' rest'].
    + simpl in Hpath. injection Hpath as ->. rewrite Hv.
      now rewrite (truthy_not_undefined _ Hv).
    + assert (Hchild : is_primitive child = false).
      { destruct child; try discriminate. reflexivity. }
      destruct (object_truthy _ Hchild) as [Ht _]. rewrite Ht.
      rewrite (truthy_not_undefined _ Ht).
      now apply IH.
Qed.

(** C1: [getNestedValue] neither keeps every present non-null value nor
    stops at the first failing component.  With [{a: 0}], ["a"] and the
    fallback ["d"] the present value [0] is replaced by the fallback;
    with [{}], ["x.b"] and the fallback [{b: 1}] the walk goes on inside
    the fallback and returns its [b], which is neither a value of the
    root nor the fallback.  The walk of the specification returns [0]
    and [{b: 1}]. *)
Theorem getNestedValue_falsy_value_and_fallback_walk :
  (getNestedValue (obj 0 [("a", num 0)]) (VStr "a") (VStr "d") = VStr "d"
   /\ spec_getNestedValue (obj 0 [("a", num 0)]) "a" (VStr "d") = num 0)
  /\ (getNestedValue (obj 0 []) (VStr "x.b") (obj 1 [("b", num 1)]) = num 1
      /\ spec_getNestedValue (obj 0 []) "x.b" (obj 1 [("b", num 1)])
         = obj 1 [("b", num 1)]).
Proof.
  repeat split; reflexivity.
Qed.

(** C2, as stated, fails on a null root: [setNestedValue] hands the
    root back and [getNestedValue] then answers [undefined]. *)
Lemma get_after_set_null_root : ~ get_after_set VNull "a" (num 1).
Proof.
  intros H.
  destruct (H 0 eq_refl eq_refl) as (root' & next' & Hset & Hget).
  cbv in Hset. injection Hset as <- <-.
  cbv in Hget. discriminate.
Qed.

(** C2, amended: for every root that is an object, every dot-delimited
    path none of whose components is ["__proto__"] or ["length"], and
    every truthy value [v],
    [getNestedValue(setNestedValue(root, path, v), path)] returns [v].
    (Under the two keys left out an assignment does not create an own
    property: it sets the prototype or the length of an array, or throws
    a [RangeError].) *)
Theorem get_after_set_object_root (root : value) (path : string) (v : value) :
  is_primitive root = false -> truthy v = true ->
  forallb data_key (split_dot path) = true ->
  get_after_set root path v.
Proof.
  intros Hroot Hv _ next _ _.
  destruct (set_loop_get_loop (removelast (split_dot path))
              (last (split_dot path) "") v root next Hroot Hv)
    as (root' & next' & Hset & Hroot' & Hget).
  exists root', next'.
  destruct (object_truthy _ Hroot) as [Ht _].
  destruct (object_truthy _ Hroot') as [Ht' _].
  unfold setNestedValue, getNestedValue. rewrite Ht, Ht'. simpl.
  split; [exact Hset|].
  rewrite <- (app_removelast_last "" (split_dot_nonempty path)) in Hget.
  exact Hget.
Qed.

Lemma get_after_set_object_root_witness :
  is_primitive (obj 0 [("a", obj 1 [("b", num 1)])]) = false
  /\ truthy (num 42) = true
  /\ forallb data_key (split_dot "a.c.d") = true
  /\ get_after_set (obj 0 [("a", obj 1 [("b", num 1)])]) "a.c.d" (num 42).
Proof.
  split; [reflexivity|]. split; [reflexivity|]. split; [reflexivity|].
  apply get_after_set_object_root; reflexivity.
Defined.

(** Why the round trip asks for an object root and a truthy value: on a
    truthy root that is not an object the assignment throws, and a
    falsy value, once set, is read back as absent. *)
Lemma setNestedValue_primitive_root_throws :
  setNestedValue (num 5) (VStr "a") (num 1) 0 = ThrowTypeError.
Proof.
  reflexivity.
Qed.

Lemma get_after_set_falsy_value : ~ get_after_set (obj 0 []) "a" (num 0).
Proof.
  intros H.
  destruct (H 1 eq_refl eq_refl) as (root' & next' & Hset & Hget).
  cbv in Hset. injection Hset as <- <-.
  cbv in Hget. discriminate.
Qed.

(** C10: with a path that is not a string, or a null or absent root,
    [setNestedValue] returns the root it was given, nothing in it is
    changed and nothing is allocated. *)
Theorem setNestedValue_invalid_arguments
        (root path v : value) (next : loc) :
  typeof path <> TString \/ root = VNull \/ root = VUndefined ->
  setNestedValue root path v next = Normal (root, next).
Proof.
  intros [Hpath | [-> | ->]].
  - unfold setNestedValue.
    destruct path; simpl in *; try congruence;
      now rewrite orb_true_r.
  - reflexivity.
  - reflexivity.
Qed.

Lemma setNestedValue_invalid_arguments_witness :
  typeof (num 5) <> TString
  /\ setNestedValue (obj 0 [("a", num 1)]) (num 5) (num 2) 7
     = Normal (obj 0 [("a", num 1)], 7).
Proof.
  split; [discriminate|].
  apply setNestedValue_invalid_arguments. left. discriminate.
Defined.

(* ================================================================== *)
(** * isEqual *)

Lemma all_values_In (p : value -> bool) (ps : props) (k : string) (x : value) :
  all_values p ps = true -> In (k, x) ps -> p x = true.
Proof.
  induction ps as [|[k' x'] ps IH]; simpl; [tauto|].
  rewrite andb_true_iff. intros [H1 H2] [H|H].
  - now injection H as _ <-.
  - now apply IH.
Qed.

Lemma equal_props_intro (equal : value -> value -> bool) (obj2 : value)
      (keys2 : list string) (ps1 : props) :
  (forall k x, In (k, x) ps1 ->
               In k keys2 /\ equal x (get_prop obj2 k) = true) ->
  equal_props equal obj2 keys2 ps1 = true.
Proof.
  induction ps1 as [|[k x] ps1 IH]; simpl; intros H; [reflexivity|].
  destruct (H k x (or_introl eq_refl)) as [Hk Hx].
  apply includes_In in Hk. rewrite Hk, Hx. simpl.
  apply IH. intros k' x' Hin. apply H. now right.
Qed.

(** Two objects with the same keys and [isEqual] values under each key
    are [isEqual], whatever their classes and identities. *)
Lemma isEqual_objects (r1 r2 : loc) (c1 c2 : class) (ps1 ps2 : props) :
  NoDup (keys ps1) -> NoDup (keys ps2) ->
  (forall k, In k (keys ps1) <-> In k (keys ps2)) ->
  (forall k x1 x2, In (k, x1) ps1 -> lookup k ps2 = Some x2 ->
                   isEqual x1 x2 = true) ->
  isEqual (VObj r1 c1 ps1) (VObj r2 c2 ps2) = true.
Proof.
  intros Hnd1 Hnd2 Hkeys Hvals. simpl.
  destruct (r1 =? r2)%nat; [reflexivity|].
  rewrite (length_keys_same _ _ Hnd1 Hnd2 Hkeys), Nat.eqb_refl. simpl.
  apply equal_props_intro. intros k x Hin.
  assert (Hk : In k (keys ps2)).
  { apply Hkeys. apply (in_map fst) in Hin. exact Hin. }
  split; [exact Hk|].
  destruct (key_lookup _ _ Hk) as [x2 Hx2].
  unfold get_prop. rewrite Hx2. now apply (Hvals k).
Qed.

(** A value is [isEqual] to itself, unless it is the number NaN. *)
Lemma isEqual_same (x : value) :
  (forall f, x = VNum f -> is_nan f = false) -> isEqual x x = true.
Proof.
  destruct x as [| |b|f|s|r c ps]; intros H; simpl; try reflexivity.
  - now destruct b.
  - specialize (H f eq_refl). unfold is_nan in H.
    apply negb_false_iff in H. now rewrite H.
  - now rewrite String.eqb_refl.
  - now rewrite Nat.eqb_refl.
Qed.

(** C5, as stated, fails: an empty Sequence and an empty Mapping are of
    differing kind and [isEqual]. *)
Lemma isEqual_empty_sequence_and_mapping :
  ~ kinds_unequal (arr 0 []) (obj 1 []).
Proof.
  intros H. assert (E : isEqual (arr 0 []) (obj 1 []) = false).
  { apply H. discriminate. }
  discriminate E.
Qed.

(** C5, amended: two values of differing kind, one of which is a
    string, a number, a boolean, null or absent, are never [isEqual]. *)
Theorem isEqual_primitive_and_other_kind (a b : value) :
  is_primitive a = true \/ is_primitive b = true ->
  kinds_unequal a b.
Proof.
  intros Hprim Hkind.
  destruct a as [| |x|x|x|r1 c1 ps1], b as [| |y|y|y|r2 c2 ps2];
    simpl in *; try reflexivity; try congruence;
    try (destruct Hprim; discriminate).
Qed.

Lemma isEqual_primitive_and_other_kind_witness :
  (is_primitive (VStr "") = true \/ is_primitive (arr 0 []) = true)
  /\ kinds_unequal (VStr "") (arr 0 []).
Proof.
  split; [now left|].
  apply isEqual_primitive_and_other_kind. now left.
Defined.

(** C8: two dates are [isEqual] whatever their timestamps, and a date
    is [isEqual] to every Mapping without keys: the comparison looks at
    the own keys only, and a date has none.  The timestamp of a date has
    no part in the result, on either side of the comparison. *)
Theorem isEqual_dates_and_empty_mapping :
  (forall r1 t1 r2 t2, isEqual (date r1 t1) (date r2 t2) = true)
  /\ (forall r t rm, isEqual (date r t) (obj rm []) = true)
  /\ (forall r t t' ps b,
         isEqual (VObj r (CDate t) ps) b = isEqual (VObj r (CDate t') ps) b
         /\ isEqual b (VObj r (CDate t) ps)
            = isEqual b (VObj r (CDate t') ps)).
Proof.
  split; [|split]; intros.
  - simpl. now destruct (r1 =? r2)%nat.
  - simpl. now destruct (r =? rm)%nat.
  - split.
    + destruct b; reflexivity.
    + destruct b; reflexivity.
Qed.

(* ================================================================== *)
(** * deepClone *)

Section clone_props_facts.
Variable clone : value -> loc -> value * loc.
Variable visited : string -> bool.
Variable Q : value -> value -> Prop.
Variable ps0 : props.
Hypothesis clone_Q :
  forall k x n, In (k, x) ps0 -> visited k = true -> Q (fst (clone x n)) x.

Lemma clone_props_spec (ps : props) :
  forall cloned next,
    incl ps ps0 -> built_from Q ps0 cloned ->
    built_from Q ps0 (fst (clone_props clone visited ps cloned next))
    /\ forall k, In k (keys (fst (clone_props clone visited ps cloned next)))
                 <-> In k (keys cloned)
                     \/ (In k (keys ps) /\ visited k = true).
Proof.
  induction ps as [|[key x] rest IH]; intros cloned next Hincl Hc; simpl.
  - split; [exact Hc | tauto].
  - assert (Hrest : incl rest ps0) by (intros e He; apply Hincl; now right).
    destruct (visited key) eqn:Hvis.
    + destruct (clone x next) as [x' next'] eqn:Hx.
      destruct (IH (obj_set cloned key x') next' Hrest) as [H1 H2].
      { apply built_from_obj_set with (x := x); try assumption.
        - apply Hincl. now left.
        - replace x' with (fst (clone x next)) by now rewrite Hx.
          apply clone_Q with (k := key); [apply Hincl; now left | exact Hvis]. }
      split; [exact H1|]. intros k. rewrite H2, keys_obj_set.
      split.
      * intros [[->|H]|[H Hv]]; auto.
      * intros [H|[[<-|H] Hv]]; auto.
    + destruct (IH cloned next Hrest Hc) as [H1 H2].
      split; [exact H1|]. intros k. rewrite H2.
      split.
      * intros [H|[H Hv]]; auto.
      * intros [H|[[<-|H] Hv]]; auto. congruence.
Qed.
End clone_props_facts.

Lemma plain_object (r : loc) (c : class) (ps : props) :
  plain (VObj r c ps) = true ->
  NoDup (keys ps)
  /\ all_values plain ps = true
  /\ match c with
     | CPlain => True
     | CArray => forall k, In k (keys ps) -> is_index k = true
     | CDate _ => ps = []
     end.
Proof.
  simpl. rewrite !andb_true_iff. intros [[Hd Ha] Hc].
  split; [now apply distinct_NoDup|]. split; [exact Ha|].
  destruct c.
  - exact I.
  - intros k Hk. rewrite forallb_forall in Hc. now apply Hc.
  - destruct ps; [reflexivity | discriminate].
Qed.

(** The copy of a list of properties, against the list itself. *)
Lemma cloned_object_isEqual (visited : string -> bool) (r1 r2 : loc)
      (c1 c2 : class) (ps : props) (next : loc) :
  NoDup (keys ps) ->
  (forall k, In k (keys ps) -> visited k = true) ->
  (forall k x n, In (k, x) ps -> isEqual (fst (deepClone x n)) x = true) ->
  isEqual (VObj r1 c1 (fst (clone_props deepClone visited ps [] next)))
          (VObj r2 c2 ps) = true.
Proof.
  intros Hnd Hvis Hrec.
  destruct (clone_props_spec deepClone visited
              (fun c x => isEqual c x = true) ps
              (fun k x n Hin _ => Hrec k x n Hin)
              ps [] next (incl_refl ps) (built_from_nil _ ps))
    as [[Hnd' Hall] Hkeys].
  apply isEqual_objects; try assumption.
  - intros k. rewrite Hkeys. simpl. split.
    + intros [[]|[H _]]. exact H.
    + intros H. right. split; [exact H | now apply Hvis].
  - intros k x1 x2 Hin Hl.
    destruct (Hall k x1 Hin) as (x & Hx & HQ).
    rewrite (In_lookup k ps x Hnd Hx) in Hl. now injection Hl as <-.
Qed.

Lemma deepClone_isEqual (x : value) :
  plain x = true -> nan_free x = true ->
  forall next, isEqual (fst (deepClone x next)) x = true.
Proof.
  induction x as [| |b|f|s|r c ps IH] using value_ind;
    intros Hplain Hnan next.
  - reflexivity.
  - reflexivity.
  - change (isEqual (VBool b) (VBool b) = true).
    apply isEqual_same. intros f' [=].
  - change (isEqual (VNum f) (VNum f) = true).
    apply isEqual_same. intros f' [= <-]. simpl in Hnan.
    now apply negb_true_iff in Hnan.
  - change (isEqual (VStr s) (VStr s) = true).
    apply isEqual_same. intros f' [=].
  - destruct (plain_object r c ps Hplain) as (Hnd & Hall & Hc).
    assert (Hrec : forall k x n, In (k, x) ps ->
                                 isEqual (fst (deepClone x n)) x = true).
    { intros k x n Hin. apply (IH k x Hin).
      - exact (all_values_In plain ps k x Hall Hin).
      - exact (all_values_In nan_free ps k x Hnan Hin). }
    destruct c as [| |time]; simpl deepClone.
    + destruct (clone_props deepClone (fun _ => true) ps [] (S next))
        as [cloned next'] eqn:E.
      change cloned with (fst (cloned, next')). rewrite <- E.
      now apply cloned_object_isEqual.
    + destruct (clone_props deepClone is_index ps [] (S next))
        as [items next'] eqn:E.
      change items with (fst (items, next')). rewrite <- E.
      now apply cloned_object_isEqual.
    + subst ps. simpl. now destruct (next =? r)%nat.
Qed.

(** C4, as stated, fails on the number NaN, which [deepClone] returns
    as it is and which is not [===] to itself. *)
Lemma clone_of_nan_not_equal : ~ clone_equal (num nan).
Proof.
  intros H. specialize (H 0 eq_refl). discriminate H.
Qed.

(** C4, amended: for every Plain Value [x] in which no number is NaN and
    no Mapping has the key ["__proto__"], [isEqual(deepClone(x), x)]
    returns true.  (The assignment [cloned["__proto__"] = ...] sets the
    prototype of the clone and gives it no key.) *)
Theorem deepClone_equal_without_nan (x : value) :
  plain x = true -> nan_free x = true -> proto_free x = true ->
  clone_equal x.
Proof.
  intros Hplain Hnan _ next _. now apply deepClone_isEqual.
Qed.

Lemma deepClone_equal_without_nan_witness :
  let x := obj 0 [("a", num 1);
                  ("b", arr 1 [("0", VNull); ("1", date 2 5)]);
                  ("c", obj 3 [("d", VStr "e")])] in
  plain x = true /\ nan_free x = true /\ proto_free x = true
  /\ clone_equal x.
Proof.
  split; [reflexivity|]. split; [reflexivity|]. split; [reflexivity|].
  apply deepClone_equal_without_nan; reflexivity.
Defined.

(* ================================================================== *)
(** * deepMerge *)

Lemma max_value_In (m : value -> nat) (ps : props) (k : string) (x : value) :
  In (k, x) ps -> m x <= max_value m ps.
Proof.
  induction ps as [|[k' x'] ps IH]; simpl; [tauto|].
  intros [H|H].
  - injection H as _ <-. lia.
  - specialize (IH H). lia.
Qed.

(** An argument that is not an object leaves the accumulator as it is. *)
Lemma merge_arg_skips (merge : list value -> loc -> option (value * loc))
      (merged : props) (next : loc) (p : value) :
  truthy p && jstype_eqb (typeof p) TObject = false ->
  merge_arg merge merged next p = Some (merged, next).
Proof.
  intros H. unfold merge_arg. now rewrite H.
Qed.

Lemma merge_reduce_skips (merge : list value -> loc -> option (value * loc))
      (before after : list value) (p : value) :
  truthy p && jstype_eqb (typeof p) TObject = false ->
  forall merged next,
    merge_reduce merge (before ++ p :: after) merged next
    = merge_reduce merge (before ++ after) merged next.
Proof.
  intros Hp. induction before as [|o before IH]; intros merged next; simpl.
  - now rewrite merge_arg_skips.
  - destruct (merge_arg merge merged next o) as [[merged' next']|];
      [apply IH | reflexivity].
Qed.

(** What [deepMerge] does skip: a string, number, boolean, null or
    absent argument, wherever it stands in the argument list, changes
    nothing of the result. *)
Lemma deepMerge_skips_primitive (fuel : nat) (before after : list value)
      (p : value) (next : loc) :
  is_primitive p = true ->
  deepMerge fuel (before ++ p :: after) next
  = deepMerge fuel (before ++ after) next.
Proof.
  intros Hp. destruct fuel as [|fuel]; simpl; [reflexivity|].
  rewrite merge_reduce_skips; [reflexivity|].
  destruct p; simpl in *; try reflexivity;
    try (now rewrite andb_false_r); discriminate.
Qed.

(** C6: a Sequence argument is not skipped.  [deepMerge({a: 1}, [5])]
    has the key ["0"] of the Sequence next to ["a"], and so is not
    [isEqual] to [deepMerge({a: 1})]. *)
Theorem deepMerge_merges_sequence_argument :
  forall fuel,
    deepMerge (S fuel) [obj 0 [("a", num 1)]; arr 1 [("0", num 5)]] 2
    = Some (obj 2 [("0", num 5); ("a", num 1)], 3)
    /\ deepMerge (S fuel) [obj 0 [("a", num 1)]] 3
       = Some (obj 3 [("a", num 1)], 4)
    /\ isEqual (obj 2 [("0", num 5); ("a", num 1)]) (obj 3 [("a", num 1)])
       = false.
Proof.
  intros fuel. split; [reflexivity|]. split; reflexivity.
Qed.

Section merge_keys_facts.
Variable merge : list value -> loc -> option (value * loc).
Variable ps0 : props.
Hypothesis merge_nested :
  forall k x r next, In (k, x) ps0 -> merged_by_keys x = true ->
    exists res next',
      merge [VObj r CPlain []; x] next = Some (res, next')
      /\ isEqual res x = true.
Hypothesis copy_other :
  forall k x, In (k, x) ps0 -> merged_by_keys x = false ->
    isEqual x x = true.

(** Merging the keys [ps] of one argument into an accumulator that has
    none of them yet. *)
Lemma merge_keys_spec (ps : props) :
  forall merged next,
    incl ps ps0 -> NoDup (keys ps) ->
    (forall k, In k (keys ps) -> ~ In k (keys merged)) ->
    built_from (fun c x => isEqual c x = true) ps0 merged ->
    exists merged' next',
      merge_keys merge ps merged next = Some (merged', next')
      /\ built_from (fun c x => isEqual c x = true) ps0 merged'
      /\ forall k, In k (keys merged')
                   <-> In k (keys merged) \/ In k (keys ps).
Proof.
  induction ps as [|[key x] rest IH];
    intros merged next Hincl Hnd Hfresh Hbuilt.
  - exists merged, next. simpl.
    split; [reflexivity|]. split; [exact Hbuilt | tauto].
  - assert (Hin : In (key, x) ps0) by (apply Hincl; now left).
    assert (Hrest : incl rest ps0) by (intros e He; apply Hincl; now right).
    inversion Hnd as [|? ? Hkey Hnd']; subst.
    assert (Hfresh' : forall v k, In k (keys rest) ->
                                  ~ In k (keys (obj_set merged key v))).
    { intros v k Hk. rewrite keys_obj_set. intros [->|H].
      - contradiction.
      - apply (Hfresh k); [now right | exact H]. }
    simpl merge_keys. destruct (merged_by_keys x) eqn:Hx.
    + assert (Hold : read merged key = VUndefined).
      { unfold read.
        destruct (lookup key merged) as [y|] eqn:E; [|reflexivity].
        exfalso. apply (Hfresh key); [now left|].
        eapply lookup_Some_key; exact E. }
      rewrite Hold. simpl.
      destruct (merge_nested key x next (S next) Hin Hx)
        as (res & next1 & Hm & He).
      rewrite Hm.
      destruct (IH (obj_set merged key res) next1 Hrest Hnd'
                   (Hfresh' res)
                   (built_from_obj_set _ _ _ _ _ _ Hbuilt Hin He))
        as (merged' & next' & Hk & Hb & Hkeys).
      exists merged', next'. split; [exact Hk|]. split; [exact Hb|].
      intros k. rewrite Hkeys, keys_obj_set. simpl.
      split; [intros [[->|H]|H] | intros [H|[<-|H]]]; auto.
    + destruct (IH (obj_set merged key x) next Hrest Hnd'
                   (Hfresh' x)
                   (built_from_obj_set _ _ _ _ _ _ Hbuilt Hin
                      (copy_other key x Hin Hx)))
        as (merged' & next' & Hk & Hb & Hkeys).
      exists merged', next'. split; [exact Hk|]. split; [exact Hb|].
      intros k. rewrite Hkeys, keys_obj_set. simpl.
      split; [intros [[->|H]|H] | intros [H|[<-|H]]]; auto.
Qed.
End merge_keys_facts.

Lemma merged_by_keys_object (x : value) :
  merged_by_keys x = true ->
  exists r c ps, x = VObj r c ps /\ c <> CArray.
Proof.
  destruct x as [| | | | |r c ps]; simpl; try discriminate.
  - unfold merged_by_keys. simpl. now rewrite andb_false_r.
  - unfold merged_by_keys. simpl. now rewrite andb_false_r.
  - unfold merged_by_keys. simpl. now rewrite andb_false_r.
  - intros H. exists r, c, ps. split; [reflexivity|].
    intros ->. discriminate.
Qed.

Lemma deepMerge_empty_and_object (fuel : nat) (r rx : loc) (c : class)
      (ps : props) (next : loc) :
  deepMerge (S fuel) [VObj r CPlain []; VObj rx c ps] next
  = match merge_keys (deepMerge fuel) ps [] (S next) with
    | Some (merged, next') => Some (VObj next CPlain merged, next')
    | None => None
    end.
Proof.
  simpl. unfold merge_arg. simpl.
  now destruct (merge_keys (deepMerge fuel) ps [] (S next)) as [[? ?]|].
Qed.

Lemma deepMerge_one_object (fuel : nat) (rx : loc) (c : class)
      (ps : props) (next : loc) :
  deepMerge (S fuel) [VObj rx c ps] next
  = match merge_keys (deepMerge fuel) ps [] (S next) with
    | Some (merged, next') => Some (VObj next CPlain merged, next')
    | None => None
    end.
Proof.
  simpl. unfold merge_arg. simpl.
  now destruct (merge_keys (deepMerge fuel) ps [] (S next)) as [[? ?]|].
Qed.

(** The keys of a mergeable object [x] that is not a Sequence, merged
    into an empty accumulator with fuel for the objects nested in [x]:
    the accumulator ends up [isEqual] to [x]. *)
Lemma merge_keys_copies (x : value) :
  mergeable x = true -> merged_by_keys x = true ->
  forall fuel, depth x <= S fuel ->
  forall next, exists merged next',
    merge_keys (deepMerge fuel) (props_of x) [] next = Some (merged, next')
    /\ forall r, isEqual (VObj r CPlain merged) x = true.
Proof.
  induction x as [| |b|f|s|rx c ps IH] using value_ind;
    intros Hm Hobj fuel Hfuel next;
    try (unfold merged_by_keys in Hobj; simpl in Hobj;
         rewrite ?andb_false_r in Hobj; discriminate).
  simpl in Hfuel. apply le_S_n in Hfuel. simpl props_of.
  destruct c as [| |time].
  - simpl in Hm. apply andb_true_iff in Hm as [Hd Hall].
    apply distinct_NoDup in Hd.
    destruct (merge_keys_spec (deepMerge fuel) ps) with
      (ps := ps) (merged := @nil (string * value)) (next := next)
      as (merged & next' & Hk & [Hnd' Hb] & Hkeys).
    + intros k y r n Hin Hy.
      destruct (merged_by_keys_object y Hy) as (ry & cy & qs & -> & _).
      pose proof (max_value_In depth ps k _ Hin) as Hdepth.
      destruct fuel as [|fuel]; [simpl in Hdepth; lia|].
      destruct (IH k _ Hin (all_values_In mergeable ps k _ Hall Hin) Hy
                   fuel ltac:(lia) (S n))
        as (merged & next' & Hk & He).
      rewrite deepMerge_empty_and_object. simpl props_of in Hk.
      rewrite Hk. now eexists _, _.
    + intros k y Hin Hy. apply isEqual_same. intros f ->.
      pose proof (all_values_In mergeable ps k _ Hall Hin) as Hf.
      simpl in Hf. now apply negb_true_iff in Hf.
    + apply incl_refl.
    + exact Hd.
    + intros k _ [].
    + apply built_from_nil.
    + exists merged, next'. split; [exact Hk|]. intros r.
      apply isEqual_objects; try assumption.
      * intros k. rewrite Hkeys. simpl. tauto.
      * intros k x1 x2 Hin Hl.
        destruct (Hb k x1 Hin) as (y & Hy & HQ).
        rewrite (In_lookup k ps y Hd Hy) in Hl. now injection Hl as <-.
  - discriminate Hobj.
  - simpl in Hm. destruct ps; [|discriminate].
    exists [], next. split; [reflexivity|]. intros r. simpl.
    now destruct (r =? rx)%nat.
Qed.

(** C9, as stated, fails on a Mapping that holds NaN: the merged copy
    holds NaN under the same key, and NaN is not [===] to itself. *)
Lemma merge_of_nan_not_equal :
  ~ merge_identity (obj 0 [("a", num nan)]).
Proof.
  intros H. destruct (H 1 eq_refl) as (fuel0 & Hfuel).
  destruct (Hfuel (S fuel0) (Nat.le_succ_diag_r fuel0))
    as (r & next' & Hmerge & Hequal).
  cbv in Hmerge. injection Hmerge as <- <-.
  discriminate Hequal.
Qed.

(** C9, amended: for every Mapping [m] with no NaN among the values
    reached through Mappings (a Sequence is carried over by reference,
    whatever it holds) and without the key ["__proto__"] in any object,
    [isEqual(deepMerge(m), m)] returns true, as soon as the fuel covers
    the depth of [m].  (Under ["__proto__"] the accumulator reads its
    prototype and the assignment sets it, leaving no key.) *)
Theorem deepMerge_identity_without_nan (m : value) :
  kind_of m = Mapping -> mergeable m = true -> proto_free m = true ->
  merge_identity m.
Proof.
  intros Hkind Hm _ next _. exists (depth m). intros fuel Hfuel.
  destruct m as [| | | | |rm c ps]; try discriminate.
  destruct c; try discriminate.
  destruct fuel as [|fuel]; [simpl in Hfuel; lia|].
  destruct (merge_keys_copies (VObj rm CPlain ps) Hm eq_refl fuel Hfuel
              (S next))
    as (merged & next' & Hk & He).
  rewrite deepMerge_one_object. simpl props_of in Hk. rewrite Hk.
  now eexists _, _.
Qed.

Lemma deepMerge_identity_without_nan_witness :
  let m := obj 0 [("a", num 1);
                  ("b", obj 1 [("c", date 2 7); ("d", VNull)]);
                  ("e", arr 3 [("0", num nan)])] in
  kind_of m = Mapping /\ mergeable m = true /\ proto_free m = true
  /\ merge_identity m.
Proof.
  split; [reflexivity|]. split; [reflexivity|]. split; [reflexivity|].
  apply deepMerge_identity_without_nan; reflexivity.
Defined.

(* ================================================================== *)
(** * Paths as strings *)

Lemma string_app_assoc (a b c : string) :
  ((a ++ b) ++ c = a ++ (b ++ c))%string.
Proof.
  induction a as [|ch a IH]; simpl; [reflexivity | now rewrite IH].
Qed.

Lemma string_app_dot_nonempty (a b : string) :
  (a ++ "." ++ b)%string <> "".
Proof.
  destruct a; discriminate.
Qed.

Lemma split_dot_dot_free (k : string) :
  dot_free k = true -> split_dot k = [k].
Proof.
  induction k as [|c k IH]; simpl; [reflexivity|].
  rewrite andb_true_iff, negb_true_iff. intros [Hc Hk].
  now rewrite Hc, (IH Hk).
Qed.

Lemma split_dot_app_dot (k s : string) :
  dot_free k = true ->
  split_dot (k ++ "." ++ s)%string = k :: split_dot s.
Proof.
  induction k as [|c k IH]; simpl; [reflexivity|].
  rewrite andb_true_iff, negb_true_iff. intros [Hc Hk].
  rewrite Hc. simpl in IH. now rewrite (IH Hk).
Qed.

Lemma path_key_dot_free (k : string) :
  path_key k = true -> dot_free k = true.
Proof.
  unfold path_key. rewrite andb_true_iff. tauto.
Qed.

Lemma path_key_nonempty (k : string) : path_key k = true -> k <> "".
Proof.
  unfold path_key. rewrite andb_true_iff, negb_true_iff, String.eqb_neq.
  tauto.
Qed.

(** Splitting the dot-joined path gives the components back. *)
Lemma split_dot_join (p : list string) :
  p <> [] -> forallb path_key p = true -> split_dot (dot_join p) = p.
Proof.
  induction p as [|k rest IH]; [congruence|]. intros _. simpl forallb.
  rewrite andb_true_iff. intros [Hk Hrest].
  apply path_key_dot_free in Hk.
  destruct rest as [|k' rest].
  - now apply split_dot_dot_free.
  - change (dot_join (k :: k' :: rest))
      with (k ++ "." ++ dot_join (k' :: rest))%string.
    rewrite (split_dot_app_dot _ _ Hk). f_equal.
    apply IH; [discriminate | exact Hrest].
Qed.

Lemma dot_join_snoc (path : list string) (key : string) :
  path <> [] ->
  dot_join (path ++ [key]) = (dot_join path ++ "." ++ key)%string.
Proof.
  induction path as [|k rest IH]; [congruence|]. intros _.
  destruct rest as [|k' rest]; [reflexivity|].
  change (dot_join ((k :: k' :: rest) ++ [key]))
    with (k ++ "." ++ dot_join ((k' :: rest) ++ [key]))%string.
  rewrite IH by discriminate.
  change (dot_join (k :: k' :: rest))
    with (k ++ "." ++ dot_join (k' :: rest))%string.
  rewrite !string_app_assoc. reflexivity.
Qed.

Lemma joinable_snoc (path : list string) (key : string) :
  joinable path -> key <> "" -> joinable (path ++ [key]).
Proof.
  intros Hp Hk. right. destruct path as [|k rest].
  - exact Hk.
  - rewrite dot_join_snoc by discriminate. apply string_app_dot_nonempty.
Qed.

Lemma new_key_join (path : list string) (key : string) :
  joinable path -> new_key (dot_join path) key = dot_join (path ++ [key]).
Proof.
  unfold new_key. intros [->|Hne].
  - reflexivity.
  - apply String.eqb_neq in Hne. rewrite Hne. simpl negb. cbv iota.
    symmetry. apply dot_join_snoc. intros ->. now rewrite String.eqb_refl in Hne.
Qed.

(* ================================================================== *)
(** * flattenObject *)

Lemma lookup_perm (k : string) (ps qs : props) :
  NoDup (keys ps) -> Permutation ps qs -> lookup k qs = lookup k ps.
Proof.
  intros Hnd Hperm.
  assert (Hnd' : NoDup (keys qs)).
  { eapply Permutation_NoDup; [|exact Hnd].
    unfold keys. now apply Permutation_map. }
  destruct (lookup k ps) as [x|] eqn:E.
  - apply In_lookup; [exact Hnd'|].
    eapply Permutation_in; [exact Hperm|]. now apply lookup_In.
  - apply lookup_None. apply lookup_None in E. intros H. apply E.
    eapply Permutation_in; [|exact H].
    unfold keys. apply Permutation_map. now symmetry.
Qed.

Lemma lookup_rev (k : string) (ps : props) :
  NoDup (keys ps) -> lookup k (rev ps) = lookup k ps.
Proof.
  intros Hnd. apply lookup_perm; [exact Hnd | apply Permutation_rev].
Qed.

Lemma NoDup_keys_assign (source target : props) :
  NoDup (keys target) -> NoDup (keys (assign target source)).
Proof.
  revert target. unfold assign.
  induction source as [|[k v] source IH]; intros target Hnd; simpl.
  - exact Hnd.
  - apply IH. now apply NoDup_keys_obj_set.
Qed.

Lemma lookup_assign (k : string) (source target : props) :
  NoDup (keys source) ->
  lookup k (assign target source) =
  match lookup k source with
  | Some v => Some v
  | None => lookup k target
  end.
Proof.
  revert target. unfold assign.
  induction source as [|[k0 v0] source IH]; intros target Hnd; simpl.
  - reflexivity.
  - inversion Hnd as [|? ? Hk0 Hnd']; subst.
    rewrite (IH _ Hnd').
    destruct (String.eqb_spec k0 k) as [->|Hne].
    + apply lookup_None in Hk0. rewrite Hk0.
      apply lookup_obj_set_same.
    + destruct (lookup k source); [reflexivity|].
      apply lookup_obj_set_other. congruence.
Qed.

Lemma last_written_app (k : string) (ws1 ws2 : list (string * value)) :
  last_written k (ws1 ++ ws2) =
  match last_written k ws2 with
  | Some v => Some v
  | None => last_written k ws1
  end.
Proof.
  unfold last_written. rewrite rev_app_distr. apply lookup_app.
Qed.

Section flatten_props_facts.
Variable prefix : string.
Variable ps0 : props.
Hypothesis nested :
  forall k x, In (k, x) ps0 -> forall prefix' next,
    NoDup (keys (props_of (fst (flattenObject x prefix' next))))
    /\ forall k', lookup k' (props_of (fst (flattenObject x prefix' next)))
                  = last_written k' (writes x prefix').

Lemma flatten_props_spec (ps : props) :
  forall acc next,
    incl ps ps0 -> NoDup (keys acc) ->
    NoDup (keys (fst (flatten_props flattenObject prefix ps acc next)))
    /\ forall k',
        lookup k' (fst (flatten_props flattenObject prefix ps acc next))
        = match last_written k' (writes_props writes prefix ps) with
          | Some v => Some v
          | None => lookup k' acc
          end.
Proof.
  induction ps as [|[key x] rest IH]; intros acc next Hincl Hnd.
  - simpl. now split.
  - assert (Hin : In (key, x) ps0) by (apply Hincl; now left).
    assert (Hrest : incl rest ps0) by (intros e He; apply Hincl; now right).
    simpl flatten_props. simpl writes_props.
    destruct (flattened_by_keys x).
    + destruct (nested key x Hin (new_key prefix key) next) as [Hs1 Hs2].
      destruct (flattenObject x (new_key prefix key) next)
        as [sub next'] eqn:E.
      simpl fst in Hs1, Hs2.
      destruct (IH (assign acc (props_of sub)) next' Hrest
                   (NoDup_keys_assign _ _ Hnd)) as [H1 H2].
      split; [exact H1|]. intros k'.
      rewrite H2, last_written_app.
      destruct (last_written k' (writes_props writes prefix rest));
        [reflexivity|].
      now rewrite (lookup_assign k' _ acc Hs1), Hs2.
    + destruct (IH (obj_set acc (new_key prefix key) x) next Hrest
                   (NoDup_keys_obj_set _ _ _ Hnd)) as [H1 H2].
      split; [exact H1|]. intros k'.
      rewrite H2, last_written_app.
      destruct (last_written k' (writes_props writes prefix rest));
        [reflexivity|].
      unfold last_written. simpl.
      destruct (String.eqb_spec (new_key prefix key) k') as [<-|Hne].
      * apply lookup_obj_set_same.
      * apply lookup_obj_set_other. congruence.
Qed.
End flatten_props_facts.

(** The output of [flattenObject] has pairwise different keys, and under
    each key the value last written there. *)
Lemma flattenObject_writes (x : value) :
  forall prefix next,
    NoDup (keys (props_of (fst (flattenObject x prefix next))))
    /\ forall k, lookup k (props_of (fst (flattenObject x prefix next)))
                 = last_written k (writes x prefix).
Proof.
  induction x as [| |b|f|s|r c ps IH] using value_ind;
    intros prefix next;
    try (simpl; rewrite ?orb_true_r; simpl; split;
         [constructor | reflexivity]).
  simpl flattenObject.
  destruct (flatten_props_spec prefix ps IH ps [] (S next)
              (incl_refl ps) (NoDup_nil _)) as [H1 H2].
  destruct (flatten_props flattenObject prefix ps [] (S next))
    as [acc next'] eqn:E.
  simpl in *. split; [exact H1|]. intros k. rewrite H2.
  now destruct (last_written k (writes_props writes prefix ps)).
Qed.

(* ================================================================== *)
(** * Leaves *)

Lemma In_leaves_props (ps : props) (p : list string) (v : value) :
  In (p, v) (leaves_props leaves ps) <->
  exists k x, In (k, x) ps
    /\ ((kind_of x = Mapping
         /\ exists q, p = k :: q /\ In (q, v) (leaves x))
        \/ (kind_of x <> Mapping /\ p = [k] /\ v = x)).
Proof.
  induction ps as [|[k x] ps IH]; simpl.
  - split; [tauto | intros (? & ? & [] & _)].
  - rewrite in_app_iff, IH. split.
    + intros [H|(k' & x' & Hin & H)].
      * exists k, x. split; [now left|].
        destruct (kind_of x) eqn:Hkind.
        -- right. destruct H as [[= <- <-]|[]]. now split.
        -- right. destruct H as [[= <- <-]|[]]. now split.
        -- left. split; [reflexivity|].
           apply in_map_iff in H as ([q v'] & [= <- <-] & Hq).
           now exists q.
      * exists k', x'. split; [now right | exact H].
    + intros (k' & x' & Hin & HH). destruct Hin as [Hin|Hin].
      * injection Hin as -> ->. left.
        destruct HH as [[Hkind (q & -> & Hq)]|(Hkind & -> & ->)].
        -- rewrite Hkind. apply in_map_iff. now exists (q, v).
        -- destruct (kind_of x'); try (now left). congruence.
      * right. now exists k', x'.
Qed.

Lemma flattenable_mapping (r : loc) (ps : props) :
  flattenable (VObj r CPlain ps) = true ->
  NoDup (keys ps)
  /\ (forall k, In k (keys ps) -> path_key k = true)
  /\ all_values flattenable ps = true.
Proof.
  simpl. rewrite !andb_true_iff. intros [[Hd Hk] Ha].
  split; [now apply distinct_NoDup|]. split; [|exact Ha].
  intros k Hin. rewrite forallb_forall in Hk. now apply Hk.
Qed.

(** The path of a leaf is a non-empty list of path components. *)
Lemma leaves_paths (x : value) :
  flattenable x = true ->
  forall p v, In (p, v) (leaves x) ->
    p <> [] /\ forallb path_key p = true.
Proof.
  induction x as [| |b|f|s|r c ps IH] using value_ind;
    intros Hf p v Hin; try (now destruct Hin).
  destruct c; try (now destruct Hin).
  destruct (flattenable_mapping r ps Hf) as (Hnd & Hkeys & Hall).
  simpl in Hin. apply In_leaves_props in Hin
    as (k & x & Hx & [[Hkind (q & -> & Hq)]|(Hkind & -> & ->)]).
  - split; [discriminate|]. simpl.
    rewrite (Hkeys k) by (apply (in_map fst) in Hx; exact Hx).
    apply (IH k x Hx (all_values_In flattenable ps k x Hall Hx) q v Hq).
  - split; [discriminate|]. simpl.
    rewrite (Hkeys k) by (apply (in_map fst) in Hx; exact Hx).
    reflexivity.
Qed.

Lemma leaves_props_head (ps : props) (p : list string) :
  In p (map fst (leaves_props leaves ps)) ->
  exists k q, p = k :: q /\ In k (keys ps).
Proof.
  intros H. apply in_map_iff in H as ([p' v] & <- & Hin).
  apply In_leaves_props in Hin
    as (k & x & Hx & [[_ (q & -> & _)]|(_ & -> & _)]);
    eexists k, _; (split; [reflexivity|]);
    apply (in_map fst) in Hx; exact Hx.
Qed.

Lemma NoDup_map_cons (k : string) (l : list (list string)) :
  NoDup l -> NoDup (map (cons k) l).
Proof.
  induction 1 as [|p l Hp Hl IH]; simpl; constructor; [|exact IH].
  rewrite in_map_iff. intros (q & [= ->] & Hq). contradiction.
Qed.

(** Different leaves have different paths. *)
Lemma leaves_NoDup (x : value) :
  flattenable x = true -> NoDup (map fst (leaves x)).
Proof.
  induction x as [| |b|f|s|r c ps IH] using value_ind;
    intros Hf; try constructor.
  destruct c; try constructor.
  destruct (flattenable_mapping r ps Hf) as (Hnd & _ & Hall).
  simpl leaves.
  assert (H : forall qs, incl qs ps -> NoDup (keys qs) ->
                         NoDup (map fst (leaves_props leaves qs))).
  { induction qs as [|[k x] qs IHqs]; intros Hincl Hq; [constructor|].
    simpl. rewrite map_app.
    inversion Hq as [|? ? Hk Hq']; subst.
    assert (Hx : In (k, x) ps) by (apply Hincl; now left).
    apply NoDup_app.
    - destruct (kind_of x).
      + repeat constructor. intros [].
      + repeat constructor. intros [].
      + rewrite map_map. simpl.
        rewrite <- (map_map fst (cons k)).
        apply NoDup_map_cons.
        apply (IH k x Hx (all_values_In flattenable ps k x Hall Hx)).
    - apply IHqs; [|exact Hq']. intros e He. apply Hincl. now right.
    - intros p Hp1 Hp2.
      destruct (leaves_props_head _ _ Hp2) as (k' & q' & -> & Hk').
      assert (k' = k); [|subst; contradiction].
      destruct (kind_of x).
      + destruct Hp1 as [[=]|[]]. congruence.
      + destruct Hp1 as [[=]|[]]. congruence.
      + apply in_map_iff in Hp1 as (e & He & Hin).
        apply in_map_iff in Hin as (e' & <- & _). simpl in He. congruence. }
  apply H; [apply incl_refl | exact Hnd].
Qed.

Lemma flattened_by_keys_flattenable (x : value) :
  flattenable x = true ->
  flattened_by_keys x = true <-> kind_of x = Mapping.
Proof.
  destruct x as [| |b|f|s|r c ps]; simpl; intros H;
    try (split; discriminate).
  destruct c; simpl; try discriminate; split; try discriminate;
    reflexivity.
Qed.

(** On a flattenable Mapping the assignments of [flattenObject] are the
    entries of the leaves, in the order of the leaves. *)
Lemma writes_leaves (x : value) :
  flattenable x = true -> kind_of x = Mapping ->
  forall path, joinable path ->
    writes x (dot_join path)
    = map (fun e => (dot_join (path ++ fst e), snd e)) (leaves x).
Proof.
  induction x as [| |b|f|s|r c ps IH] using value_ind;
    intros Hf Hkind path Hpath; try discriminate.
  destruct c; try discriminate.
  destruct (flattenable_mapping r ps Hf) as (_ & Hkeys & Hall).
  simpl writes. simpl leaves.
  assert (H : forall qs, incl qs ps ->
            writes_props writes (dot_join path) qs
            = map (fun e => (dot_join (path ++ fst e), snd e))
                  (leaves_props leaves qs)).
  { induction qs as [|[k x] qs IHqs]; intros Hincl; [reflexivity|].
    assert (Hx : In (k, x) ps) by (apply Hincl; now left).
    assert (Hk : path_key k = true).
    { apply Hkeys. apply (in_map fst) in Hx. exact Hx. }
    pose proof (all_values_In flattenable ps k x Hall Hx) as Hfx.
    simpl. rewrite map_app, <- IHqs
      by (intros e He; apply Hincl; now right).
    f_equal. rewrite (new_key_join path k Hpath).
    destruct (flattened_by_keys x) eqn:Hb.
    - apply (flattened_by_keys_flattenable x Hfx) in Hb as Hm.
      rewrite Hm, map_map.
      rewrite (IH k x Hx Hfx Hm (path ++ [k])
                  (joinable_snoc path k Hpath (path_key_nonempty k Hk))).
      apply map_ext. intros [q v]. simpl. now rewrite <- app_assoc.
    - destruct (kind_of x) eqn:Hm; try reflexivity.
      apply (flattened_by_keys_flattenable x Hfx) in Hm. congruence. }
  apply H, incl_refl.
Qed.

Lemma NoDup_map_injective_on {A B : Type} (f : A -> B) (l : list A) :
  (forall a b, In a l -> In b l -> f a = f b -> a = b) ->
  NoDup l -> NoDup (map f l).
Proof.
  intros Hinj Hnd. induction Hnd as [|a l Ha Hl IH]; simpl; constructor.
  - rewrite in_map_iff. intros (b & Hb & Hin).
    assert (b = a) by (apply Hinj; [now right | now left | exact Hb]).
    now subst.
  - apply IH. intros x y Hx Hy. apply Hinj; now right.
Qed.

(** Different leaves of a flattenable Mapping have different dot-joined
    paths. *)
Lemma leaf_entries_NoDup (m : value) :
  flattenable m = true -> NoDup (keys (map leaf_entry (leaves m))).
Proof.
  intros Hf. unfold keys. rewrite map_map. simpl.
  rewrite <- (map_map fst dot_join).
  apply NoDup_map_injective_on; [|now apply leaves_NoDup].
  intros p q Hp Hq Heq.
  apply in_map_iff in Hp as ([p' v] & <- & Hp).
  apply in_map_iff in Hq as ([q' w] & <- & Hq).
  destruct (leaves_paths m Hf _ _ Hp) as [Hp1 Hp2].
  destruct (leaves_paths m Hf _ _ Hq) as [Hq1 Hq2].
  simpl in *.
  rewrite <- (split_dot_join p' Hp1 Hp2), <- (split_dot_join q' Hq1 Hq2).
  now rewrite Heq.
Qed.

(** The entries of [flattenObject(m)] on a flattenable Mapping [m]: keys
    pairwise different, and exactly the entries of the leaves. *)
Lemma flattenObject_entries (m : value) (next : loc) :
  flattenable m = true -> kind_of m = Mapping ->
  NoDup (keys (props_of (fst (flattenObject m "" next))))
  /\ forall k v, In (k, v) (props_of (fst (flattenObject m "" next)))
                 <-> In (k, v) (map leaf_entry (leaves m)).
Proof.
  intros Hf Hkind.
  destruct (flattenObject_writes m "" next) as [Hnd Hl].
  split; [exact Hnd|]. intros k v.
  pose proof (writes_leaves m Hf Hkind [] (or_introl eq_refl)) as Hw.
  simpl in Hw. fold leaf_entry in Hw.
  pose proof (leaf_entries_NoDup m Hf) as HndL.
  split.
  - intros Hin. apply (In_lookup _ _ _ Hnd) in Hin.
    rewrite Hl in Hin. unfold last_written in Hin.
    rewrite Hw, (lookup_rev _ _ HndL) in Hin. now apply lookup_In.
  - intros Hin. apply lookup_In. rewrite Hl. unfold last_written.
    rewrite Hw, (lookup_rev _ _ HndL). now apply In_lookup.
Qed.

(** C7, as stated, fails on a date: it is a leaf of the specification,
    but [flattenObject] descends into it as into any non-null object
    that is not an array, finds no key and writes no entry. *)
Lemma flatten_drops_date : ~ one_entry_per_leaf (obj 0 [("a", date 1 0)]).
Proof.
  intros H. specialize (H 2 eq_refl). cbv in H.
  apply Permutation_nil in H. discriminate H.
Qed.

(** Why the keys have to be non-empty and dot-free: a key with a
    dot can give two leaves the same output key, and under an empty
    top-level key the output keys lose their leading dot. *)
Lemma flatten_shares_key_with_dot :
  ~ one_entry_per_leaf (obj 0 [("a.b", num 1); ("a", obj 1 [("b", num 2)])]).
Proof.
  intros H. specialize (H 2 eq_refl).
  apply Permutation_length in H. discriminate H.
Qed.

Lemma flatten_under_empty_key :
  ~ one_entry_per_leaf (obj 0 [("", obj 1 [("a", num 1)])]).
Proof.
  intros H. specialize (H 2 eq_refl). cbv in H.
  apply Permutation_length_1 in H. discriminate H.
Qed.

(** C7, amended: for every Mapping [root] in which the keys of every
    nested Mapping are non-empty dot-free strings, no value reached
    through Mappings is a date, and ["__proto__"] is not a key of [root]
    itself, the output of [flattenObject(root)] has exactly one entry
    for each leaf (each nested Sequence or scalar), keyed by the
    dot-joined path of Mapping keys to that leaf, with the leaf as
    value.  (The assignment [acc["__proto__"] = ...] would give the
    output no entry; below the top level every output key has a dot.) *)
Theorem flattenObject_one_entry_per_leaf (root : value) :
  kind_of root = Mapping -> flattenable root = true ->
  includes "__proto__" (keys (props_of root)) = false ->
  one_entry_per_leaf root.
Proof.
  intros Hkind Hf _ next _.
  destruct (flattenObject_entries root next Hf Hkind) as [Hnd Hin].
  apply NoDup_Permutation.
  - now apply NoDup_keys_pairs.
  - apply NoDup_keys_pairs. now apply leaf_entries_NoDup.
  - intros [k v]. apply Hin.
Qed.

Lemma flattenObject_one_entry_per_leaf_witness :
  let root := obj 0 [("a", num 1);
                     ("b", obj 1 [("c", arr 2 [("0", date 3 0)]);
                                  ("d", obj 4 [("e", VNull)])])] in
  kind_of root = Mapping /\ flattenable root = true
  /\ includes "__proto__" (keys (props_of root)) = false
  /\ one_entry_per_leaf root.
Proof.
  split; [reflexivity|]. split; [reflexivity|]. split; [reflexivity|].
  apply flattenObject_one_entry_per_leaf; reflexivity.
Defined.

(* ================================================================== *)
(** * The walk of setNestedValue, one component at a time *)

Lemma replace_value_twice (k : string) (v v' : value) (ps : props) :
  replace_value k v' (replace_value k v ps) = replace_value k v' ps.
Proof.
  induction ps as [|[k0 x0] ps IH]; simpl; [reflexivity|].
  destruct (String.eqb_spec k0 k) as [->|Hne]; simpl.
  - now rewrite String.eqb_refl.
  - apply String.eqb_neq in Hne. now rewrite Hne, IH.
Qed.

Lemma replace_value_insert_index (i : N) (k : string) (v v' : value)
      (ps : props) :
  ~ In k (keys ps) ->
  replace_value k v' (insert_index i k v ps) = insert_index i k v' ps.
Proof.
  induction ps as [|[k0 x0] ps IH]; simpl; intros Hk.
  - now rewrite String.eqb_refl.
  - destruct (array_index k0) as [j|]; [destruct (j <? i)%N|]; simpl;
      try now rewrite String.eqb_refl.
    destruct (String.eqb_spec k0 k) as [->|Hne]; [tauto|].
    rewrite IH; tauto.
Qed.

Lemma replace_value_app_new (k : string) (v v' : value) (ps : props) :
  ~ In k (keys ps) ->
  replace_value k v' (ps ++ [(k, v)]) = ps ++ [(k, v')].
Proof.
  induction ps as [|[k0 x0] ps IH]; simpl; intros Hk.
  - now rewrite String.eqb_refl.
  - destruct (String.eqb_spec k0 k) as [->|Hne]; [tauto|].
    rewrite IH; tauto.
Qed.

(** Updating in place the object just assigned under [k] is assigning
    the updated object under [k]. *)
Lemma replace_value_obj_set (ps : props) (k : string) (v v' : value) :
  replace_value k v' (obj_set ps k v) = obj_set ps k v'.
Proof.
  unfold obj_set. destruct (has_key k ps) eqn:E.
  - apply replace_value_twice.
  - apply has_key_false in E. unfold add_key.
    destruct (array_index k).
    + now apply replace_value_insert_index.
    + now apply replace_value_app_new.
Qed.

Lemma replace_value_present (ps : props) (k : string) (v : value) :
  In k (keys ps) -> replace_value k v ps = obj_set ps k v.
Proof.
  intros H. apply has_key_In in H. unfold obj_set. now rewrite H.
Qed.

Lemma descend_cases (child : value) (next : loc) :
  (is_primitive child = false /\ descend child next = (child, next))
  \/ descend child next = (VObj next CPlain [], S next).
Proof.
  unfold descend.
  destruct (negb (truthy child)
            || negb (jstype_eqb (typeof child) TObject)) eqn:E.
  - now right.
  - left. split; [|reflexivity].
    apply orb_false_iff in E as [Ht Hty].
    apply negb_false_iff in Ht, Hty. now apply truthy_object.
Qed.

Lemma descend_object (child : value) (next : loc) :
  is_primitive child = false -> descend child next = (child, next).
Proof.
  intros H. destruct (object_truthy child H) as [Ht Hty].
  unfold descend. now rewrite Ht, Hty.
Qed.

(** One step of the loop on an object: go into the child (or a new empty
    object), and hold the updated child under the key. *)
Lemma set_loop_step (key : string) (rest : list string) (lastKey : string)
      (v : value) (r : loc) (c : class) (ps : props) (next : loc) :
  set_loop (key :: rest) lastKey v (VObj r c ps) next
  = bind (set_loop rest lastKey v
            (fst (descend (read ps key) next))
            (snd (descend (read ps key) next)))
         (fun '(child', next') =>
            Normal (VObj r c (obj_set ps key child'), next')).
Proof.
  simpl set_loop. unfold get_prop. fold (read ps key).
  unfold descend.
  destruct (negb (truthy (read ps key))
            || negb (jstype_eqb (typeof (read ps key)) TObject)) eqn:E.
  - simpl.
    destruct (set_loop rest lastKey v (VObj next CPlain []) (S next))
      as [[child' next']|]; simpl; [|reflexivity].
    now rewrite replace_value_obj_set.
  - simpl.
    destruct (set_loop rest lastKey v (read ps key) next)
      as [[child' next']|]; simpl; [|reflexivity].
    rewrite replace_value_present; [reflexivity|].
    apply orb_false_iff in E as [Ht _]. apply negb_false_iff in Ht.
    unfold read in Ht. destruct (lookup key ps) as [x|] eqn:El.
    + eapply lookup_Some_key; exact El.
    + discriminate.
Qed.

Lemma set_loop_last (lastKey : string) (v : value) (r : loc) (c : class)
      (ps : props) (next : loc) :
  set_loop [] lastKey v (VObj r c ps) next
  = Normal (VObj r c (obj_set ps lastKey v), next).
Proof.
  reflexivity.
Qed.

Lemma all_values_forall (p : value -> bool) (ps : props) :
  all_values p ps = true <-> forall k x, In (k, x) ps -> p x = true.
Proof.
  split.
  - intros H k x. now apply all_values_In.
  - induction ps as [|[k x] ps IH]; simpl; intros H; [reflexivity|].
    rewrite (H k x (or_introl eq_refl)). apply IH.
    intros k' x' Hin. apply (H k'). now right.
Qed.

Lemma In_replace_value (k : string) (v : value) (ps : props)
      (e : string * value) :
  In e (replace_value k v ps) -> e = (k, v) \/ In e ps.
Proof.
  induction ps as [|[k0 x0] ps IH]; simpl; [tauto|].
  destruct (String.eqb_spec k0 k) as [->|Hne]; simpl.
  - intros [<-|H]; auto.
  - intros [<-|H]; auto. destruct (IH H); auto.
Qed.

Lemma In_obj_set_weak (ps : props) (k : string) (v : value)
      (e : string * value) :
  In e (obj_set ps k v) -> e = (k, v) \/ In e ps.
Proof.
  unfold obj_set. destruct (has_key k ps).
  - apply In_replace_value.
  - intros H. apply (Permutation_in _ (add_key_perm k v ps)) in H.
    destruct H; auto.
Qed.

Lemma all_values_obj_set (p : value -> bool) (ps : props) (k : string)
      (v : value) :
  all_values p ps = true -> p v = true ->
  all_values p (obj_set ps k v) = true.
Proof.
  rewrite !all_values_forall. intros Hps Hv k' x Hin.
  apply In_obj_set_weak in Hin as [[= -> ->]|Hin]; [exact Hv|].
  now apply (Hps k').
Qed.

Lemma wf_keys_object (r : loc) (c : class) (ps : props) :
  wf_keys (VObj r c ps) = true
  <-> NoDup (keys ps) /\ all_values wf_keys ps = true.
Proof.
  simpl. now rewrite andb_true_iff, distinct_NoDup.
Qed.

Lemma wf_keys_put (r : loc) (c : class) (ps : props) (k : string)
      (v : value) :
  wf_keys (VObj r c ps) = true -> wf_keys v = true ->
  wf_keys (VObj r c (obj_set ps k v)) = true.
Proof.
  rewrite !wf_keys_object. intros [Hnd Hall] Hv. split.
  - now apply NoDup_keys_obj_set.
  - now apply all_values_obj_set.
Qed.

Lemma wf_keys_read (ps : props) (k : string) :
  all_values wf_keys ps = true -> wf_keys (read ps k) = true.
Proof.
  intros Hall. unfold read. destruct (lookup k ps) as [x|] eqn:E.
  - apply lookup_In in E. now apply (all_values_In wf_keys ps k).
  - reflexivity.
Qed.

Lemma descend_is_object (child : value) (next : loc) :
  is_primitive (fst (descend child next)) = false.
Proof.
  destruct (descend_cases child next) as [[Hobj ->]| ->]; now simpl.
Qed.

Lemma descend_wf (child : value) (next : loc) :
  wf_keys child = true ->
  is_primitive (fst (descend child next)) = false
  /\ wf_keys (fst (descend child next)) = true.
Proof.
  intros Hwf. destruct (descend_cases child next) as [[Hobj ->]| ->]; now simpl.
Qed.

(** The walk on an object with pairwise different keys ends normally, on
    such an object again. *)
Lemma set_loop_total (ks : list string) :
  forall lastKey v current next,
    is_primitive current = false -> wf_keys current = true ->
    wf_keys v = true ->
    exists current' next',
      set_loop ks lastKey v current next = Normal (current', next')
      /\ is_primitive current' = false /\ wf_keys current' = true.
Proof.
  induction ks as [|key rest IH]; intros lastKey v current next Hobj Hwf Hv;
    destruct current as [| | | | |r c ps]; try discriminate.
  - eexists _, _. split; [apply set_loop_last|].
    split; [reflexivity | now apply wf_keys_put].
  - rewrite set_loop_step.
    apply wf_keys_object in Hwf as Hwf'. destruct Hwf' as [_ Hall].
    destruct (descend_wf (read ps key) next (wf_keys_read ps key Hall))
      as [Hdo Hdw].
    destruct (IH lastKey v _ (snd (descend (read ps key) next)) Hdo Hdw Hv)
      as (child' & next' & Hset & Hobj' & Hwf'').
    rewrite Hset. simpl. eexists _, _. split; [reflexivity|].
    split; [reflexivity | now apply wf_keys_put].
Qed.

(** After the walk the assigned value is found at the end of the path. *)
Lemma set_loop_lookup (ks : list string) :
  forall lastKey v current next current' next',
    is_primitive current = false ->
    set_loop ks lastKey v current next = Normal (current', next') ->
    lookup_path (ks ++ [lastKey]) current' = Some v.
Proof.
  induction ks as [|key rest IH];
    intros lastKey v current next current' next' Hobj Hset;
    destruct current as [| | | | |r c ps]; try discriminate.
  - rewrite set_loop_last in Hset. injection Hset as <- <-.
    simpl. now rewrite lookup_obj_set_same.
  - rewrite set_loop_step in Hset.
    destruct (set_loop rest lastKey v (fst (descend (read ps key) next))
                (snd (descend (read ps key) next)))
      as [[child' n']|] eqn:E; [|discriminate].
    simpl in Hset. injection Hset as <- <-.
    simpl. rewrite lookup_obj_set_same.
    apply (IH _ _ _ _ _ _ (descend_is_object _ _) E).
Qed.

Lemma is_prefix_nil (p : list string) : is_prefix [] p.
Proof.
  now exists p.
Qed.

Lemma is_prefix_refl (p : list string) : is_prefix p p.
Proof.
  exists []. now rewrite app_nil_r.
Qed.

Lemma is_prefix_cons (k k' : string) (p q : list string) :
  is_prefix (k :: p) (k' :: q) <-> k = k' /\ is_prefix p q.
Proof.
  split.
  - intros [s [= <- ->]]. split; [reflexivity | now exists s].
  - intros [<- [s ->]]. now exists s.
Qed.

Lemma is_prefix_of_nil (p : list string) : is_prefix p [] -> p = [].
Proof.
  intros [s H]. symmetry in H. now apply app_eq_nil in H.
Qed.

Lemma lookup_path_through (k : string) (q : list string) (v w : value) :
  q <> [] -> lookup_path (k :: q) v = Some w ->
  exists r c ps child,
    v = VObj r c ps /\ lookup k ps = Some child
    /\ is_primitive child = false /\ lookup_path q child = Some w.
Proof.
  intros Hq H. destruct v as [| | | | |r c ps]; try discriminate.
  simpl in H. destruct (lookup k ps) as [child|] eqn:E; [|discriminate].
  exists r, c, ps, child. repeat split; try assumption.
  destruct q as [|k' q]; [congruence|].
  destruct child; try discriminate. reflexivity.
Qed.

Lemma lookup_path_primitive (q : list string) (v : value) (r : loc)
      (c : class) (ps : props) :
  is_primitive v = true -> lookup_path q v <> Some (VObj r c ps).
Proof.
  intros Hv. destruct q as [|k q]; simpl.
  - intros [= ->]. discriminate.
  - destruct v; discriminate.
Qed.

Lemma lookup_path_empty_object (q : list string) (r0 : loc) (r : loc)
      (c : class) (ps : props) (k : string) :
  lookup_path q (VObj r0 CPlain []) = Some (VObj r c ps) ->
  ~ In k (keys ps).
Proof.
  destruct q as [|k' q]; simpl.
  - intros [= <- <- <-]. intros [].
  - discriminate.
Qed.

Lemma read_object (ps : props) (k : string) :
  is_primitive (read ps k) = false -> lookup k ps = Some (read ps k).
Proof.
  unfold read. destruct (lookup k ps); [reflexivity | discriminate].
Qed.

(** The walk along a path leaves the value at every path that is not
    comparable with it where it was. *)
Lemma set_loop_preserves (ks : list string) :
  forall lastKey v current next current' next' p w,
    set_loop ks lastKey v current next = Normal (current', next') ->
    lookup_path p current = Some w ->
    ~ is_prefix p (ks ++ [lastKey]) -> ~ is_prefix (ks ++ [lastKey]) p ->
    lookup_path p current' = Some w.
Proof.
  induction ks as [|key rest IH];
    intros lastKey v current next current' next' p w Hset Hp Hn1 Hn2;
    (destruct p as [|k q]; [exfalso; apply Hn1, is_prefix_nil|]);
    destruct current as [| | | | |r c ps]; try discriminate.
  - rewrite set_loop_last in Hset. injection Hset as <- <-.
    simpl in *. rewrite lookup_obj_set_other; [exact Hp|].
    intros ->. apply Hn2. apply is_prefix_cons. split; [reflexivity|].
    apply is_prefix_nil.
  - rewrite set_loop_step in Hset.
    destruct (set_loop rest lastKey v (fst (descend (read ps key) next))
                (snd (descend (read ps key) next)))
      as [[child' n']|] eqn:E; [|discriminate].
    simpl in Hset. injection Hset as <- <-.
    destruct (String.eqb_spec k key) as [->|Hne].
    + destruct q as [|k' q].
      { exfalso. apply Hn1. apply is_prefix_cons. split; [reflexivity|].
        apply is_prefix_nil. }
      destruct (lookup_path_through key (k' :: q) _ w ltac:(discriminate) Hp)
        as (r0 & c0 & ps0 & child & [= <- <- <-] & Hl & Hobj & Hq).
      assert (Hread : read ps key = child) by (unfold read; now rewrite Hl).
      rewrite Hread, (descend_object child next Hobj) in E. simpl in E.
      simpl. rewrite lookup_obj_set_same.
      apply (IH _ _ _ _ _ _ _ _ E Hq).
      * intros H. apply Hn1. simpl. apply is_prefix_cons. now split.
      * intros H. apply Hn2. simpl. apply is_prefix_cons. now split.
    + simpl in *. now rewrite lookup_obj_set_other.
Qed.

(** Every key found after the walk was there before, or lies on the
    path of the walk. *)
Lemma set_loop_keys (ks : list string) :
  forall lastKey v current next current' next' q k r c ps,
    is_primitive v = true -> is_primitive current = false ->
    set_loop ks lastKey v current next = Normal (current', next') ->
    lookup_path q current' = Some (VObj r c ps) -> In k (keys ps) ->
    (exists r0 c0 ps0,
        lookup_path q current = Some (VObj r0 c0 ps0) /\ In k (keys ps0))
    \/ is_prefix (q ++ [k]) (ks ++ [lastKey]).
Proof.
  induction ks as [|key rest IH];
    intros lastKey v current next current' next' q k r c ps
           Hv Hobj Hset Hq Hk;
    destruct current as [| | | | |r1 c1 ps1]; try discriminate.
  - rewrite set_loop_last in Hset. injection Hset as <- <-.
    destruct q as [|k0 q]; simpl in Hq.
    + injection Hq as <- <- <-. apply keys_obj_set in Hk as [->|Hk].
      * right. apply is_prefix_refl.
      * left. now exists r1, c1, ps1.
    + destruct (String.eqb_spec k0 lastKey) as [->|Hne].
      * rewrite lookup_obj_set_same in Hq.
        now apply lookup_path_primitive in Hq.
      * rewrite lookup_obj_set_other in Hq by assumption.
        left. exists r, c, ps. now split.
  - rewrite set_loop_step in Hset.
    destruct (set_loop rest lastKey v (fst (descend (read ps1 key) next))
                (snd (descend (read ps1 key) next)))
      as [[child' n']|] eqn:E; [|discriminate].
    simpl in Hset. injection Hset as <- <-.
    destruct q as [|k0 q]; simpl in Hq.
    + injection Hq as <- <- <-. apply keys_obj_set in Hk as [->|Hk].
      * right. simpl. apply is_prefix_cons. split; [reflexivity|].
        apply is_prefix_nil.
      * left. now exists r1, c1, ps1.
    + destruct (String.eqb_spec k0 key) as [->|Hne].
      * rewrite lookup_obj_set_same in Hq.
        destruct (IH _ _ _ _ _ _ _ _ _ _ _ Hv (descend_is_object _ _)
                     E Hq Hk)
          as [(r0 & c0 & ps0 & Hq0 & Hk0)|Hpre].
        -- destruct (descend_cases (read ps1 key) next)
             as [[Hchild Hd]|Hd]; rewrite Hd in Hq0; simpl in Hq0.
           ++ left. exists r0, c0, ps0. split; [|exact Hk0].
              simpl. now rewrite (read_object ps1 key Hchild).
           ++ exfalso.
              exact (lookup_path_empty_object q next r0 c0 ps0 k Hq0 Hk0).
        -- right. simpl. apply is_prefix_cons. now split.
      * rewrite lookup_obj_set_other in Hq by assumption.
        left. exists r, c, ps. now split.
Qed.

(* ================================================================== *)
(** * Restorable Mappings *)

Lemma all_values_impl (p q : value -> bool) (ps : props) :
  (forall k x, In (k, x) ps -> p x = true -> q x = true) ->
  all_values p ps = true -> all_values q ps = true.
Proof.
  rewrite !all_values_forall. intros H Hp k x Hin.
  apply (H k x Hin). now apply (Hp k).
Qed.

Lemma restorable_root_mapping (m : value) :
  restorable_root m = true ->
  exists r ps,
    m = VObj r CPlain ps /\ NoDup (keys ps)
    /\ (forall k, In k (keys ps) -> path_key k = true)
    /\ all_values restorable ps = true.
Proof.
  destruct m as [| | | | |r c ps]; try discriminate.
  destruct c; try discriminate. simpl.
  rewrite !andb_true_iff. intros [[Hd Hk] Ha].
  exists r, ps. split; [reflexivity|].
  split; [now apply distinct_NoDup|]. split; [|exact Ha].
  intros k Hin. rewrite forallb_forall in Hk. now apply Hk.
Qed.

Lemma restorable_nested_mapping (x : value) :
  restorable x = true -> kind_of x = Mapping ->
  restorable_root x = true /\ props_of x <> [].
Proof.
  destruct x as [| | | | |r c ps]; try discriminate.
  destruct c; try discriminate. simpl.
  rewrite !andb_true_iff. intros [[[Hn Hd] Hk] Ha] _.
  split; [now rewrite Hd, Hk, Ha|].
  destruct ps; [discriminate | discriminate].
Qed.

(** What is not a Mapping in a restorable value is a string, a number
    other than NaN, a boolean, null or undefined. *)
Lemma restorable_leaf (x : value) :
  restorable x = true -> kind_of x <> Mapping ->
  is_primitive x = true /\ forall f, x = VNum f -> is_nan f = false.
Proof.
  destruct x as [| |b|f|s|r c ps]; simpl; intros Hr Hk;
    try solve [split; [reflexivity | intros ? [=]]].
  - split; [reflexivity|]. intros f' [= <-].
    now apply negb_true_iff in Hr.
  - destruct c; try discriminate. congruence.
Qed.

Lemma restorable_flattenable (x : value) :
  restorable x = true -> flattenable x = true.
Proof.
  induction x as [| |b|f|s|r c ps IH] using value_ind; intros Hr;
    try reflexivity.
  destruct c; try discriminate. simpl in *.
  rewrite !andb_true_iff in *. destruct Hr as [[[_ Hd] Hk] Ha].
  repeat split; try assumption.
  apply (all_values_impl restorable flattenable ps IH Ha).
Qed.

Lemma restorable_root_flattenable (m : value) :
  restorable_root m = true -> flattenable m = true.
Proof.
  intros Hm.
  destruct (restorable_root_mapping m Hm) as (r & ps & -> & _ & _ & Ha).
  simpl in *. rewrite !andb_true_iff in *. destruct Hm as [[Hd Hk] _].
  repeat split; try assumption.
  apply (all_values_impl restorable flattenable ps); [|exact Ha].
  intros k x _. apply restorable_flattenable.
Qed.

Lemma restorable_root_kind (m : value) :
  restorable_root m = true -> kind_of m = Mapping.
Proof.
  intros Hm.
  now destruct (restorable_root_mapping m Hm) as (r & ps & -> & _).
Qed.

(** A nested Mapping of a restorable value has a leaf. *)
Lemma restorable_has_leaf (x : value) :
  restorable x = true -> kind_of x = Mapping -> leaves x <> [].
Proof.
  induction x as [| |b|f|s|r c ps IH] using value_ind; intros Hr Hk;
    try discriminate.
  destruct c; try discriminate.
  destruct (restorable_nested_mapping _ Hr Hk) as [Hroot Hne].
  destruct (restorable_root_mapping _ Hroot)
    as (r' & ps' & [= <- <-] & _ & _ & Ha).
  simpl in Hne. destruct ps as [|[k x] ps]; [congruence|].
  simpl. destruct (kind_of x) eqn:Hkx; try discriminate.
  assert (Hx : In (k, x) ((k, x) :: ps)) by now left.
  pose proof (IH k x Hx (all_values_In restorable _ k x Ha Hx) Hkx) as Hl.
  destruct (leaves x); [congruence | discriminate].
Qed.

Lemma In_unique (ps : props) (k : string) (x x' : value) :
  NoDup (keys ps) -> In (k, x) ps -> In (k, x') ps -> x = x'.
Proof.
  intros Hnd H1 H2.
  apply (In_lookup _ _ _ Hnd) in H1. apply (In_lookup _ _ _ Hnd) in H2.
  congruence.
Qed.

(** No path of a leaf is a proper prefix of the path of another. *)
Lemma leaves_prefix_free (x : value) :
  flattenable x = true ->
  forall p v p' v',
    In (p, v) (leaves x) -> In (p', v') (leaves x) ->
    is_prefix p p' -> p = p'.
Proof.
  induction x as [| |b|f|s|r c ps IH] using value_ind;
    intros Hf p v p' v' Hp Hp' Hpre; try (now destruct Hp).
  destruct c; try (now destruct Hp).
  destruct (flattenable_mapping r ps Hf) as (Hnd & _ & Hall).
  simpl in Hp, Hp'.
  apply In_leaves_props in Hp
    as (k & x & Hx & [[Hkind (q & -> & Hq)]|(Hkind & -> & ->)]);
    apply In_leaves_props in Hp'
      as (k' & x' & Hx' & [[Hkind' (q' & -> & Hq')]|(Hkind' & -> & ->)]);
    apply is_prefix_cons in Hpre as [<- Hpre];
    pose proof (In_unique ps k _ _ Hnd Hx Hx') as <-;
    try congruence.
  f_equal.
  apply (IH k x Hx (all_values_In flattenable ps k x Hall Hx)
            q v q' v' Hq Hq' Hpre).
Qed.

(** The leaves of a restorable Mapping are primitive values other than
    NaN. *)
Lemma restorable_leaves_values (x : value) :
  restorable_root x = true ->
  forall p v, In (p, v) (leaves x) ->
    is_primitive v = true /\ forall f, v = VNum f -> is_nan f = false.
Proof.
  induction x as [| |b|f|s|r c ps IH] using value_ind;
    intros Hr p v Hp; try (now destruct Hp).
  destruct c; try discriminate.
  destruct (restorable_root_mapping _ Hr)
    as (r' & ps' & [= <- <-] & _ & _ & Ha).
  simpl in Hp.
  apply In_leaves_props in Hp
    as (k & x & Hx & [[Hkind (q & -> & Hq)]|(Hkind & -> & ->)]);
    pose proof (all_values_In restorable ps k _ Ha Hx) as Hrx.
  - apply (IH k x Hx (proj1 (restorable_nested_mapping x Hrx Hkind)) q v Hq).
  - now apply restorable_leaf.
Qed.

(* ================================================================== *)
(** * unflattenObject after flattenObject *)

Lemma primitive_wf_keys (v : value) : is_primitive v = true -> wf_keys v = true.
Proof.
  destruct v; simpl; congruence.
Qed.

Lemma holds_empty (r : loc) : holds (VObj r CPlain []) [].
Proof.
  repeat split.
  - intros p v [].
  - intros q k rr c ps Hq Hk. exfalso.
    exact (lookup_path_empty_object q r rr c ps k Hq Hk).
Qed.

(** One call of [setNestedValue] with the entry of a leaf whose path is
    not comparable with the paths assigned so far. *)
Lemma setNestedValue_holds (r : value) (done : list (list string * value))
      (p : list string) (v : value) (next : loc) :
  holds r done ->
  p <> [] -> forallb path_key p = true -> is_primitive v = true ->
  (forall p' w, In (p', w) done -> ~ is_prefix p' p /\ ~ is_prefix p p') ->
  exists r' next',
    setNestedValue r (VStr (dot_join p)) v next = Normal (r', next')
    /\ holds r' ((p, v) :: done).
Proof.
  intros (Hobj & Hwf & Hval & Hdom) Hp Hkeys Hv Hfree.
  unfold setNestedValue.
  destruct (object_truthy r Hobj) as [Ht _]. rewrite Ht. simpl.
  rewrite (split_dot_join p Hp Hkeys).
  pose proof (app_removelast_last "" Hp) as Hsplit.
  destruct (set_loop_total (removelast p) (last p "") v r next Hobj Hwf
              (primitive_wf_keys v Hv))
    as (r' & next' & Hset & Hobj' & Hwf').
  exists r', next'. split; [exact Hset|].
  split; [exact Hobj'|]. split; [exact Hwf'|]. split.
  - intros p' w [[= <- <-]|Hin].
    + rewrite Hsplit. exact (set_loop_lookup _ _ _ _ _ _ _ Hobj Hset).
    + destruct (Hfree p' w Hin) as [Hn1 Hn2]. rewrite Hsplit in Hn1, Hn2.
      exact (set_loop_preserves _ _ _ _ _ _ _ _ _ Hset (Hval p' w Hin)
               Hn1 Hn2).
  - intros q k rr c ps Hq Hk.
    destruct (set_loop_keys _ _ _ _ _ _ _ _ _ _ _ _ Hv Hobj Hset Hq Hk)
      as [(r0 & c0 & ps0 & Hq0 & Hk0)|Hpre].
    + destruct (Hdom q k r0 c0 ps0 Hq0 Hk0) as (p0 & v0 & Hin & Hpre).
      exists p0, v0. split; [now right | exact Hpre].
    + exists p, v. split; [now left|]. now rewrite Hsplit.
Qed.

Section unflatten_loop_facts.
Variable m : value.
Hypothesis m_restorable : restorable_root m = true.

Lemma leaf_path_of_key (p q : list string) (v w : value) :
  In (p, v) (leaves m) -> In (q, w) (leaves m) ->
  dot_join p = dot_join q -> p = q.
Proof.
  intros Hp Hq Heq.
  pose proof (restorable_root_flattenable m m_restorable) as Hf.
  destruct (leaves_paths m Hf p v Hp) as [Hp1 Hp2].
  destruct (leaves_paths m Hf q w Hq) as [Hq1 Hq2].
  rewrite <- (split_dot_join p Hp1 Hp2), <- (split_dot_join q Hq1 Hq2).
  now rewrite Heq.
Qed.

(** The loop of [unflattenObject] over entries of leaves of [m] with
    pairwise different keys, none of them assigned yet. *)
Lemma unflatten_loop_holds (fs : props) :
  forall r next done,
    NoDup (keys fs) ->
    (forall k v, In (k, v) fs ->
                 exists p, In (p, v) (leaves m) /\ k = dot_join p) ->
    (forall p v, In (p, v) done ->
                 In (p, v) (leaves m) /\ ~ In (dot_join p) (keys fs)) ->
    holds r done ->
    exists r' next' done',
      unflatten_loop fs r next = Normal (r', next')
      /\ holds r' done'
      /\ (forall p v, In (p, v) done' -> In (p, v) (leaves m))
      /\ (forall p v, In (p, v) done \/ In (dot_join p, v) fs ->
                      In (p, v) (leaves m) -> In (p, v) done').
Proof.
  pose proof (restorable_root_flattenable m m_restorable) as Hf.
  induction fs as [|[k v] fs IH]; intros r next done Hnd Hfs Hdone Hr.
  - exists r, next, done. split; [reflexivity|]. split; [exact Hr|].
    split.
    + intros p v Hin. now apply Hdone.
    + intros p v [Hin|[]] _. exact Hin.
  - inversion Hnd as [|? ? Hk Hnd']; subst.
    destruct (Hfs k v (or_introl eq_refl)) as (p & Hp & ->).
    destruct (leaves_paths m Hf p v Hp) as [Hp1 Hp2].
    destruct (restorable_leaves_values m m_restorable p v Hp) as [Hv _].
    destruct (setNestedValue_holds r done p v next Hr Hp1 Hp2 Hv)
      as (r1 & next1 & Hset & Hr1).
    { intros p' w Hin. destruct (Hdone p' w Hin) as [Hl Hfresh].
      split; intros Hpre; apply Hfresh; left.
      - now rewrite (leaves_prefix_free m Hf _ _ _ _ Hl Hp Hpre).
      - now rewrite (leaves_prefix_free m Hf _ _ _ _ Hp Hl Hpre). }
    destruct (IH r1 next1 ((p, v) :: done) Hnd')
      as (r' & next' & done' & Hloop & Hr' & Hsub & Hsup).
    { intros k' v' Hin. apply Hfs. now right. }
    { intros p' w [[= <- <-]|Hin].
      - split; [exact Hp | exact Hk].
      - destruct (Hdone p' w Hin) as [Hl Hfresh].
        split; [exact Hl|]. intros H. apply Hfresh. now right. }
    { exact Hr1. }
    exists r', next', done'. simpl unflatten_loop. rewrite Hset. simpl.
    split; [exact Hloop|]. split; [exact Hr'|]. split; [exact Hsub|].
    intros p' w Hin Hl. apply Hsup; [|exact Hl].
    destruct Hin as [Hin|[[= Hj <-]|Hin]].
    + left. now right.
    + left. left. f_equal. now apply (leaf_path_of_key p p' v v).
    + now right.
Qed.
End unflatten_loop_facts.

(** An object that has every leaf of [x] at its path, and no key off the
    paths of the leaves of [x], is [isEqual] to [x]. *)
Lemma rebuilt_isEqual (x : value) :
  restorable_root x = true ->
  forall r,
    is_primitive r = false -> wf_keys r = true ->
    (forall p v, In (p, v) (leaves x) -> lookup_path p r = Some v) ->
    (forall q k rr c ps,
        lookup_path q r = Some (VObj rr c ps) -> In k (keys ps) ->
        exists p v, In (p, v) (leaves x) /\ is_prefix (q ++ [k]) p) ->
    isEqual r x = true.
Proof.
  induction x as [| |b|f|s|rx cx ps IH] using value_ind;
    intros Hx r Hobj Hwf Hval Hdom; try discriminate.
  destruct cx; try discriminate.
  destruct (restorable_root_mapping _ Hx)
    as (rx' & ps' & [= <- <-] & Hnd & Hkeys & Hall).
  destruct r as [| | | | |rr c rs]; try discriminate.
  apply wf_keys_object in Hwf as [Hndr Hwfr].
  simpl leaves in Hval, Hdom.
  assert (Hsome : forall k x', In (k, x') ps ->
            exists child, lookup k rs = Some child
              /\ (kind_of x' <> Mapping -> child = x')
              /\ (kind_of x' = Mapping ->
                  is_primitive child = false
                  /\ forall q v, In (q, v) (leaves x') ->
                                 lookup_path q child = Some v)).
  { intros k x' Hin.
    pose proof (all_values_In restorable ps k x' Hall Hin) as Hrx.
    destruct (kind_of x') eqn:Hkind.
    - assert (Hl : In ([k], x') (leaves_props leaves ps)).
      { apply In_leaves_props. exists k, x'. split; [exact Hin|].
        right. rewrite Hkind. repeat split. discriminate. }
      apply Hval in Hl. simpl in Hl.
      destruct (lookup k rs) as [child|]; [|discriminate].
      injection Hl as ->. exists x'. repeat split; congruence.
    - assert (Hl : In ([k], x') (leaves_props leaves ps)).
      { apply In_leaves_props. exists k, x'. split; [exact Hin|].
        right. rewrite Hkind. repeat split. discriminate. }
      apply Hval in Hl. simpl in Hl.
      destruct (lookup k rs) as [child|]; [|discriminate].
      injection Hl as ->. exists x'. repeat split; congruence.
    - assert (Hl : forall q v, In (q, v) (leaves x') ->
                               In (k :: q, v) (leaves_props leaves ps)).
      { intros q v Hq. apply In_leaves_props. exists k, x'.
        split; [exact Hin|]. left. split; [exact Hkind|]. now exists q. }
      assert (Hleaf : exists q0 v0, In (q0, v0) (leaves x')).
      { pose proof (restorable_has_leaf x' Hrx Hkind) as Hne.
        destruct (leaves x') as [|[q0 v0] ls]; [congruence|].
        exists q0, v0. now left. }
      destruct Hleaf as (q0 & v0 & Hq0).
      destruct (leaves_paths x' (restorable_flattenable x' Hrx) q0 v0 Hq0)
        as [Hq0ne _].
      destruct (lookup_path_through k q0 _ v0 Hq0ne
                  (Hval _ _ (Hl q0 v0 Hq0)))
        as (r0 & c0 & ps0 & child & [= <- <- <-] & Hlk & Hco & _).
      exists child. split; [exact Hlk|]. split; [congruence|].
      intros _. split; [exact Hco|]. intros q v Hq.
      apply Hl, Hval in Hq. simpl in Hq.
      now rewrite Hlk in Hq. }
  apply isEqual_objects; try assumption.
  - intros k. split.
    + intros Hk.
      destruct (Hdom [] k rr c rs eq_refl Hk) as (p & v & Hin & [s ->]).
      apply (in_map fst) in Hin.
      destruct (leaves_props_head ps _ Hin) as (k' & q & [= <- _] & Hk').
      exact Hk'.
    + intros Hk. apply in_map_iff in Hk as ([k' x'] & <- & Hin).
      destruct (Hsome k' x' Hin) as (child & Hlk & _).
      eapply lookup_Some_key; exact Hlk.
  - intros k c1 x2 Hin1 Hl2. apply lookup_In in Hl2.
    pose proof (all_values_In restorable ps k x2 Hall Hl2) as Hrx.
    destruct (Hsome k x2 Hl2) as (child & Hlk & Hleaf & Hnode).
    rewrite (In_lookup k rs c1 Hndr Hin1) in Hlk. injection Hlk as <-.
    destruct (kind_of x2) eqn:Hkind.
    + rewrite (Hleaf ltac:(discriminate)).
      apply isEqual_same.
      apply (restorable_leaf x2 Hrx). rewrite Hkind. discriminate.
    + rewrite (Hleaf ltac:(discriminate)).
      apply isEqual_same.
      apply (restorable_leaf x2 Hrx). rewrite Hkind. discriminate.
    + destruct (Hnode eq_refl) as [Hco Hpaths].
      apply (IH k x2 Hl2
               (proj1 (restorable_nested_mapping x2 Hrx Hkind)) c1 Hco).
      * exact (all_values_In wf_keys rs k c1 Hwfr Hin1).
      * exact Hpaths.
      * intros q k' rr1 cc1 ps1 Hq Hk'.
        destruct (Hdom (k :: q) k' rr1 cc1 ps1) as (p & v & Hin & Hpre).
        { simpl. now rewrite (In_lookup k rs c1 Hndr Hin1). }
        { exact Hk'. }
        apply In_leaves_props in Hin
          as (k0 & x0 & Hx0 & [[_ (q0 & -> & Hq0)]|(_ & -> & ->)]);
          simpl in Hpre; apply is_prefix_cons in Hpre as [<- Hpre].
        -- rewrite <- (In_unique ps k _ _ Hnd Hl2 Hx0) in Hq0.
           now exists q0, v.
        -- apply is_prefix_of_nil in Hpre.
           now apply app_eq_nil in Hpre as [_ [=]].
Qed.

Lemma flattenObject_result (x : value) (prefix : string) (next : loc) :
  exists fs, fst (flattenObject x prefix next) = VObj next CPlain fs.
Proof.
  destruct x as [| |b|f|s|r c ps]; simpl; rewrite ?orb_true_r; simpl;
    try (now exists []).
  destruct (flatten_props flattenObject prefix ps [] (S next))
    as [acc next']. now exists acc.
Qed.

(** C3, as stated, fails on a Mapping that holds an empty Mapping:
    [flattenObject] writes nothing for it, so [unflattenObject] cannot
    bring its key back. *)
Lemma flatten_roundtrip_empty_nested_mapping :
  plain (obj 0 [("a", obj 1 [])]) = true
  /\ mappings_and_scalars (obj 0 [("a", obj 1 [])]) = true
  /\ ~ flatten_roundtrip (obj 0 [("a", obj 1 [])]).
Proof.
  split; [reflexivity|]. split; [reflexivity|].
  intros H. destruct (H 2 eq_refl) as (r & next' & Hun & Heq).
  cbv in Hun. injection Hun as <- <-. discriminate Heq.
Qed.

(** Why each of the conditions below is asked for: the round trip
    also fails on NaN, on a date, on a key with a dot and on an empty
    top-level key above a Mapping. *)
Lemma flatten_roundtrip_other_failures :
  ~ flatten_roundtrip (obj 0 [("a", num nan)])
  /\ ~ flatten_roundtrip (obj 0 [("a", date 1 0)])
  /\ ~ flatten_roundtrip (obj 0 [("a.b", num 1)])
  /\ ~ flatten_roundtrip (obj 0 [("", obj 1 [("a", num 1)])]).
Proof.
  repeat split; intros H;
    destruct (H 2 eq_refl) as (r & next' & Hun & Heq);
    cbv in Hun; injection Hun as <- <-; discriminate Heq.
Qed.

(** C3, amended: for every Mapping [m] whose keys, at every level, are
    non-empty dot-free strings other than ["__proto__"], whose nested
    Mappings are not empty, and whose other nested values are scalars
    other than dates and NaN, [unflattenObject(flattenObject(m))] is
    [isEqual] to [m].  (Under ["__proto__"] the assignments of
    [flattenObject] and [setNestedValue] set or follow the prototype and
    create no key.) *)
Theorem flatten_roundtrip_restorable (m : value) :
  restorable_root m = true -> proto_free m = true -> flatten_roundtrip m.
Proof.
  intros Hm _ next _.
  pose proof (restorable_root_flattenable m Hm) as Hf.
  destruct (flattenObject_entries m next Hf (restorable_root_kind m Hm))
    as [Hnd Hentries].
  destruct (flattenObject_result m "" next) as [fs Hflat].
  rewrite Hflat in *. simpl props_of in *.
  unfold unflattenObject. simpl.
  destruct (unflatten_loop_holds m Hm fs
              (VObj (snd (flattenObject m "" next)) CPlain [])
              (S (snd (flattenObject m "" next))) [] Hnd)
    as (r & next' & done & Hloop & (Hobj & Hwf & Hval & Hdom) & Hsub & Hsup).
  - intros k v Hin. apply Hentries in Hin.
    apply in_map_iff in Hin as ([p v'] & [= <- <-] & Hl). now exists p.
  - intros p v [].
  - apply holds_empty.
  - exists r, next'. split; [exact Hloop|].
    apply (rebuilt_isEqual m Hm r Hobj Hwf).
    + intros p v Hl. apply Hval, Hsup; [|exact Hl].
      right. apply Hentries.
      apply in_map_iff. now exists (p, v).
    + intros q k rr c ps Hq Hk.
      destruct (Hdom q k rr c ps Hq Hk) as (p & v & Hin & Hpre).
      exists p, v. split; [now apply Hsub | exact Hpre].
Qed.

Lemma flatten_roundtrip_restorable_witness :
  let m := obj 0 [("7", VBool false);
                  ("a", num 1);
                  ("b", obj 1 [("c", VStr ""); ("d", obj 2 [("e", VNull)])])] in
  restorable_root m = true /\ proto_free m = true /\ flatten_roundtrip m.
Proof.
  split; [reflexivity|]. split; [reflexivity|].
  apply flatten_roundtrip_restorable; reflexivity.
Defined.

(* ================================================================== *)
(** * The tests of the repository for the other functions *)

Example test_getAllKeys :
  getAllKeys
    (obj 0 [("a", num 1);
            ("b", obj 1 [("c", num 2); ("d", obj 2 [("e", num 3)])])]) ""
  = ["a"; "b.c"; "b.d.e"].
Proof. reflexivity. Qed.

Example test_removeNullish :
  removeNullish
    (obj 0 [("a", num 1); ("b", VNull); ("c", VUndefined);
            ("d", num 0); ("e", VStr "")]) 1
  = (obj 1 [("a", num 1); ("d", num 0); ("e", VStr "")], 2).
Proof. reflexivity. Qed.

Example test_pick :
  forall to_string,
    pick to_string (obj 0 [("a", num 1); ("b", num 2); ("c", num 3)])
         (arr 1 [("0", VStr "a"); ("1", VStr "c")]) 2
    = Normal (obj 2 [("a", num 1); ("c", num 3)], 3)
    /\ pick to_string VNull (arr 1 [("0", VStr "a")]) 2 = ThrowTypeError
    /\ pick to_string (obj 0 []) (VStr "not array") 2 = ThrowTypeError.
Proof. intros to_string. repeat split. Qed.

Example test_omit :
  forall to_string,
    omit to_string (obj 0 [("a", num 1); ("b", num 2); ("c", num 3)])
         (arr 1 [("0", VStr "b")]) 2
    = Normal (obj 2 [("a", num 1); ("c", num 3)], 3).
Proof. intros to_string. reflexivity. Qed.

Example test_isEmpty :
  isEmpty (obj 0 []) = true
  /\ isEmpty (obj 0 [("a", num 1)]) = false
  /\ isEmpty VNull = false.
Proof. repeat split. Qed.

Example test_mapValues :
  mapValues (obj 0 [("a", num 1); ("b", num 2)])
            (Callback (fun val =>
               match val with
               | VNum x => VNum (x * 2)
               | _ => VNum nan
               end)) 1
  = Normal (obj 1 [("a", num 2); ("b", num 4)], 2).
Proof. vm_compute. reflexivity. Qed.

Example test_defaults :
  defaults (obj 0 [("a", num 1)]) (obj 1 [("a", num 2); ("b", num 3)]) 2
  = Normal (obj 2 [("a", num 1); ("b", num 3)], 3).
Proof. reflexivity. Qed.

Example test_size :
  size (obj 0 [("a", num 1); ("b", num 2); ("c", num 3)]) = 3
  /\ size (obj 0 []) = 0.
Proof. split; reflexivity. Qed.

Example test_has :
  forall to_string,
    has to_string (obj 0 [("a", num 1)]) (VStr "a") = Normal true
    /\ has to_string (obj 0 [("a", num 1)]) (VStr "b") = Normal false.
Proof. intros to_string. split; reflexivity. Qed.

Example test_hasPath :
  hasPath (obj 0 [("a", obj 1 [("b", obj 2 [("c", num 1)])])])
          (VStr "a.b.c") 3 = (true, 4)
  /\ hasPath (obj 0 [("a", obj 1 [("b", obj 2 [("c", num 1)])])])
             (VStr "a.b.d") 3 = (false, 4).
Proof. split; reflexivity. Qed.

(* ================================================================== *)
(** * Successive assignments to a new object *)


Lemma keys_assign (k : string) (source target : props) :
  In k (keys (assign target source))
  <-> In k (keys target) \/ In k (keys source).
Proof.
  revert target. unfold assign.
  induction source as [|[k0 v0] source IH]; intros target; simpl.
  - tauto.
  - rewrite IH, keys_obj_set. intuition congruence.
Qed.

Lemma assign_perm (source : props) :
  forall target,
    NoDup (keys source) ->
    (forall k, In k (keys source) -> ~ In k (keys target)) ->
    Permutation (assign target source) (target ++ source).
Proof.
  unfold assign.
  induction source as [|[k0 v0] source IH]; intros target Hnd Hnew; simpl.
  - now rewrite app_nil_r.
  - inversion Hnd as [|? ? Hk0 Hnd']; subst.
    rewrite IH; [|exact Hnd'|].
    + unfold obj_set.
      assert (Hk : has_key k0 target = false).
      { apply has_key_false. apply Hnew. now left. }
      rewrite Hk. rewrite add_key_perm.
      simpl. apply Permutation_middle.
    + intros k Hk Hin. apply keys_obj_set in Hin as [->|Hin].
      * now apply Hk0.
      * apply (Hnew k); [now right | exact Hin].
Qed.

Lemma assign_nil_perm (source : props) :
  NoDup (keys source) -> Permutation (assign [] source) source.
Proof.
  intros Hnd. apply (assign_perm source [] Hnd). intros k _ [].
Qed.

Lemma keys_filter_In (c : string * value -> bool) (ps : props) (k : string) :
  In k (keys (filter c ps)) -> In k (keys ps).
Proof.
  unfold keys. intros H. apply in_map_iff in H as (e & <- & He).
  apply filter_In in He as [He _]. now apply in_map.
Qed.

Lemma NoDup_keys_filter (c : string * value -> bool) (ps : props) :
  NoDup (keys ps) -> NoDup (keys (filter c ps)).
Proof.
  induction ps as [|[k x] ps IH]; intros Hnd; simpl; [constructor|].
  inversion Hnd as [|? ? Hk Hnd']; subst.
  destruct (c (k, x)); simpl.
  - constructor; [|now apply IH].
    intros H. apply Hk. now apply (keys_filter_In c).
  - now apply IH.
Qed.

Lemma lookup_filter (c : string * value -> bool) (ps : props) (k : string) :
  NoDup (keys ps) ->
  lookup k (filter c ps) =
  match lookup k ps with
  | Some x => if c (k, x) then Some x else None
  | None => None
  end.
Proof.
  induction ps as [|[k0 x0] ps IH]; intros Hnd; simpl; [reflexivity|].
  inversion Hnd as [|? ? Hk Hnd']; subst.
  destruct (String.eqb_spec k0 k) as [->|Hne].
  - destruct (c (k, x0)) eqn:Hc; simpl.
    + now rewrite String.eqb_refl.
    + apply lookup_None. intros H. apply Hk. now apply (keys_filter_In c).
  - destruct (c (k0, x0)); simpl.
    + apply String.eqb_neq in Hne. rewrite Hne. now apply IH.
    + now apply IH.
Qed.

Lemma last_written_lookup (k : string) (ws : list (string * value)) :
  NoDup (keys ws) -> last_written k ws = lookup k ws.
Proof. intros Hnd. unfold last_written. now apply lookup_rev. Qed.

Lemma In_keys_last_written (k : string) (ws : list (string * value)) :
  In k (keys ws) <-> last_written k ws <> None.
Proof.
  unfold last_written. split.
  - intros H Hn. apply lookup_None in Hn. apply Hn.
    unfold keys. rewrite map_rev. now apply in_rev in H.
  - intros H. destruct (lookup k (rev ws)) as [x|] eqn:E; [|congruence].
    apply lookup_Some_key in E. unfold keys in *.
    rewrite map_rev in E. now apply in_rev.
Qed.

(* ================================================================== *)
(** * getAllKeys *)

Lemma all_keys_props_writes (prefix : string) (ps0 : props) :
  (forall k x, In (k, x) ps0 ->
     forall prefix, getAllKeys x prefix = keys (writes x prefix)) ->
  forall ps acc, incl ps ps0 ->
    all_keys_props getAllKeys prefix ps acc
    = acc ++ keys (writes_props writes prefix ps).
Proof.
  intros IH. induction ps as [|[k x] ps IHps]; intros acc Hincl; simpl.
  - now rewrite app_nil_r.
  - assert (Hx : In (k, x) ps0) by (apply Hincl; now left).
    assert (Hps : incl ps ps0) by (intros e He; apply Hincl; now right).
    unfold keys in *. rewrite map_app.
    destruct (flattened_by_keys x).
    + rewrite (IHps _ Hps), (IH k x Hx). now rewrite <- app_assoc.
    + rewrite (IHps _ Hps). now rewrite <- app_assoc.
Qed.

Lemma getAllKeys_writes (x : value) :
  forall prefix, getAllKeys x prefix = keys (writes x prefix).
Proof.
  induction x as [| |b|f|s|r c ps IH] using value_ind; intros prefix;
    try (simpl; rewrite ?orb_true_r; reflexivity).
  simpl getAllKeys. simpl writes.
  now rewrite (all_keys_props_writes prefix ps IH ps [] (incl_refl ps)).
Qed.

Lemma keys_flattenObject_writes
      (x : value) (prefix : string) (next : loc) (k : string) :
  In k (keys (props_of (fst (flattenObject x prefix next))))
  <-> In k (keys (writes x prefix)).
Proof.
  destruct (flattenObject_writes x prefix next) as [_ Hl].
  rewrite (In_keys_last_written k (writes x prefix)), <- Hl.
  split.
  - intros H Hn. apply lookup_None in Hn. now apply Hn.
  - intros H. destruct (lookup k _) as [v|] eqn:E; [|congruence].
    now apply lookup_Some_key in E.
Qed.

(** X1: when ["__proto__"] is not among them, the strings that
    [getAllKeys(obj, prefix)] returns are the keys of the object that
    [flattenObject(obj, prefix)] returns: each string listed is a key of
    that object, and each of its keys is listed.  (A key ["__proto__"]
    is listed by [getAllKeys], whereas the assignment of [flattenObject]
    under it creates no property.) *)
Theorem getAllKeys_keys_of_flattenObject
        (x : value) (prefix : string) (next : loc) (k : string) :
  includes "__proto__" (getAllKeys x prefix) = false ->
  In k (getAllKeys x prefix)
  <-> In k (keys (props_of (fst (flattenObject x prefix next)))).
Proof.
  intros _. rewrite getAllKeys_writes. symmetry.
  apply keys_flattenObject_writes.
Qed.

Lemma getAllKeys_keys_of_flattenObject_witness :
  let x := obj 0 [("a.b", num 1); ("a", obj 1 [("b", num 2); ("c", VNull)])] in
  includes "__proto__" (getAllKeys x "p") = false
  /\ (In "p.a.b" (getAllKeys x "p")
      <-> In "p.a.b" (keys (props_of (fst (flattenObject x "p" 2))))).
Proof.
  split; [reflexivity|].
  apply (getAllKeys_keys_of_flattenObject
           (obj 0 [("a.b", num 1); ("a", obj 1 [("b", num 2); ("c", VNull)])])
           "p" 2 "p.a.b").
  reflexivity.
Defined.

Lemma keys_leaf_entries (m : value) :
  keys (map leaf_entry (leaves m))
  = map (fun e => dot_join (fst e)) (leaves m).
Proof. unfold keys. rewrite map_map. reflexivity. Qed.

Lemma getAllKeys_leaves (m : value) :
  kind_of m = Mapping -> flattenable m = true ->
  getAllKeys m "" = map (fun e => dot_join (fst e)) (leaves m).
Proof.
  intros Hkind Hf. rewrite getAllKeys_writes.
  pose proof (writes_leaves m Hf Hkind [] (or_introl eq_refl)) as Hw.
  simpl in Hw. rewrite Hw. unfold keys. rewrite map_map. reflexivity.
Qed.

(** X2: for a Mapping whose keys, at every level, are non-empty strings
    without a dot, and in which no value reached through Mappings is a
    date, [getAllKeys] returns the dot-joined paths of the leaves, in
    the order of a pre-order walk, and no path twice. *)
Theorem getAllKeys_leaf_paths (m : value) :
  kind_of m = Mapping -> flattenable m = true ->
  getAllKeys m "" = map (fun e => dot_join (fst e)) (leaves m)
  /\ NoDup (getAllKeys m "").
Proof.
  intros Hkind Hf. rewrite (getAllKeys_leaves m Hkind Hf).
  split; [reflexivity|].
  rewrite <- keys_leaf_entries. now apply leaf_entries_NoDup.
Qed.

Lemma getAllKeys_leaf_paths_witness :
  let m := obj 0 [("a", num 1);
                  ("b", obj 1 [("c", arr 2 [("0", num 2)]);
                               ("d", obj 3 [("e", VNull)])]);
                  ("f", obj 4 [])] in
  kind_of m = Mapping /\ flattenable m = true
  /\ getAllKeys m "" = ["a"; "b.c"; "b.d.e"]
  /\ NoDup (getAllKeys m "").
Proof.
  split; [reflexivity|]. split; [reflexivity|].
  apply (getAllKeys_leaf_paths
           (obj 0 [("a", num 1);
                   ("b", obj 1 [("c", arr 2 [("0", num 2)]);
                                ("d", obj 3 [("e", VNull)])]);
                   ("f", obj 4 [])])); reflexivity.
Defined.

Lemma size_object (r : loc) (c : class) (ps : props) :
  size (VObj r c ps) = List.length ps.
Proof. unfold size, keys. simpl. now rewrite length_map. Qed.

(** X3: when ["__proto__"] is not among the strings that [getAllKeys]
    lists, the object that [flattenObject] returns never has more
    properties than [getAllKeys] lists strings, and it is empty, as
    [isEmpty] tells, exactly when [getAllKeys] lists nothing.  It has as
    many properties as [getAllKeys] lists strings when, moreover, the
    argument is a Mapping whose keys, at every level, are non-empty
    strings without a dot, and in which no value reached through
    Mappings is a date. *)
Theorem size_flattenObject_getAllKeys (x : value) (next : loc) :
  includes "__proto__" (getAllKeys x "") = false ->
  size (fst (flattenObject x "" next)) <= List.length (getAllKeys x "")
  /\ (isEmpty (fst (flattenObject x "" next)) = true
      <-> getAllKeys x "" = [])
  /\ (kind_of x = Mapping -> flattenable x = true ->
      size (fst (flattenObject x "" next)) = List.length (getAllKeys x "")).
Proof.
  intros _.
  destruct (flattenObject_result x "" next) as [fs Hfs].
  destruct (flattenObject_writes x "" next) as [Hnd _].
  assert (Hkeys : forall k, In k (keys fs) <-> In k (getAllKeys x "")).
  { intros k. rewrite getAllKeys_writes.
    rewrite <- (keys_flattenObject_writes x "" next k). now rewrite Hfs. }
  rewrite Hfs in *. rewrite size_object. simpl props_of in Hnd.
  split; [|split].
  - replace (List.length fs) with (List.length (keys fs))
      by (unfold keys; apply length_map).
    apply NoDup_incl_length; [exact Hnd|].
    intros k Hk. now apply Hkeys.
  - unfold isEmpty. simpl. split.
    + intros H. apply Nat.eqb_eq in H. apply length_zero_iff_nil in H.
      destruct (getAllKeys x "") as [|k ks]; [reflexivity|].
      exfalso. assert (Hk : In k (keys fs)) by (apply Hkeys; now left).
      rewrite H in Hk. destruct Hk.
    + intros H. apply Nat.eqb_eq. apply length_zero_iff_nil.
      destruct (keys fs) as [|k ks]; [reflexivity|].
      exfalso. assert (Hk : In k (getAllKeys x ""))
        by (apply Hkeys; now left).
      rewrite H in Hk. destruct Hk.
  - intros Hkind Hf.
    rewrite (getAllKeys_leaves x Hkind Hf), length_map.
    rewrite <- (length_map leaf_entry (leaves x)).
    apply Permutation_length.
    destruct (flattenObject_entries x next Hf Hkind) as [_ Hin].
    rewrite Hfs in Hin. simpl props_of in Hin.
    apply NoDup_Permutation.
    + now apply NoDup_keys_pairs.
    + apply NoDup_keys_pairs. now apply leaf_entries_NoDup.
    + intros [k v]. apply Hin.
Qed.

Lemma size_flattenObject_getAllKeys_witness :
  let x := obj 0 [("a", num 1); ("b", obj 1 [("c", num 2); ("d", VNull)])] in
  includes "__proto__" (getAllKeys x "") = false
  /\ kind_of x = Mapping /\ flattenable x = true
  /\ size (fst (flattenObject x "" 2)) = List.length (getAllKeys x "").
Proof.
  split; [reflexivity|]. split; [reflexivity|]. split; [reflexivity|].
  apply (size_flattenObject_getAllKeys
           (obj 0 [("a", num 1); ("b", obj 1 [("c", num 2); ("d", VNull)])])
           2); reflexivity.
Defined.

(* ================================================================== *)
(** * removeNullish, filterObject *)

Lemma In_assign (e : string * value) (source target : props) :
  In e (assign target source) -> In e target \/ In e source.
Proof.
  revert target. unfold assign.
  induction source as [|[k0 v0] source IH]; intros target H; simpl in *.
  - now left.
  - apply IH in H as [H|H]; [|now right; right].
    apply In_obj_set_weak in H as [->|H]; [right; now left | now left].
Qed.

Lemma filter_all {A : Type} (c : A -> bool) (l : list A) :
  (forall a, In a l -> c a = true) -> filter c l = l.
Proof.
  induction l as [|a l IH]; intros H; simpl; [reflexivity|].
  rewrite (H a (or_introl eq_refl)). f_equal.
  apply IH. intros b Hb. apply H. now right.
Qed.

Lemma remove_nullish_props_assign (ps : props) :
  forall result,
    remove_nullish_props ps result
    = assign result (filter (fun kv => negb (is_nullish (snd kv))) ps).
Proof.
  induction ps as [|[k x] ps IH]; intros result; simpl; [reflexivity|].
  destruct (negb (is_nullish x)); simpl; now rewrite IH.
Qed.

Lemma filter_props_assign (f : value -> string -> value -> value)
      (o : value) (ps : props) :
  forall result,
    filter_props f o ps result
    = assign result (filter (fun kv => truthy (f (snd kv) (fst kv) o)) ps).
Proof.
  induction ps as [|[k x] ps IH]; intros result; simpl; [reflexivity|].
  destruct (truthy (f x k o)); simpl; now rewrite IH.
Qed.

(** X4: on an object without the key ["__proto__"], [removeNullish]
    returns a new plain object that has exactly the properties of the
    argument whose value is neither [null] nor [undefined], each with
    the value it has there; the values 0, NaN, [false] and the empty
    string stay. *)
Theorem removeNullish_entries
        (r : loc) (c : class) (ps : props) (next : loc) :
  distinct (keys ps) = true ->
  includes "__proto__" (keys ps) = false ->
  exists out,
    removeNullish (VObj r c ps) next = (VObj next CPlain out, S next)
    /\ Permutation out (filter (fun kv => negb (is_nullish (snd kv))) ps).
Proof.
  intros Hd _. apply distinct_NoDup in Hd.
  exists (remove_nullish_props ps []). split; [reflexivity|].
  rewrite remove_nullish_props_assign.
  apply assign_nil_perm. now apply NoDup_keys_filter.
Qed.

Lemma removeNullish_entries_witness :
  distinct (keys [("a", num 1); ("b", VNull); ("c", VUndefined);
                  ("d", num 0); ("e", VStr "")]) = true
  /\ includes "__proto__"
       (keys [("a", num 1); ("b", VNull); ("c", VUndefined);
              ("d", num 0); ("e", VStr "")]) = false
  /\ exists out,
      removeNullish (obj 0 [("a", num 1); ("b", VNull); ("c", VUndefined);
                            ("d", num 0); ("e", VStr "")]) 1
      = (VObj 1 CPlain out, 2)
      /\ Permutation out [("a", num 1); ("d", num 0); ("e", VStr "")].
Proof.
  split; [reflexivity|]. split; [reflexivity|].
  apply (removeNullish_entries 0 CPlain
           [("a", num 1); ("b", VNull); ("c", VUndefined);
            ("d", num 0); ("e", VStr "")] 1); reflexivity.
Defined.

(** X5: [removeNullish] is idempotent: applied to its own result it
    returns an object with the same properties. *)
Theorem removeNullish_idempotent (x : value) (n1 n2 : loc) :
  Permutation (props_of (fst (removeNullish (fst (removeNullish x n1)) n2)))
              (props_of (fst (removeNullish x n1))).
Proof.
  destruct x as [| |b|f|s|r c ps];
    try (unfold removeNullish; simpl; rewrite ?orb_true_r; simpl;
         rewrite ?orb_true_r; reflexivity).
  unfold removeNullish. simpl.
  rewrite !remove_nullish_props_assign.
  set (kept := filter (fun kv => negb (is_nullish (snd kv))) ps).
  rewrite filter_all.
  - apply assign_nil_perm. apply NoDup_keys_assign. constructor.
  - intros e He. apply In_assign in He as [[]|He].
    now apply filter_In in He as [_ He].
Qed.

(** X6: on an object without the key ["__proto__"] and a function,
    [filterObject] returns a new plain object that has exactly the
    properties of the argument for which [fn(value, key, obj)] is
    truthy, each with the value it has there. *)
Theorem filterObject_entries
        (r : loc) (c : class) (ps : props)
        (fn : value -> string -> value -> value) (next : loc) :
  distinct (keys ps) = true ->
  includes "__proto__" (keys ps) = false ->
  exists out,
    filterObject (VObj r c ps) (Callback fn) next
    = (VObj next CPlain out, S next)
    /\ Permutation out
         (filter (fun kv => truthy (fn (snd kv) (fst kv) (VObj r c ps))) ps).
Proof.
  intros Hd _. apply distinct_NoDup in Hd.
  exists (filter_props fn (VObj r c ps) ps []). split; [reflexivity|].
  rewrite filter_props_assign.
  apply assign_nil_perm. now apply NoDup_keys_filter.
Qed.

Lemma filterObject_entries_witness :
  distinct (keys [("a", num 1); ("b", num 0); ("c", VStr "x")]) = true
  /\ includes "__proto__" (keys [("a", num 1); ("b", num 0); ("c", VStr "x")])
     = false
  /\ exists out,
      filterObject (obj 0 [("a", num 1); ("b", num 0); ("c", VStr "x")])
                   (Callback (fun val _ _ => val)) 1
      = (VObj 1 CPlain out, 2)
      /\ Permutation out [("a", num 1); ("c", VStr "x")].
Proof.
  split; [reflexivity|]. split; [reflexivity|].
  apply (filterObject_entries 0 CPlain
           [("a", num 1); ("b", num 0); ("c", VStr "x")]
           (fun val _ _ => val) 1); reflexivity.
Defined.

(** X7: [removeNullish(obj)] returns what
    [filterObject(obj, val => val != null)] returns exactly when [obj]
    is an object; on anything else [removeNullish] returns its argument
    and [filterObject] a new empty object. *)
Theorem removeNullish_as_filterObject (o : value) (next : loc) :
  removeNullish o next
  = filterObject o (Callback (fun val _ _ => VBool (negb (is_nullish val))))
                 next
  <-> is_primitive o = false.
Proof.
  unfold removeNullish, filterObject.
  destruct o as [| |b|f|s|r c ps]; simpl; rewrite ?orb_true_r; simpl;
    try (split; [intros [= _ H]; exfalso; now apply (n_Sn next)
                | discriminate]).
  split; [reflexivity|]. intros _.
  now rewrite remove_nullish_props_assign, filter_props_assign.
Qed.

(* ================================================================== *)
(** * mapValues *)

Lemma map_values_props_assign (f : value -> value) (ps : props) :
  forall result,
    map_values_props f ps result
    = assign result (map (fun kv => (fst kv, f (snd kv))) ps).
Proof.
  induction ps as [|[k x] ps IH]; intros result; simpl; [reflexivity|].
  now rewrite IH.
Qed.

Lemma keys_map_values (f : value -> value) (ps : props) :
  keys (map (fun kv => (fst kv, f (snd kv))) ps) = keys ps.
Proof. unfold keys. rewrite map_map. reflexivity. Qed.

Lemma map_values_props_perm (f : value -> value) (ps : props) :
  NoDup (keys ps) ->
  Permutation (map_values_props f ps [])
              (map (fun kv => (fst kv, f (snd kv))) ps).
Proof.
  intros Hnd. rewrite map_values_props_assign.
  apply assign_nil_perm. now rewrite keys_map_values.
Qed.

(** X8: on an object without the key ["__proto__"] and a function,
    [mapValues] returns a new plain object that has the keys of the
    argument and, under each key, the result of [fn] on the value the
    argument has there. *)
Theorem mapValues_entries
        (r : loc) (c : class) (ps : props) (fn : value -> value)
        (next : loc) :
  distinct (keys ps) = true ->
  includes "__proto__" (keys ps) = false ->
  exists out,
    mapValues (VObj r c ps) (Callback fn) next
    = Normal (VObj next CPlain out, S next)
    /\ Permutation out (map (fun kv => (fst kv, fn (snd kv))) ps).
Proof.
  intros Hd _. apply distinct_NoDup in Hd.
  exists (map_values_props fn ps []). split; [reflexivity|].
  now apply map_values_props_perm.
Qed.

Lemma mapValues_entries_witness :
  distinct (keys [("a", VBool true); ("b", VNull)]) = true
  /\ includes "__proto__" (keys [("a", VBool true); ("b", VNull)]) = false
  /\ exists out,
      mapValues (obj 0 [("a", VBool true); ("b", VNull)])
                (Callback (fun val => VBool (is_nullish val))) 1
      = Normal (VObj 1 CPlain out, 2)
      /\ Permutation out [("a", VBool false); ("b", VBool true)].
Proof.
  split; [reflexivity|]. split; [reflexivity|].
  apply (mapValues_entries 0 CPlain [("a", VBool true); ("b", VNull)]
           (fun val => VBool (is_nullish val)) 1); reflexivity.
Defined.

(** X9: mapping the values with [f] and the values of the result with
    [g] gives an object with the same properties as mapping the values
    once with the composition of [g] after [f]. *)
Theorem mapValues_twice
        (r : loc) (c : class) (ps : props) (f g : value -> value)
        (n1 n2 n3 : loc) :
  distinct (keys ps) = true ->
  exists o1 out2 out3,
    mapValues (VObj r c ps) (Callback f) n1 = Normal (o1, S n1)
    /\ mapValues o1 (Callback g) n2 = Normal (VObj n2 CPlain out2, S n2)
    /\ mapValues (VObj r c ps) (Callback (fun val => g (f val))) n3
       = Normal (VObj n3 CPlain out3, S n3)
    /\ Permutation out2 out3.
Proof.
  intros Hd. apply distinct_NoDup in Hd.
  exists (VObj n1 CPlain (map_values_props f ps [])),
         (map_values_props g (map_values_props f ps []) []),
         (map_values_props (fun val => g (f val)) ps []).
  repeat split.
  pose proof (map_values_props_perm f ps Hd) as H1.
  assert (Hnd1 : NoDup (keys (map_values_props f ps []))).
  { rewrite map_values_props_assign. apply NoDup_keys_assign. constructor. }
  rewrite (map_values_props_perm g _ Hnd1).
  rewrite (map_values_props_perm (fun val => g (f val)) ps Hd).
  rewrite (Permutation_map (fun kv => (fst kv, g (snd kv))) H1).
  rewrite map_map. reflexivity.
Qed.

Lemma mapValues_twice_witness :
  distinct (keys [("b", num 1); ("0", VNull)]) = true
  /\ exists o1 out2 out3,
      mapValues (obj 0 [("b", num 1); ("0", VNull)])
                (Callback (fun val => VBool (is_nullish val))) 1
      = Normal (o1, 2)
      /\ mapValues o1 (Callback (fun val => VBool (negb (truthy val)))) 2
         = Normal (VObj 2 CPlain out2, 3)
      /\ mapValues (obj 0 [("b", num 1); ("0", VNull)])
                   (Callback (fun val =>
                      VBool (negb (truthy (VBool (is_nullish val)))))) 3
         = Normal (VObj 3 CPlain out3, 4)
      /\ Permutation out2 out3.
Proof.
  split; [reflexivity|].
  apply (mapValues_twice 0 CPlain [("b", num 1); ("0", VNull)]
           (fun val => VBool (is_nullish val))
           (fun val => VBool (negb (truthy val))) 1 2 3).
  reflexivity.
Defined.

(* ================================================================== *)
(** * defaults *)

Lemma defaults_props_assign (ps : props) :
  forall result,
    defaults_props ps result
    = assign result
        (filter (fun kv => negb (strict_eq (snd kv) VUndefined)) ps).
Proof.
  induction ps as [|[k x] ps IH]; intros result; simpl; [reflexivity|].
  destruct (negb (strict_eq x VUndefined)); simpl; now rewrite IH.
Qed.

(** X10: on two objects, of which the first has no key ["__proto__"],
    [defaults(obj, defaults)] returns a new plain object that has, under
    each key, the value of [obj] when [obj] has the key with a value
    other than [undefined], and what [defaults] has under it otherwise.
    (The properties of [defaults] are copied by a spread, which defines
    them; those of [obj] are assigned.) *)
Theorem defaults_lookup
        (r : loc) (c : class) (ps : props)
        (rd : loc) (cd : class) (ds : props) (next : loc) :
  distinct (keys ps) = true -> distinct (keys ds) = true ->
  includes "__proto__" (keys ps) = false ->
  exists out,
    defaults (VObj r c ps) (VObj rd cd ds) next
    = Normal (VObj next CPlain out, S next)
    /\ forall k,
        lookup k out
        = match lookup k ps with
          | Some x => if strict_eq x VUndefined then lookup k ds else Some x
          | None => lookup k ds
          end.
Proof.
  intros Hp Hd _. apply distinct_NoDup in Hp, Hd.
  exists (defaults_props ps (spread (VObj rd cd ds))).
  split; [reflexivity|]. intros k.
  rewrite defaults_props_assign, lookup_assign
    by now apply NoDup_keys_filter.
  rewrite (lookup_filter _ ps k Hp). unfold spread. simpl props_of.
  rewrite (lookup_assign k ds [] Hd). simpl.
  destruct (lookup k ps) as [x|]; simpl.
  - destruct (strict_eq x VUndefined); simpl; [|reflexivity].
    now destruct (lookup k ds).
  - now destruct (lookup k ds).
Qed.

Lemma defaults_lookup_witness :
  distinct (keys [("a", num 1); ("c", VUndefined)]) = true
  /\ distinct (keys [("a", num 2); ("b", num 3); ("c", num 4)]) = true
  /\ includes "__proto__" (keys [("a", num 1); ("c", VUndefined)]) = false
  /\ exists out,
      defaults (obj 0 [("a", num 1); ("c", VUndefined)])
               (obj 1 [("a", num 2); ("b", num 3); ("c", num 4)]) 2
      = Normal (VObj 2 CPlain out, 3)
      /\ forall k,
          lookup k out
          = match lookup k [("a", num 1); ("c", VUndefined)] with
            | Some x =>
                if strict_eq x VUndefined
                then lookup k [("a", num 2); ("b", num 3); ("c", num 4)]
                else Some x
            | None => lookup k [("a", num 2); ("b", num 3); ("c", num 4)]
            end.
Proof.
  split; [reflexivity|]. split; [reflexivity|]. split; [reflexivity|].
  apply (defaults_lookup 0 CPlain [("a", num 1); ("c", VUndefined)]
           1 CPlain [("a", num 2); ("b", num 3); ("c", num 4)] 2);
    reflexivity.
Defined.

(* ================================================================== *)
(** * pick, omit, has *)



Section property_key_facts.
Variable to_string : value -> string.












End property_key_facts.




(* ================================================================== *)
(** * invert, mapKeys *)

Section invert_facts.
Variable to_string : value -> string.

Lemma invert_props_assign (ps : props) :
  forall result,
    invert_props to_string ps result
    = assign result
        (map (fun kv => (to_property_key to_string (snd kv), VStr (fst kv)))
             ps).
Proof.
  induction ps as [|[k x] ps IH]; intros result; simpl; [reflexivity|].
  now rewrite IH.
Qed.

Lemma map_keys_props_assign (fn : string -> value) (ps : props) :
  forall result,
    map_keys_props to_string fn ps result
    = assign result
        (map (fun kv => (to_property_key to_string (fn (fst kv)), snd kv))
             ps).
Proof.
  induction ps as [|[k x] ps IH]; intros result; simpl; [reflexivity|].
  now rewrite IH.
Qed.

(** X14: on an object whose values are strings, pairwise different,
    with ["__proto__"] neither among its keys nor among its values,
    [invert] applied twice gives back an object with the properties of
    the first. *)
Theorem invert_twice
        (r : loc) (c : class) (ps : props) (n1 n2 : loc) :
  all_values (fun v => jstype_eqb (typeof v) TString) ps = true ->
  distinct (map (to_property_key to_string) (map snd ps)) = true ->
  distinct (keys ps) = true ->
  includes "__proto__" (keys ps) = false ->
  includes "__proto__" (map (to_property_key to_string) (map snd ps))
  = false ->
  exists o1 out2,
    invert to_string (VObj r c ps) n1 = Normal (o1, S n1)
    /\ invert to_string o1 n2 = Normal (VObj n2 CPlain out2, S n2)
    /\ Permutation out2 ps.
Proof.
  intros Hstr Hvals Hkeys _ _.
  apply distinct_NoDup in Hvals, Hkeys.
  exists (VObj n1 CPlain (invert_props to_string ps [])),
         (invert_props to_string (invert_props to_string ps []) []).
  split; [reflexivity|]. split; [reflexivity|].
  set (swap := fun kv : string * value =>
                 (to_property_key to_string (snd kv), VStr (fst kv))).
  assert (Hback : map swap (map swap ps) = ps).
  { rewrite map_map. rewrite <- (map_id ps) at 2.
    apply map_ext_in. intros [k x] Hin. unfold swap. simpl.
    pose proof (all_values_In _ ps k x Hstr Hin) as Hx.
    destruct x; try discriminate. reflexivity. }
  assert (H1 : Permutation (invert_props to_string ps []) (map swap ps)).
  { rewrite invert_props_assign. apply assign_nil_perm.
    unfold keys. rewrite map_map. simpl.
    now rewrite map_map in Hvals. }
  rewrite invert_props_assign. fold swap.
  rewrite assign_nil_perm.
  - rewrite (Permutation_map swap H1). now rewrite Hback.
  - apply (Permutation_NoDup (l := keys ps)); [|exact Hkeys].
    rewrite <- Hback at 1. unfold keys.
    apply Permutation_map, Permutation_map. now symmetry.
Qed.

(** X15: on an object and a function that gives, for the different
    keys of the object, primitives that name different keys, none of
    them ["__proto__"], [mapKeys] returns a new plain object that has
    each value of the object under the key that the function gives for
    its key there. *)
Theorem mapKeys_entries
        (r : loc) (c : class) (ps : props) (fn : string -> value)
        (next : loc) :
  distinct (map (fun kv => to_property_key to_string (fn (fst kv))) ps)
  = true ->
  forallb (fun kv => is_primitive (fn (fst kv))) ps = true ->
  includes "__proto__"
           (map (fun kv => to_property_key to_string (fn (fst kv))) ps)
  = false ->
  exists out,
    mapKeys to_string (VObj r c ps) (Callback fn) next
    = Normal (VObj next CPlain out, S next)
    /\ Permutation out
         (map (fun kv => (to_property_key to_string (fn (fst kv)), snd kv))
              ps).
Proof.
  intros Hd _ _. apply distinct_NoDup in Hd.
  exists (map_keys_props to_string fn ps []). split; [reflexivity|].
  rewrite map_keys_props_assign. apply assign_nil_perm.
  unfold keys. now rewrite map_map.
Qed.

End invert_facts.

Lemma invert_twice_witness :
  let ps := [("a", VStr "x"); ("b", VStr "y")] in
  all_values (fun v => jstype_eqb (typeof v) TString) ps = true
  /\ distinct (map (to_property_key (fun _ => "")) (map snd ps)) = true
  /\ distinct (keys ps) = true
  /\ includes "__proto__" (keys ps) = false
  /\ includes "__proto__" (map (to_property_key (fun _ => "")) (map snd ps))
     = false
  /\ exists o1 out2,
      invert (fun _ => "") (VObj 0 CPlain ps) 1 = Normal (o1, 2)
      /\ invert (fun _ => "") o1 2 = Normal (VObj 2 CPlain out2, 3)
      /\ Permutation out2 ps.
Proof.
  split; [reflexivity|]. split; [reflexivity|]. split; [reflexivity|].
  split; [reflexivity|]. split; [reflexivity|].
  apply (invert_twice (fun _ => "") 0 CPlain
           [("a", VStr "x"); ("b", VStr "y")] 1 2); reflexivity.
Defined.

Lemma mapKeys_entries_witness :
  let ps := [("a", num 1); ("b", num 2)] in
  let fn := fun key => VStr (key ++ "_")%string in
  distinct (map (fun kv => to_property_key (fun _ => "") (fn (fst kv))) ps)
  = true
  /\ forallb (fun kv => is_primitive (fn (fst kv))) ps = true
  /\ includes "__proto__"
       (map (fun kv => to_property_key (fun _ => "") (fn (fst kv))) ps)
     = false
  /\ exists out,
      mapKeys (fun _ => "") (VObj 0 CPlain ps) (Callback fn) 1
      = Normal (VObj 1 CPlain out, 2)
      /\ Permutation out
           (map (fun kv => (to_property_key (fun _ => "") (fn (fst kv)),
                            snd kv)) ps).
Proof.
  split; [reflexivity|]. split; [reflexivity|]. split; [reflexivity|].
  apply (mapKeys_entries (fun _ => "") 0 CPlain
           [("a", num 1); ("b", num 2)]
           (fun key => VStr (key ++ "_")%string) 1); reflexivity.
Defined.

(* ================================================================== *)
(** * The identities of a clone *)

Lemma NoDup_app_inv {A : Type} (l1 l2 : list A) :
  NoDup (l1 ++ l2) ->
  NoDup l1 /\ NoDup l2 /\ forall a, In a l1 -> ~ In a l2.
Proof.
  induction l1 as [|a l1 IH]; simpl; intros H.
  - repeat split; [constructor | exact H | intros a []].
  - inversion H as [|? ? Ha Hnd]; subst.
    destruct (IH Hnd) as (H1 & H2 & H3).
    repeat split; [|exact H2|].
    + constructor; [|exact H1]. intros Hin. apply Ha.
      apply in_or_app. now left.
    + intros b [<-|Hb] Hin.
      * apply Ha. apply in_or_app. now right.
      * now apply (H3 b).
Qed.

Lemma ids_of_cons (k : string) (x : value) (ps : props) :
  ids_of ((k, x) :: ps) = object_ids x ++ ids_of ps.
Proof. reflexivity. Qed.

Lemma ids_of_perm (ps qs : props) :
  Permutation ps qs -> Permutation (ids_of ps) (ids_of qs).
Proof. intros H. unfold ids_of. now apply Permutation_flat_map. Qed.

Lemma ids_replace_value (k : string) (v : value) (ps : props) (r : loc) :
  In r (ids_of (replace_value k v ps)) ->
  In r (ids_of ps) \/ In r (object_ids v).
Proof.
  induction ps as [|[k0 x0] ps IH]; [simpl; tauto|].
  simpl replace_value.
  destruct (k0 =? k); rewrite !ids_of_cons, !in_app_iff.
  - tauto.
  - intros [H|H]; [tauto|]. apply IH in H. tauto.
Qed.

Lemma NoDup_ids_replace_value (k : string) (v : value) (ps : props) :
  NoDup (ids_of ps) -> NoDup (object_ids v) ->
  (forall r, In r (object_ids v) -> ~ In r (ids_of ps)) ->
  NoDup (ids_of (replace_value k v ps)).
Proof.
  induction ps as [|[k0 x0] ps IH]; intros Hps Hv Hnew; [exact Hps|].
  rewrite ids_of_cons in Hps, Hnew.
  destruct (NoDup_app_inv _ _ Hps) as (Hx0 & Hrest & Hdisj).
  simpl replace_value.
  destruct (k0 =? k); rewrite ids_of_cons.
  - apply NoDup_app; [exact Hv | exact Hrest|].
    intros r Hr Hin. apply (Hnew r Hr). apply in_or_app. now right.
  - apply NoDup_app; [exact Hx0| |].
    + apply IH; [exact Hrest | exact Hv|].
      intros r Hr Hin. apply (Hnew r Hr). apply in_or_app. now right.
    + intros r Hr Hin. apply ids_replace_value in Hin as [Hin|Hin].
      * now apply (Hdisj r).
      * apply (Hnew r Hin). apply in_or_app. now left.
Qed.

Lemma ids_obj_set (ps : props) (k : string) (v : value) (r : loc) :
  In r (ids_of (obj_set ps k v)) ->
  In r (ids_of ps) \/ In r (object_ids v).
Proof.
  unfold obj_set. destruct (has_key k ps).
  - apply ids_replace_value.
  - intros H.
    apply (Permutation_in _ (ids_of_perm _ _ (add_key_perm k v ps))) in H.
    rewrite ids_of_cons in H. apply in_app_or in H. tauto.
Qed.

Lemma NoDup_ids_obj_set (ps : props) (k : string) (v : value) :
  NoDup (ids_of ps) -> NoDup (object_ids v) ->
  (forall r, In r (object_ids v) -> ~ In r (ids_of ps)) ->
  NoDup (ids_of (obj_set ps k v)).
Proof.
  intros Hps Hv Hnew. unfold obj_set. destruct (has_key k ps).
  - now apply NoDup_ids_replace_value.
  - apply (Permutation_NoDup
             (Permutation_sym (ids_of_perm _ _ (add_key_perm k v ps)))).
    rewrite ids_of_cons. now apply NoDup_app.
Qed.

Section clone_props_fresh.
Variable visited : string -> bool.
Variable ps0 : props.
Hypothesis IH :
  forall k x, In (k, x) ps0 ->
    forall next,
      next <= snd (deepClone x next)
      /\ (forall r, In r (object_ids (fst (deepClone x next))) ->
                    next <= r < snd (deepClone x next))
      /\ NoDup (object_ids (fst (deepClone x next))).

Lemma clone_props_ids (ps : props) :
  forall cloned next lo,
    incl ps ps0 -> lo <= next ->
    (forall r, In r (ids_of cloned) -> lo <= r < next) ->
    NoDup (ids_of cloned) ->
    next <= snd (clone_props deepClone visited ps cloned next)
    /\ (forall r,
          In r (ids_of (fst (clone_props deepClone visited ps cloned next)))
          -> lo <= r < snd (clone_props deepClone visited ps cloned next))
    /\ NoDup (ids_of (fst (clone_props deepClone visited ps cloned next))).
Proof.
  induction ps as [|[k x] ps IHps]; intros cloned next lo Hincl Hlo Hin Hnd;
    simpl.
  - auto.
  - assert (Hx : In (k, x) ps0) by (apply Hincl; now left).
    assert (Hps : incl ps ps0) by (intros e He; apply Hincl; now right).
    destruct (visited k); [|now apply IHps].
    destruct (IH k x Hx next) as (Hle & Hrange & Hndx).
    destruct (deepClone x next) as [x' next1]. simpl in *.
    destruct (IHps (obj_set cloned k x') next1 lo Hps) as (H1 & H2 & H3).
    + lia.
    + intros r Hr. apply ids_obj_set in Hr as [Hr|Hr].
      * apply Hin in Hr. lia.
      * apply Hrange in Hr. lia.
    + apply NoDup_ids_obj_set; [exact Hnd | exact Hndx|].
      intros r Hr Hr'. apply Hrange in Hr. apply Hin in Hr'. lia.
    + split; [lia|]. split; [exact H2 | exact H3].
Qed.
End clone_props_fresh.

Lemma deepClone_ids (x : value) :
  forall next,
    next <= snd (deepClone x next)
    /\ (forall r, In r (object_ids (fst (deepClone x next))) ->
                  next <= r < snd (deepClone x next))
    /\ NoDup (object_ids (fst (deepClone x next))).
Proof.
  induction x as [| |b|f|s|r c ps IH] using value_ind; intros next;
    try (simpl; split; [lia | split; [intros r [] | constructor]]).
  assert (Hloop : forall visited,
            S next <= snd (clone_props deepClone visited ps [] (S next))
            /\ (forall r0,
                  In r0 (ids_of (fst (clone_props deepClone visited ps []
                                                  (S next)))) ->
                  S next <= r0
                  < snd (clone_props deepClone visited ps [] (S next)))
            /\ NoDup (ids_of (fst (clone_props deepClone visited ps []
                                               (S next))))).
  { intros visited.
    apply (clone_props_ids visited ps IH ps [] (S next) (S next));
      [apply incl_refl | lia | intros r0 [] | constructor]. }
  destruct c as [| |t]; simpl.
  - destruct (Hloop (fun _ => true)) as (H1 & H2 & H3).
    destruct (clone_props deepClone (fun _ => true) ps [] (S next))
      as [cloned next']. simpl in *. fold (ids_of cloned).
    repeat split; try lia.
    + destruct H as [<-|H]; [lia|]. apply H2 in H. lia.
    + destruct H as [<-|H]; [lia|]. apply H2 in H. lia.
    + constructor; [|exact H3]. intros H. apply H2 in H. lia.
  - destruct (Hloop is_index) as (H1 & H2 & H3).
    destruct (clone_props deepClone is_index ps [] (S next))
      as [cloned next']. simpl in *. fold (ids_of cloned).
    repeat split; try lia.
    + destruct H as [<-|H]; [lia|]. apply H2 in H. lia.
    + destruct H as [<-|H]; [lia|]. apply H2 in H. lia.
    + constructor; [|exact H3]. intros H. apply H2 in H. lia.
  - repeat split; try lia.
    constructor; [intros [] | constructor].
Qed.

Lemma allocated_ids (next : loc) (x : value) :
  allocated next x = true -> forall r, In r (object_ids x) -> r < next.
Proof.
  induction x as [| |b|f|s|r0 c ps IH] using value_ind;
    try solve [intros _ r []].
  simpl. intros H r [<-|Hin].
  - apply andb_prop in H as [H _]. now apply Nat.ltb_lt in H.
  - apply andb_prop in H as [_ H].
    apply in_flat_map in Hin as ([k x] & Hx & Hr).
    apply (IH k x Hx); [|exact Hr].
    now apply (all_values_In _ ps k x).
Qed.

(** X16: [deepClone] shares no object with its argument.  Every object
    of the clone is a new one (allocated by the call), no object occurs
    twice in the clone, and hence no object of the clone is an object of
    the argument. *)
Theorem deepClone_shares_nothing (x : value) (next : loc) :
  allocated next x = true ->
  (forall r, In r (object_ids (fst (deepClone x next))) ->
             next <= r < snd (deepClone x next))
  /\ NoDup (object_ids (fst (deepClone x next)))
  /\ forall r, In r (object_ids (fst (deepClone x next))) ->
               ~ In r (object_ids x).
Proof.
  intros Halloc.
  destruct (deepClone_ids x next) as (_ & Hrange & Hnd).
  split; [exact Hrange|]. split; [exact Hnd|].
  intros r Hr Hx. apply Hrange in Hr.
  apply (allocated_ids next x Halloc) in Hx. lia.
Qed.

Lemma deepClone_shares_nothing_witness :
  let x := obj 0 [("a", arr 1 [("0", date 2 5); ("1", obj 3 [])]);
                  ("b", num 1)] in
  allocated 4 x = true
  /\ (forall r, In r (object_ids (fst (deepClone x 4))) ->
                4 <= r < snd (deepClone x 4))
  /\ NoDup (object_ids (fst (deepClone x 4)))
  /\ forall r, In r (object_ids (fst (deepClone x 4))) ->
               ~ In r (object_ids x).
Proof.
  split; [reflexivity|].
  apply (deepClone_shares_nothing
           (obj 0 [("a", arr 1 [("0", date 2 5); ("1", obj 3 [])]);
                   ("b", num 1)]) 4).
  reflexivity.
Defined.

(* ================================================================== *)
(** * setNestedValue on an object, and on a primitive *)

Lemma set_loop_object (ks : list string) :
  forall lastKey v r c ps next,
    exists ps' next',
      set_loop ks lastKey v (VObj r c ps) next = Normal (VObj r c ps', next')
      /\ next <= next' <= next + List.length ks.
Proof.
  induction ks as [|key rest IH]; intros lastKey v r c ps next.
  - rewrite set_loop_last. eexists _, _. split; [reflexivity | simpl; lia].
  - rewrite set_loop_step.
    destruct (descend_cases (read ps key) next) as [[Hobj Hd]|Hd];
      rewrite Hd; simpl fst; simpl snd.
    + destruct (read ps key) as [| |b|f|s|r1 c1 ps1]; try discriminate.
      destruct (IH lastKey v r1 c1 ps1 next) as (ps' & next' & -> & Hle).
      simpl. eexists _, _. split; [reflexivity | lia].
    + destruct (IH lastKey v next CPlain [] (S next))
        as (ps' & next' & -> & Hle).
      simpl. eexists _, _. split; [reflexivity | lia].
Qed.

Lemma split_dot_last (path : string) :
  removelast (split_dot path) ++ [last (split_dot path) ""] = split_dot path.
Proof.
  symmetry. apply app_removelast_last. apply split_dot_nonempty.
Qed.

(** X17: on an object and a string path none of whose components is
    ["__proto__"] or ["length"], [setNestedValue] does not throw and
    returns the object it was given (the same identity, the same class),
    in which the value now lies at the end of the path, whatever the
    value and whatever was there; it creates at most one object for each
    component of the path before the last. *)
Theorem setNestedValue_object_root
        (r : loc) (c : class) (ps : props) (path : string) (v : value)
        (next : loc) :
  forallb data_key (split_dot path) = true ->
  exists ps' next',
    setNestedValue (VObj r c ps) (VStr path) v next
    = Normal (VObj r c ps', next')
    /\ lookup_path (split_dot path) (VObj r c ps') = Some v
    /\ next <= next' < next + List.length (split_dot path).
Proof.
  intros _. unfold setNestedValue. simpl.
  destruct (set_loop_object (removelast (split_dot path))
              (last (split_dot path) "") v r c ps next)
    as (ps' & next' & Hset & Hle).
  exists ps', next'. split; [exact Hset|]. split.
  - rewrite <- (split_dot_last path).
    apply (set_loop_lookup _ _ v (VObj r c ps) next _ next'); [reflexivity|].
    exact Hset.
  - pose proof (f_equal (@List.length string) (split_dot_last path)) as Hlen.
    rewrite length_app in Hlen. simpl in Hlen. lia.
Qed.

Lemma setNestedValue_object_root_witness :
  forallb data_key (split_dot "a.b.c") = true
  /\ exists ps' next',
      setNestedValue (VObj 0 CArray [("0", num 1)]) (VStr "a.b.c") (num 0) 1
      = Normal (VObj 0 CArray ps', next')
      /\ lookup_path (split_dot "a.b.c") (VObj 0 CArray ps') = Some (num 0)
      /\ 1 <= next' < 1 + List.length (split_dot "a.b.c").
Proof.
  split; [reflexivity|].
  apply (setNestedValue_object_root 0 CArray [("0", num 1)] "a.b.c" (num 0) 1).
  reflexivity.
Defined.

(** X18: [setNestedValue] leaves alone what is off the path, on a root
    in which no object is reachable along two paths and for a path none
    of whose components is ["__proto__"] or ["length"]: a value that lay
    at a path [q] before the call lies there after it, when neither [q]
    leads through the path that is set nor that path through [q]. *)
Theorem setNestedValue_frame
        (root : value) (path : string) (v : value) (next : loc)
        (root' : value) (next' : loc) (q : list string) (w : value) :
  tree root = true ->
  forallb data_key (split_dot path) = true ->
  setNestedValue root (VStr path) v next = Normal (root', next') ->
  lookup_path q root = Some w ->
  ~ is_prefix q (split_dot path) -> ~ is_prefix (split_dot path) q ->
  lookup_path q root' = Some w.
Proof.
  intros _ _. unfold setNestedValue. simpl. rewrite orb_false_r.
  destruct (truthy root); simpl.
  - intros Hset Hq H1 H2.
    rewrite <- (split_dot_last path) in H1, H2.
    exact (set_loop_preserves _ _ _ _ _ _ _ _ _ Hset Hq H1 H2).
  - intros [= <- <-] Hq _ _. exact Hq.
Qed.

Lemma setNestedValue_frame_witness :
  let root := obj 0 [("a", obj 1 [("b", num 1)]); ("c", num 2)] in
  let root' := obj 0 [("a", obj 1 [("b", num 1); ("d", obj 2 [("e", VNull)])]);
                      ("c", num 2)] in
  tree root = true
  /\ forallb data_key (split_dot "a.d.e") = true
  /\ setNestedValue root (VStr "a.d.e") VNull 2 = Normal (root', 3)
  /\ lookup_path ["a"; "b"] root = Some (num 1)
  /\ ~ is_prefix ["a"; "b"] (split_dot "a.d.e")
  /\ ~ is_prefix (split_dot "a.d.e") ["a"; "b"]
  /\ lookup_path ["a"; "b"] root' = Some (num 1).
Proof.
  assert (H1 : ~ is_prefix ["a"; "b"] (split_dot "a.d.e")).
  { intros [s Hs]. discriminate Hs. }
  assert (H2 : ~ is_prefix (split_dot "a.d.e") ["a"; "b"]).
  { intros [s Hs]. discriminate Hs. }
  split; [reflexivity|]. split; [reflexivity|].
  split; [reflexivity|]. split; [reflexivity|].
  split; [exact H1|]. split; [exact H2|].
  exact (setNestedValue_frame
           (obj 0 [("a", obj 1 [("b", num 1)]); ("c", num 2)])
           "a.d.e" VNull 2 _ 3 ["a"; "b"] (num 1)
           eq_refl eq_refl eq_refl eq_refl H1 H2).
Defined.

Lemma get_prop_primitive (p : value) (key : string) :
  is_primitive p = true ->
  jstype_eqb (typeof (get_prop p key)) TObject = false.
Proof.
  destruct p as [| |b|f|s|r c ps]; try discriminate; intros _;
    try reflexivity.
  simpl. destruct (array_index key) as [i|]; [|reflexivity].
  now destruct (String.get (N.to_nat i) s).
Qed.

Lemma set_loop_primitive (ks : list string) (lastKey : string)
      (v p : value) (next : loc) :
  is_primitive p = true -> set_loop ks lastKey v p next = ThrowTypeError.
Proof.
  intros Hp. destruct ks as [|key rest]; simpl.
  - destruct p; try discriminate; reflexivity.
  - rewrite (get_prop_primitive p key Hp). simpl. rewrite orb_true_r.
    destruct p; try discriminate; reflexivity.
Qed.

(** X19: on a root that is a non-empty string, a number other than 0
    and NaN, or [true], [setNestedValue] throws a [TypeError] for every
    value and every string path that does not begin with the component
    ["__proto__"]: the root passes the guard and the first assignment is
    made on a primitive, in strict code.  (Under ["__proto__"] the walk
    goes into the prototype of the primitive, or the assignment runs the
    inherited accessor, which does nothing.) *)
Theorem setNestedValue_primitive_root
        (root : value) (path : string) (v : value) (next : loc) :
  is_primitive root = true -> truthy root = true ->
  (hd "" (split_dot path) =? "__proto__") = false ->
  setNestedValue root (VStr path) v next = ThrowTypeError.
Proof.
  intros Hp Ht _. unfold setNestedValue. rewrite Ht. simpl.
  now apply set_loop_primitive.
Qed.

Lemma setNestedValue_primitive_root_witness :
  is_primitive (VStr "abc") = true /\ truthy (VStr "abc") = true
  /\ (hd "" (split_dot "0.x") =? "__proto__") = false
  /\ setNestedValue (VStr "abc") (VStr "0.x") (num 1) 0 = ThrowTypeError.
Proof.
  split; [reflexivity|]. split; [reflexivity|]. split; [reflexivity|].
  apply (setNestedValue_primitive_root (VStr "abc") "0.x" (num 1) 0);
    reflexivity.
Defined.

(* ================================================================== *)
(** * getNestedValue and hasPath on a path that is there *)

Lemma get_loop_present (ks : list string) :
  forall root v fallback,
    ks <> [] -> is_primitive root = false ->
    lookup_path ks root = Some v ->
    get_loop ks root fallback = if truthy v then v else fallback.
Proof.
  induction ks as [|k rest IH]; intros root v fallback Hne Hroot Hl;
    [congruence|].
  destruct root as [| |b|f|s|r c ps]; try discriminate.
  simpl in Hl. destruct (lookup k ps) as [child|] eqn:Hk; [|discriminate].
  simpl get_loop. unfold get_prop. rewrite Hk.
  destruct rest as [|k2 rest].
  - injection Hl as ->.
    destruct (truthy v) eqn:Hv; simpl.
    + now rewrite (truthy_not_undefined v Hv).
    + now destruct (strict_eq fallback VUndefined).
  - assert (Hc : is_primitive child = false).
    { destruct child; try discriminate Hl. reflexivity. }
    destruct (object_truthy child Hc) as [Ht _]. rewrite Ht. simpl.
    rewrite (truthy_not_undefined child Ht).
    apply IH; [discriminate | exact Hc | exact Hl].
Qed.

(** X20: when the path leads to a value through the objects of the root,
    [getNestedValue] returns that value if it is truthy, and the
    fallback if it is not: 0, NaN, the empty string, [false] and [null]
    at the end of the path are answered as if the path were missing. *)
Theorem getNestedValue_present
        (root : value) (path : string) (v fallback : value) :
  is_primitive root = false ->
  lookup_path (split_dot path) root = Some v ->
  getNestedValue root (VStr path) fallback
  = if truthy v then v else fallback.
Proof.
  intros Hroot Hl. unfold getNestedValue.
  destruct (object_truthy root Hroot) as [Ht _]. rewrite Ht. simpl.
  apply get_loop_present;
    [apply split_dot_nonempty | exact Hroot | exact Hl].
Qed.

Lemma getNestedValue_present_witness :
  let root := obj 0 [("a", obj 1 [("b", num 0); ("c", VStr "x")])] in
  is_primitive root = false
  /\ lookup_path (split_dot "a.b") root = Some (num 0)
  /\ getNestedValue root (VStr "a.b") (VStr "d")
     = if truthy (num 0) then num 0 else VStr "d".
Proof.
  split; [reflexivity|]. split; [reflexivity|].
  apply (getNestedValue_present
           (obj 0 [("a", obj 1 [("b", num 0); ("c", VStr "x")])])
           "a.b" (num 0) (VStr "d")); reflexivity.
Defined.

Lemma allocated_lookup_path (next : loc) (p : list string) :
  forall root v,
    allocated next root = true -> lookup_path p root = Some v ->
    allocated next v = true.
Proof.
  induction p as [|k q IH]; intros root v Ha Hl; simpl in Hl.
  - now injection Hl as <-.
  - destruct root as [| |b|f|s|r c ps]; try discriminate.
    destruct (lookup k ps) as [child|] eqn:Hk; [|discriminate].
    apply (IH child v); [|exact Hl].
    simpl in Ha. apply andb_prop in Ha as [_ Ha].
    apply (all_values_In _ ps k child Ha). now apply lookup_In.
Qed.

(* ================================================================== *)
(** * getNestedValue and hasPath on a missing last key *)

Lemma get_loop_through (q : list string) :
  forall root o ks fallback,
    is_primitive root = false -> is_primitive o = false ->
    lookup_path q root = Some o ->
    get_loop (q ++ ks) root fallback = get_loop ks o fallback.
Proof.
  induction q as [|k q IH]; intros root o ks fallback Hroot Ho Hl.
  - simpl in Hl. now injection Hl as ->.
  - destruct root as [| |b|f|s|r c ps]; try discriminate.
    simpl in Hl. destruct (lookup k ps) as [child|] eqn:Hk; [|discriminate].
    assert (Hc : is_primitive child = false).
    { destruct q; simpl in Hl.
      - now injection Hl as ->.
      - destruct child; try discriminate Hl. reflexivity. }
    destruct (object_truthy child Hc) as [Ht _].
    simpl. unfold get_prop. rewrite Hk, Ht. simpl.
    rewrite (truthy_not_undefined child Ht).
    now apply IH.
Qed.

Lemma get_loop_missing_last (q : list string) (k : string)
      (root : value) (r : loc) (c : class) (ps : props) (fallback : value) :
  is_primitive root = false ->
  lookup_path q root = Some (VObj r c ps) -> lookup k ps = None ->
  get_loop (q ++ [k]) root fallback = fallback.
Proof.
  intros Hroot Hq Hk.
  rewrite (get_loop_through q root (VObj r c ps) [k] fallback
             Hroot eq_refl Hq).
  simpl. rewrite Hk. simpl.
  now destruct (strict_eq fallback VUndefined).
Qed.

(** X21: when the walk reaches, through properties that the objects
    have of their own, a plain object that lacks the last component of
    the path, and that component is not the name of a member of
    [Object.prototype], [getNestedValue] returns the fallback. *)
Theorem getNestedValue_missing_key
        (root : value) (path : string) (q : list string) (k : string)
        (r : loc) (ps : props) (fallback : value) :
  is_primitive root = false ->
  split_dot path = q ++ [k] ->
  lookup_path q root = Some (VObj r CPlain ps) -> lookup k ps = None ->
  object_prototype_member k = false ->
  getNestedValue root (VStr path) fallback = fallback.
Proof.
  intros Hroot Hpath Hq Hk _. unfold getNestedValue.
  destruct (object_truthy root Hroot) as [Ht _]. rewrite Ht. simpl.
  rewrite Hpath. now apply (get_loop_missing_last q k root r CPlain ps).
Qed.

Lemma getNestedValue_missing_key_witness :
  let root := obj 0 [("a", obj 1 [("b", obj 2 [("c", num 42)])])] in
  is_primitive root = false
  /\ split_dot "a.x" = ["a"] ++ ["x"]
  /\ lookup_path ["a"] root = Some (obj 1 [("b", obj 2 [("c", num 42)])])
  /\ lookup "x" [("b", obj 2 [("c", num 42)])] = None
  /\ object_prototype_member "x" = false
  /\ getNestedValue root (VStr "a.x") (VStr "default") = VStr "default".
Proof.
  split; [reflexivity|]. split; [reflexivity|]. split; [reflexivity|].
  split; [reflexivity|]. split; [reflexivity|].
  apply (getNestedValue_missing_key
           (obj 0 [("a", obj 1 [("b", obj 2 [("c", num 42)])])])
           "a.x" ["a"] "x" 1 [("b", obj 2 [("c", num 42)])]
           (VStr "default"));
    reflexivity.
Defined.

(** X22: on an object and a string path, [hasPath] answers whether the
    value at the end of the path is truthy, when the path leads to a
    value through properties that the objects have of their own: it
    answers false for a property that is there with the value 0, NaN,
    the empty string, [false] or [null].  It answers false when the walk
    reaches such a way a plain object that lacks the last component of
    the path, that component not being the name of a member of
    [Object.prototype]. *)
Theorem hasPath_answers (root : value) (path : string) (next : loc) :
  allocated next root = true -> is_primitive root = false ->
  (forall v, lookup_path (split_dot path) root = Some v ->
             fst (hasPath root (VStr path) next) = truthy v)
  /\ (forall q k r ps,
        split_dot path = q ++ [k] ->
        lookup_path q root = Some (VObj r CPlain ps) -> lookup k ps = None ->
        object_prototype_member k = false ->
        fst (hasPath root (VStr path) next) = false).
Proof.
  intros Ha Hroot.
  destruct (object_truthy root Hroot) as [Ht _].
  split.
  - intros v Hl. unfold hasPath, getNestedValue. rewrite Ht. simpl.
    rewrite (get_loop_present (split_dot path) root v (new_symbol next)
               (split_dot_nonempty path) Hroot Hl).
    destruct (truthy v) eqn:Hv.
    + pose proof (allocated_lookup_path next _ root v Ha Hl) as Hav.
      destruct v as [| |b|f|s|r c ps]; try reflexivity.
      simpl in Hav. apply andb_prop in Hav as [Hr _].
      apply Nat.ltb_lt in Hr. unfold new_symbol. simpl.
      destruct (Nat.eqb_spec r next); [lia | reflexivity].
    + unfold new_symbol. simpl. now rewrite Nat.eqb_refl.
  - intros q k r ps Hpath Hq Hk _.
    unfold hasPath, getNestedValue. rewrite Ht. simpl. rewrite Hpath.
    rewrite (get_loop_missing_last q k root r CPlain ps (new_symbol next)
               Hroot Hq Hk).
    unfold new_symbol. simpl. now rewrite Nat.eqb_refl.
Qed.

Lemma hasPath_answers_witness :
  let root := obj 0 [("a", obj 1 [("b", num 0); ("c", VStr "x")])] in
  allocated 2 root = true /\ is_primitive root = false
  /\ fst (hasPath root (VStr "a.b") 2) = false
  /\ fst (hasPath root (VStr "a.c") 2) = true
  /\ fst (hasPath root (VStr "a.d") 2) = false.
Proof.
  split; [reflexivity|]. split; [reflexivity|].
  split; [|split].
  - apply (proj1 (hasPath_answers
                    (obj 0 [("a", obj 1 [("b", num 0); ("c", VStr "x")])])
                    "a.b" 2 eq_refl eq_refl) (num 0)).
    reflexivity.
  - apply (proj1 (hasPath_answers
                    (obj 0 [("a", obj 1 [("b", num 0); ("c", VStr "x")])])
                    "a.c" 2 eq_refl eq_refl) (VStr "x")).
    reflexivity.
  - apply (proj2 (hasPath_answers
                    (obj 0 [("a", obj 1 [("b", num 0); ("c", VStr "x")])])
                    "a.d" 2 eq_refl eq_refl)
                 ["a"] "d" 1 [("b", num 0); ("c", VStr "x")]);
      reflexivity.
Defined.

(* ================================================================== *)
(** * The output of flattenObject, flattened again *)

Lemma writes_flat (x : value) :
  forall prefix k v,
    In (k, v) (writes x prefix) -> flattened_by_keys v = false.
Proof.
  induction x as [| |b|f|s|r c ps IH] using value_ind;
    intros prefix k v Hin; try solve [destruct Hin].
  simpl in Hin.
  assert (H : forall qs, incl qs ps ->
            In (k, v) (writes_props writes prefix qs) ->
            flattened_by_keys v = false).
  { induction qs as [|[k0 x0] qs IHqs]; intros Hincl Hw; [destruct Hw|].
    simpl in Hw. apply in_app_or in Hw as [Hw|Hw].
    - destruct (flattened_by_keys x0) eqn:Hb.
      + apply (IH k0 x0 (Hincl _ (or_introl eq_refl)) _ _ _ Hw).
      + destruct Hw as [[= <- <-]|[]]. exact Hb.
    - apply IHqs; [|exact Hw]. intros e He. apply Hincl. now right. }
  apply (H ps (incl_refl ps) Hin).
Qed.

Lemma last_written_In (k : string) (v : value) (ws : list (string * value)) :
  last_written k ws = Some v -> In (k, v) ws.
Proof.
  unfold last_written. intros H. apply lookup_In in H. now apply in_rev.
Qed.

Lemma flattenObject_entries_written
      (x : value) (prefix : string) (next : loc) (k : string) (v : value) :
  In (k, v) (props_of (fst (flattenObject x prefix next))) ->
  In (k, v) (writes x prefix).
Proof.
  destruct (flattenObject_writes x prefix next) as [Hnd Hl].
  intros Hin. apply (In_lookup _ _ _ Hnd) in Hin.
  rewrite Hl in Hin. now apply last_written_In.
Qed.

Lemma new_key_empty (key : string) : new_key "" key = key.
Proof. reflexivity. Qed.

Lemma flatten_props_flat (ps : props) :
  forall acc next,
    (forall k v, In (k, v) ps -> flattened_by_keys v = false) ->
    flatten_props flattenObject "" ps acc next = (assign acc ps, next).
Proof.
  induction ps as [|[k x] ps IH]; intros acc next Hflat; [reflexivity|].
  simpl. rewrite (Hflat k x (or_introl eq_refl)).
  rewrite new_key_empty. apply IH.
  intros k' v' Hin. apply (Hflat k' v'). now right.
Qed.

(** X23: the object that [flattenObject] returns is flat: none of its
    values is an object that [flattenObject] would descend into.
    Flattening it again gives an object with the same properties. *)
Theorem flattenObject_flat_and_idempotent
        (x : value) (prefix : string) (n1 n2 : loc) :
  all_values (fun v => negb (flattened_by_keys v))
             (props_of (fst (flattenObject x prefix n1))) = true
  /\ Permutation
       (props_of (fst (flattenObject (fst (flattenObject x prefix n1))
                                     "" n2)))
       (props_of (fst (flattenObject x prefix n1))).
Proof.
  assert (Hflat : forall k v,
            In (k, v) (props_of (fst (flattenObject x prefix n1))) ->
            flattened_by_keys v = false).
  { intros k v Hin. apply (writes_flat x prefix k v).
    now apply (flattenObject_entries_written x prefix n1). }
  destruct (flattenObject_writes x prefix n1) as [Hnd _].
  destruct (flattenObject_result x prefix n1) as [fs Hfs].
  rewrite Hfs in *. simpl props_of in *.
  split.
  - apply all_values_forall. intros k v Hin.
    now rewrite (Hflat k v Hin).
  - simpl flattenObject.
    rewrite (flatten_props_flat fs [] (S n2) Hflat). simpl.
    now apply assign_nil_perm.
Qed.

(* ================================================================== *)
(** * unflattenObject returns, and copies dot-free keys *)

Lemma unflatten_loop_object (fs : props) :
  forall r c acc next,
    exists acc' next',
      unflatten_loop fs (VObj r c acc) next = Normal (VObj r c acc', next')
      /\ next <= next'.
Proof.
  induction fs as [|[key x] fs IH]; intros r c acc next.
  - exists acc, next. split; [reflexivity | lia].
  - simpl unflatten_loop. unfold setNestedValue. simpl.
    destruct (set_loop_object (removelast (split_dot key))
                (last (split_dot key) "") x r c acc next)
      as (acc1 & next1 & -> & Hle1).
    simpl.
    destruct (IH r c acc1 next1) as (acc' & next' & -> & Hle).
    exists acc', next'. split; [reflexivity | lia].
Qed.

Lemma unflatten_loop_dot_free (fs : props) :
  forall r c acc next,
    forallb dot_free (keys fs) = true ->
    unflatten_loop fs (VObj r c acc) next
    = Normal (VObj r c (assign acc fs), next).
Proof.
  induction fs as [|[key x] fs IH]; intros r c acc next Hdf; [reflexivity|].
  simpl in Hdf. apply andb_prop in Hdf as [Hkey Hdf].
  simpl unflatten_loop. unfold setNestedValue. simpl.
  rewrite (split_dot_dot_free key Hkey). simpl.
  now apply IH.
Qed.

(** X24: on an argument none of whose keys has ["__proto__"] or
    ["length"] among its dot-separated components, [unflattenObject]
    returns a new plain object and does not throw, although
    [setNestedValue] can on other roots.  If, moreover, the argument is
    an object whose keys have no dot, it creates no other object, and
    the one it returns has the properties of the argument. *)
Theorem unflattenObject_returns (x : value) (next : loc) :
  forallb (fun k => forallb data_key (split_dot k)) (keys (props_of x))
  = true ->
  (exists out next',
      unflattenObject x next = Normal (VObj next CPlain out, next')
      /\ next < next')
  /\ (is_primitive x = false ->
      distinct (keys (props_of x)) = true ->
      forallb dot_free (keys (props_of x)) = true ->
      exists out,
        unflattenObject x next = Normal (VObj next CPlain out, S next)
        /\ Permutation out (props_of x)).
Proof.
  intros _. split.
  - unfold unflattenObject.
    destruct (negb (truthy x) || negb (jstype_eqb (typeof x) TObject)).
    + exists [], (S next). split; [reflexivity | lia].
    + destruct (unflatten_loop_object (props_of x) next CPlain [] (S next))
        as (out & next' & Hloop & Hle).
      exists out, next'. split; [exact Hloop | lia].
  - intros Hobj Hd Hdf. apply distinct_NoDup in Hd.
    destruct x as [| |b|f|s|r c ps]; try discriminate.
    exists (assign [] ps). split.
    + unfold unflattenObject. simpl. now apply unflatten_loop_dot_free.
    + now apply assign_nil_perm.
Qed.

Lemma unflattenObject_returns_witness :
  let x := obj 0 [("a", num 1); ("b", arr 1 [("0", VNull)])] in
  forallb (fun k => forallb data_key (split_dot k)) (keys (props_of x))
  = true
  /\ is_primitive x = false
  /\ distinct (keys (props_of x)) = true
  /\ forallb dot_free (keys (props_of x)) = true
  /\ exists out,
      unflattenObject x 2 = Normal (VObj 2 CPlain out, 3)
      /\ Permutation out (props_of x).
Proof.
  split; [reflexivity|].
  split; [reflexivity|]. split; [reflexivity|]. split; [reflexivity|].
  apply (unflattenObject_returns
           (obj 0 [("a", num 1); ("b", arr 1 [("0", VNull)])]) 2);
    reflexivity.
Defined.

(* ================================================================== *)
(** * deepMerge returns *)

Lemma depth_child (r : loc) (c : class) (ps : props) (k : string) (x : value)
      (b : nat) :
  depth (VObj r c ps) <= S b -> In (k, x) ps -> depth x <= b.
Proof.
  simpl. intros Hd Hin. pose proof (max_value_In depth ps k x Hin). lia.
Qed.

Lemma depth_object (r : loc) (c : class) (ps : props) (b : nat) :
  1 <= b -> (forall k x, In (k, x) ps -> depth x <= b - 1) ->
  depth (VObj r c ps) <= b.
Proof.
  intros Hb Hps. simpl.
  assert (H : max_value depth ps <= b - 1).
  { induction ps as [|[k x] ps IH]; simpl; [lia|].
    pose proof (Hps k x (or_introl eq_refl)).
    assert (max_value depth ps <= b - 1)
      by (apply IH; intros k' x' Hin; apply (Hps k' x'); now right).
    lia. }
  lia.
Qed.

Lemma merged_by_keys_depth (x : value) :
  merged_by_keys x = true -> 1 <= depth x.
Proof.
  intros H. destruct (merged_by_keys_object x H) as (r & c & ps & -> & _).
  simpl. lia.
Qed.

Lemma depth_read (ps : props) (k : string) (b : nat) :
  (forall k' x, In (k', x) ps -> depth x <= b) -> depth (read ps k) <= b.
Proof.
  intros H. unfold read. destruct (lookup k ps) as [x|] eqn:E; simpl; [|lia].
  apply (H k x). now apply lookup_In.
Qed.

Section merge_returns.
Variable merge : list value -> loc -> option (value * loc).
Variable b : nat.
Hypothesis merge_nested :
  forall first x next,
    depth first <= b -> depth x <= b -> 1 <= depth x ->
    exists m next',
      merge [first; x] next = Some (m, next') /\ depth m <= b.

Lemma merge_keys_returns (ps : props) :
  forall merged next,
    (forall k x, In (k, x) ps -> depth x <= b) ->
    (forall k x, In (k, x) merged -> depth x <= b) ->
    exists merged' next',
      merge_keys merge ps merged next = Some (merged', next')
      /\ forall k x, In (k, x) merged' -> depth x <= b.
Proof.
  induction ps as [|[key x] rest IH]; intros merged next Hps Hmerged.
  - exists merged, next. split; [reflexivity | exact Hmerged].
  - pose proof (Hps key x (or_introl eq_refl)) as Hx.
    assert (Hrest : forall k y, In (k, y) rest -> depth y <= b)
      by (intros k y Hin; apply (Hps k y); now right).
    assert (Hset : forall v, depth v <= b ->
              forall k y, In (k, y) (obj_set merged key v) -> depth y <= b).
    { intros v Hv k y Hin. apply In_obj_set_weak in Hin as [[= <- <-]|Hin].
      - exact Hv.
      - now apply (Hmerged k y). }
    simpl merge_keys. destruct (merged_by_keys x) eqn:Hm.
    + pose proof (merged_by_keys_depth x Hm) as H1.
      pose proof (depth_read merged key b Hmerged) as Hold.
      destruct (truthy (read merged key)).
      * destruct (merge_nested (read merged key) x next Hold Hx H1)
          as (m & next1 & -> & Hdm).
        apply IH; [exact Hrest | now apply Hset].
      * assert (Hfresh : depth (VObj next CPlain []) <= b) by (simpl; lia).
        destruct (merge_nested (VObj next CPlain []) x (S next) Hfresh Hx H1)
          as (m & next1 & -> & Hdm).
        apply IH; [exact Hrest | now apply Hset].
    + apply IH; [exact Hrest | now apply Hset].
Qed.

Lemma merge_reduce_returns (objects : list value) :
  forall merged next,
    (forall o k x, In o objects -> In (k, x) (props_of o) -> depth x <= b) ->
    (forall k x, In (k, x) merged -> depth x <= b) ->
    exists merged' next',
      merge_reduce merge objects merged next = Some (merged', next')
      /\ forall k x, In (k, x) merged' -> depth x <= b.
Proof.
  induction objects as [|o objects IH]; intros merged next Hobjs Hmerged.
  - exists merged, next. split; [reflexivity | exact Hmerged].
  - simpl merge_reduce.
    assert (Harg : exists merged1 next1,
              merge_arg merge merged next o = Some (merged1, next1)
              /\ forall k x, In (k, x) merged1 -> depth x <= b).
    { unfold merge_arg.
      destruct (truthy o && jstype_eqb (typeof o) TObject);
        [|now exists merged, next].
      destruct o as [| |bo|f|s|r c ps]; try now exists merged, next.
      apply merge_keys_returns; [|exact Hmerged].
      intros k x Hin. apply (Hobjs _ k x (or_introl eq_refl) Hin). }
    destruct Harg as (merged1 & next1 & -> & Hmerged1).
    apply IH; [|exact Hmerged1].
    intros o' k x Ho'. apply Hobjs. now right.
Qed.
End merge_returns.

Lemma deepMerge_unfold (fuel : nat) (objects : list value) (next : loc) :
  deepMerge (S fuel) objects next
  = match merge_reduce (deepMerge fuel) objects [] (S next) with
    | Some (merged, next') => Some (VObj next CPlain merged, next')
    | None => None
    end.
Proof. reflexivity. Qed.

Lemma deepMerge_returns_bounded (fuel : nat) :
  forall objects next,
    (forall o, In o objects -> depth o <= fuel) ->
    exists merged next',
      deepMerge (S fuel) objects next = Some (VObj next CPlain merged, next')
      /\ forall k x, In (k, x) merged -> depth x <= fuel - 1.
Proof.
  induction fuel as [|fuel IH]; intros objects next Hobjs.
  - destruct (merge_reduce_returns (deepMerge 0) 0) with
      (objects := objects) (merged := @nil (string * value)) (next := S next)
      as (merged & next' & Hred & Hd).
    + intros first x n _ Hx H1. lia.
    + intros o k x Ho Hin. specialize (Hobjs o Ho).
      destruct o; simpl in Hobjs; try destruct Hin. lia.
    + intros k x [].
    + exists merged, next'. rewrite deepMerge_unfold, Hred.
      split; [reflexivity | exact Hd].
  - destruct (merge_reduce_returns (deepMerge (S fuel)) fuel) with
      (objects := objects) (merged := @nil (string * value)) (next := S next)
      as (merged & next' & Hred & Hd).
    + intros first x n Hfirst Hx H1.
      destruct (IH [first; x] n) as (m & n' & Hm & Hdm).
      { intros o [<-|[<-|[]]]; assumption. }
      exists (VObj n CPlain m), n'. split; [exact Hm|].
      apply depth_object; [lia | exact Hdm].
    + intros o k x Ho Hin. specialize (Hobjs o Ho).
      destruct o as [| |bo|f|s|r c ps]; try destruct Hin.
      apply (depth_child r c ps k x fuel Hobjs Hin).
    + intros k x [].
    + exists merged, next'. rewrite deepMerge_unfold, Hred.
      split; [reflexivity|].
      intros k x Hin. specialize (Hd k x Hin). simpl. lia.
Qed.

(** X25: [deepMerge] returns on every list of arguments, a new plain
    object: the recursion through the accumulator ends, and a bound on
    its depth is the depth of the deepest argument. *)
Theorem deepMerge_returns (objects : list value) (fuel : nat) (next : loc) :
  (forall o, In o objects -> depth o <= fuel) ->
  exists merged next',
    deepMerge (S fuel) objects next = Some (VObj next CPlain merged, next').
Proof.
  intros Hobjs.
  destruct (deepMerge_returns_bounded fuel objects next Hobjs)
    as (merged & next' & H & _).
  now exists merged, next'.
Qed.

Lemma deepMerge_returns_witness :
  let objects := [obj 0 [("a", obj 1 [("b", obj 2 [])])];
                  num 5;
                  arr 3 [("0", obj 4 [("c", VNull)])]] in
  (forall o, In o objects -> depth o <= 3)
  /\ exists merged next',
      deepMerge 4 objects 5 = Some (VObj 5 CPlain merged, next').
Proof.
  assert (H : forall o,
            In o [obj 0 [("a", obj 1 [("b", obj 2 [])])];
                  num 5;
                  arr 3 [("0", obj 4 [("c", VNull)])]] ->
            depth o <= 3).
  { intros o [<-|[<-|[<-|[]]]]; simpl; lia. }
  split; [exact H|].
  exact (deepMerge_returns _ 3 5 H).
Defined.

(* ================================================================== *)
(** * What deepMerge keeps from two objects *)

Section merge_keys_lookup.
Variable merge : list value -> loc -> option (value * loc).

Lemma merge_keys_lookup (ps : props) :
  forall merged next merged' next',
    NoDup (keys ps) ->
    merge_keys merge ps merged next = Some (merged', next') ->
    forall k,
      (In k (keys merged') <-> In k (keys merged) \/ In k (keys ps))
      /\ (lookup k ps = None -> lookup k merged' = lookup k merged)
      /\ (forall x, lookup k ps = Some x -> merged_by_keys x = false ->
                    lookup k merged' = Some x).
Proof.
  induction ps as [|[key x] rest IH];
    intros merged next merged' next' Hnd Hm k.
  - injection Hm as <- <-. simpl. repeat split; try tauto.
    intros x [=].
  - inversion Hnd as [|? ? Hkey Hnd']; subst.
    simpl in Hm.
    assert (Hstep : exists v next1,
              merge_keys merge rest (obj_set merged key v) next1
              = Some (merged', next')
              /\ (merged_by_keys x = false -> v = x)).
    { destruct (merged_by_keys x).
      - destruct (if truthy (read merged key)
                  then (read merged key, next)
                  else (VObj next CPlain [], S next)) as [first next1].
        destruct (merge [first; x] next1) as [[m next2]|]; [|discriminate].
        exists m, next2. split; [exact Hm | discriminate].
      - exists x, next. split; [exact Hm | reflexivity]. }
    destruct Hstep as (v & next1 & Hrest & Hv).
    destruct (IH _ _ _ _ Hnd' Hrest k) as (Hkeys & Hnone & Hsome).
    simpl lookup. split; [|split].
    + rewrite Hkeys, keys_obj_set. simpl. intuition congruence.
    + destruct (String.eqb_spec key k) as [->|Hne]; [discriminate|].
      intros Hk. rewrite (Hnone Hk).
      apply lookup_obj_set_other. congruence.
    + intros y. destruct (String.eqb_spec key k) as [->|Hne].
      * intros [= ->] Hy.
        assert (Hk : lookup k rest = None) by now apply lookup_None.
        rewrite (Hnone Hk), (Hv Hy). apply lookup_obj_set_same.
      * apply Hsome.
Qed.
End merge_keys_lookup.

(** X26: the result of [deepMerge(a, b)] on two objects without the
    key ["__proto__"] has the keys of [a] and the keys of [b], and no
    other.  Under a key of [b] whose value there is not merged by keys
    (a scalar, [null], an array) it has that value of [b]; under a key
    that only [a] has, with such a value, it has that value of [a].  An
    array is carried over by reference. *)
Theorem deepMerge_precedence
        (ra : loc) (ca : class) (psa : props)
        (rb : loc) (cb : class) (psb : props)
        (fuel : nat) (next : loc) (res : value) (next' : loc) :
  distinct (keys psa) = true -> distinct (keys psb) = true ->
  includes "__proto__" (keys psa) = false ->
  includes "__proto__" (keys psb) = false ->
  deepMerge fuel [VObj ra ca psa; VObj rb cb psb] next = Some (res, next') ->
  forall k,
    (In k (keys (props_of res)) <-> In k (keys psa) \/ In k (keys psb))
    /\ (forall x, lookup k psb = Some x -> merged_by_keys x = false ->
                  lookup k (props_of res) = Some x)
    /\ (forall x, lookup k psb = None -> lookup k psa = Some x ->
                  merged_by_keys x = false ->
                  lookup k (props_of res) = Some x).
Proof.
  intros Ha Hb _ _ Hm k. apply distinct_NoDup in Ha, Hb.
  destruct fuel as [|fuel]; [discriminate|].
  rewrite deepMerge_unfold in Hm. simpl in Hm. unfold merge_arg in Hm.
  simpl in Hm.
  destruct (merge_keys (deepMerge fuel) psa [] (S next))
    as [[merged1 next1]|] eqn:H1; [|discriminate].
  destruct (merge_keys (deepMerge fuel) psb merged1 next1)
    as [[merged2 next2]|] eqn:H2; [|discriminate].
  injection Hm as <- <-. simpl props_of.
  destruct (merge_keys_lookup _ _ _ _ _ _ Ha H1 k) as (Hk1 & Hn1 & Hs1).
  destruct (merge_keys_lookup _ _ _ _ _ _ Hb H2 k) as (Hk2 & Hn2 & Hs2).
  split; [|split].
  - rewrite Hk2, Hk1. simpl. tauto.
  - exact Hs2.
  - intros x Hkb Hka Hx. rewrite (Hn2 Hkb). now apply Hs1.
Qed.

Lemma deepMerge_precedence_witness :
  let psa := [("a", num 1); ("b", obj 1 [("c", num 2)]);
              ("l", arr 2 [("0", num 7)])] in
  let psb := [("b", obj 4 [("d", num 3)]); ("a", arr 5 []); ("e", VNull)] in
  let res := obj 6 [("a", arr 5 []);
                    ("b", obj 9 [("c", num 2); ("d", num 3)]);
                    ("l", arr 2 [("0", num 7)]);
                    ("e", VNull)] in
  distinct (keys psa) = true /\ distinct (keys psb) = true
  /\ includes "__proto__" (keys psa) = false
  /\ includes "__proto__" (keys psb) = false
  /\ deepMerge 2 [VObj 0 CPlain psa; VObj 3 CPlain psb] 6 = Some (res, 10)
  /\ forall k,
      (In k (keys (props_of res)) <-> In k (keys psa) \/ In k (keys psb))
      /\ (forall x, lookup k psb = Some x -> merged_by_keys x = false ->
                    lookup k (props_of res) = Some x)
      /\ (forall x, lookup k psb = None -> lookup k psa = Some x ->
                    merged_by_keys x = false ->
                    lookup k (props_of res) = Some x).
Proof.
  split; [reflexivity|]. split; [reflexivity|]. split; [reflexivity|].
  split; [reflexivity|]. split; [reflexivity|].
  apply (deepMerge_precedence
           0 CPlain [("a", num 1); ("b", obj 1 [("c", num 2)]);
                     ("l", arr 2 [("0", num 7)])]
           3 CPlain [("b", obj 4 [("d", num 3)]); ("a", arr 5 []);
                     ("e", VNull)]
           2 6 _ 10); reflexivity.
Defined.

(* ================================================================== *)
(** * The objects of a merge *)

Lemma new_mappings_widen (lo hi lo' hi' : loc) (v : value) :
  lo' <= lo -> hi <= hi' ->
  new_mappings lo hi v = true -> new_mappings lo' hi' v = true.
Proof.
  intros Hlo Hhi.
  induction v as [| |b|f|s|r c ps IH] using value_ind; try reflexivity.
  destruct c; simpl; try (intros; assumption).
  intros H. apply andb_prop in H as [H Hall]. apply andb_prop in H as [H1 H2].
  apply Nat.leb_le in H1. apply Nat.ltb_lt in H2.
  apply andb_true_intro. split.
  - apply andb_true_intro. split;
      [apply Nat.leb_le | apply Nat.ltb_lt]; lia.
  - apply all_values_forall. intros k x Hin.
    apply (IH k x Hin). now apply (all_values_In _ ps k x).
Qed.

Lemma new_mappings_not_merged (lo hi : loc) (x : value) :
  merged_by_keys x = false -> new_mappings lo hi x = true.
Proof.
  destruct x as [| |b|f|s|r c ps]; try reflexivity.
  destruct c; try reflexivity; discriminate.
Qed.

Section merge_new_mappings.
Variable merge : list value -> loc -> option (value * loc).
Hypothesis merge_new :
  forall objects next m next',
    merge objects next = Some (m, next') ->
    next < next' /\ new_mappings next next' m = true.

Lemma merge_keys_new_mappings (lo : loc) (ps : props) :
  forall merged next merged' next',
    lo <= next ->
    all_values (new_mappings lo next) merged = true ->
    merge_keys merge ps merged next = Some (merged', next') ->
    next <= next' /\ all_values (new_mappings lo next') merged' = true.
Proof.
  induction ps as [|[key x] rest IH];
    intros merged next merged' next' Hlo Hall Hm.
  - injection Hm as <- <-. split; [lia | exact Hall].
  - simpl in Hm. destruct (merged_by_keys x) eqn:Hx.
    + destruct (truthy (read merged key)).
      * destruct (merge [read merged key; x] next)
          as [[m next1]|] eqn:Hcall; [|discriminate].
        destruct (merge_new _ _ _ _ Hcall) as [Hlt Hnew].
        destruct (IH (obj_set merged key m) next1 merged' next')
          as [Hle Hall']; [lia| |exact Hm|split; [lia | exact Hall']].
        apply all_values_obj_set.
        -- apply (all_values_impl (new_mappings lo next)); [|exact Hall].
           intros k y _. apply new_mappings_widen; lia.
        -- apply (new_mappings_widen next next1); [lia | lia | exact Hnew].
      * destruct (merge [VObj next CPlain []; x] (S next))
          as [[m next1]|] eqn:Hcall; [|discriminate].
        destruct (merge_new _ _ _ _ Hcall) as [Hlt Hnew].
        destruct (IH (obj_set merged key m) next1 merged' next')
          as [Hle Hall']; [lia| |exact Hm|split; [lia | exact Hall']].
        apply all_values_obj_set.
        -- apply (all_values_impl (new_mappings lo next)); [|exact Hall].
           intros k y _. apply new_mappings_widen; lia.
        -- apply (new_mappings_widen (S next) next1);
             [lia | lia | exact Hnew].
    + apply (IH (obj_set merged key x) next merged' next' Hlo); [|exact Hm].
      apply all_values_obj_set; [exact Hall|].
      now apply new_mappings_not_merged.
Qed.

Lemma merge_reduce_new_mappings (lo : loc) (objects : list value) :
  forall merged next merged' next',
    lo <= next ->
    all_values (new_mappings lo next) merged = true ->
    merge_reduce merge objects merged next = Some (merged', next') ->
    next <= next' /\ all_values (new_mappings lo next') merged' = true.
Proof.
  induction objects as [|o objects IH];
    intros merged next merged' next' Hlo Hall Hm.
  - injection Hm as <- <-. split; [lia | exact Hall].
  - simpl in Hm.
    destruct (merge_arg merge merged next o) as [[merged1 next1]|] eqn:Harg;
      [|discriminate].
    assert (H1 : next <= next1
                 /\ all_values (new_mappings lo next1) merged1 = true).
    { unfold merge_arg in Harg.
      destruct (truthy o && jstype_eqb (typeof o) TObject);
        [|injection Harg as <- <-; split; [lia | exact Hall]].
      destruct o as [| |bo|f|s|r c ps];
        try (injection Harg as <- <-; split; [lia | exact Hall]).
      exact (merge_keys_new_mappings lo ps _ _ _ _ Hlo Hall Harg). }
    destruct H1 as [Hle1 Hall1].
    destruct (IH merged1 next1 merged' next') as [Hle Hall'];
      [lia | exact Hall1 | exact Hm | split; [lia | exact Hall']].
Qed.
End merge_new_mappings.

(** X27: in the result of [deepMerge], every object that is reached
    without going through an array is a plain object created by the
    call: the result shares no Mapping with the arguments, and it holds
    no date outside of arrays. *)
Theorem deepMerge_new_mappings
        (fuel : nat) (objects : list value) (next : loc)
        (res : value) (next' : loc) :
  deepMerge fuel objects next = Some (res, next') ->
  next < next' /\ new_mappings next next' res = true.
Proof.
  revert objects next res next'.
  induction fuel as [|fuel IH]; intros objects next m next' Hm;
    [discriminate|].
  rewrite deepMerge_unfold in Hm.
  destruct (merge_reduce (deepMerge fuel) objects [] (S next))
    as [[merged next1]|] eqn:Hred; [|discriminate].
  injection Hm as <- <-.
  destruct (merge_reduce_new_mappings (deepMerge fuel) IH (S next) objects
              [] (S next) merged next1 (le_n _) eq_refl Hred)
    as [Hle Hall].
  split; [lia|]. simpl.
  apply andb_true_intro. split.
  - apply andb_true_intro. split;
      [apply Nat.leb_le | apply Nat.ltb_lt]; lia.
  - apply (all_values_impl (new_mappings (S next) next1)); [|exact Hall].
    intros k y _. apply new_mappings_widen; lia.
Qed.

Lemma deepMerge_new_mappings_witness :
  let objects := [obj 0 [("d", date 1 5); ("m", obj 2 [("l", arr 3 [])])]] in
  let res := obj 4 [("d", obj 6 []); ("m", obj 8 [("l", arr 3 [])])] in
  deepMerge 2 objects 4 = Some (res, 9)
  /\ 4 < 9 /\ new_mappings 4 9 res = true.
Proof.
  split; [reflexivity|].
  apply (deepMerge_new_mappings
           2 [obj 0 [("d", date 1 5); ("m", obj 2 [("l", arr 3 [])])]] 4).
  reflexivity.
Defined.

(* ================================================================== *)
(** * isEqual is symmetric *)

Lemma SFeqb_sym (f1 f2 : SpecFloat.spec_float) :
  SpecFloat.SFeqb f1 f2 = SpecFloat.SFeqb f2 f1.
Proof.
  unfold SpecFloat.SFeqb.
  destruct f1 as [s1|s1| |s1 m1 e1], f2 as [s2|s2| |s2 m2 e2]; simpl;
    try reflexivity; try (destruct s1, s2; reflexivity);
    try (destruct s1; reflexivity); try (destruct s2; reflexivity).
  destruct s1, s2; try reflexivity;
    rewrite (BinInt.Z.compare_antisym e1 e2);
    destruct (BinInt.Z.compare e1 e2); simpl; try reflexivity;
    change (Pos.compare_cont Eq m2 m1) with (Pos.compare m2 m1);
    change (Pos.compare_cont Eq m1 m2) with (Pos.compare m1 m2);
    rewrite (Pos.compare_antisym m1 m2);
    destruct (Pos.compare m1 m2); reflexivity.
Qed.

(** IEEE equality of numbers is symmetric. *)
Lemma float_eqb_sym (x y : float) : PrimFloat.eqb x y = PrimFloat.eqb y x.
Proof. rewrite !FloatAxioms.eqb_spec. apply SFeqb_sym. Qed.

Lemma strict_eq_sym (a b : value) : strict_eq a b = strict_eq b a.
Proof.
  destruct a, b; simpl; try reflexivity.
  - now destruct b, b0.
  - apply float_eqb_sym.
  - apply String.eqb_sym.
  - apply Nat.eqb_sym.
Qed.

Lemma equal_props_elim (equal : value -> value -> bool) (obj2 : value)
      (keys2 : list string) (ps1 : props) :
  equal_props equal obj2 keys2 ps1 = true ->
  forall k x, In (k, x) ps1 ->
    In k keys2 /\ equal x (get_prop obj2 k) = true.
Proof.
  induction ps1 as [|[k0 x0] ps1 IH]; simpl; intros H k x Hin;
    [destruct Hin|].
  destruct (includes k0 keys2) eqn:Hk; simpl in H; [|discriminate].
  destruct (equal x0 (get_prop obj2 k0)) eqn:Hx; simpl in H; [|discriminate].
  destruct Hin as [[= <- <-]|Hin].
  - split; [now apply includes_In | exact Hx].
  - now apply IH.
Qed.

Lemma isEqual_objects_elim (r1 r2 : loc) (c1 c2 : class) (ps1 ps2 : props) :
  isEqual (VObj r1 c1 ps1) (VObj r2 c2 ps2) = true ->
  r1 = r2
  \/ (List.length (keys ps1) = List.length (keys ps2)
      /\ forall k x, In (k, x) ps1 ->
           In k (keys ps2)
           /\ isEqual x (get_prop (VObj r2 c2 ps2) k) = true).
Proof.
  simpl. destruct (Nat.eqb_spec r1 r2) as [->|Hne]; [now left|].
  destruct (Nat.eqb_spec (List.length (keys ps1)) (List.length (keys ps2)))
    as [Hlen|Hlen]; simpl; [|discriminate].
  intros H. right. split; [exact Hlen|].
  exact (equal_props_elim isEqual (VObj r2 c2 ps2) (keys ps2) ps1 H).
Qed.

Lemma isEqual_primitive_l (a b : value) :
  is_primitive a = true -> isEqual a b = strict_eq a b.
Proof.
  destruct a; try discriminate; intros _; destruct b; simpl;
    try reflexivity;
    match goal with
    | |- (if ?c then _ else _) = _ => destruct c; reflexivity
    end.
Qed.

Lemma isEqual_primitive_r (a b : value) :
  is_primitive b = true -> isEqual a b = strict_eq a b.
Proof.
  destruct b; try discriminate; intros _; destruct a; simpl;
    rewrite ?orb_true_r; try reflexivity;
    match goal with
    | |- (if ?c then _ else _) = _ => destruct c; reflexivity
    end.
Qed.

Lemma isEqual_sym_true (a : value) :
  forall b,
    wf_keys a = true -> wf_keys b = true ->
    isEqual a b = true -> isEqual b a = true.
Proof.
  induction a as [| |ba|fa|sa|r1 c1 ps1 IH] using value_ind;
    intros b Ha Hb H;
    try (rewrite isEqual_primitive_l in H by reflexivity;
         rewrite isEqual_primitive_r, strict_eq_sym by reflexivity;
         exact H).
  destruct b as [| |bb|fb|sb|r2 c2 ps2];
    try (rewrite isEqual_primitive_r in H by reflexivity;
         rewrite isEqual_primitive_l, strict_eq_sym by reflexivity;
         exact H).
  apply wf_keys_object in Ha as [Hnd1 Hall1].
  apply wf_keys_object in Hb as [Hnd2 Hall2].
  apply isEqual_objects_elim in H as [->|[Hlen Hvals]].
  - simpl. now rewrite Nat.eqb_refl.
  - assert (Hincl : incl (keys ps1) (keys ps2)).
    { intros k Hk. apply in_map_iff in Hk as ([k' x] & <- & Hin).
      now apply (Hvals k' x). }
    assert (Hincl' : incl (keys ps2) (keys ps1)).
    { apply NoDup_length_incl; [exact Hnd1 | lia | exact Hincl]. }
    apply isEqual_objects; [exact Hnd2 | exact Hnd1 | |].
    + intros k. split; [apply Hincl' | apply Hincl].
    + intros k x2 x1 Hin2 Hl1.
      apply lookup_In in Hl1 as Hin1.
      destruct (Hvals k x1 Hin1) as [_ Heq].
      unfold get_prop in Heq. rewrite (In_lookup k ps2 x2 Hnd2 Hin2) in Heq.
      apply (IH k x1 Hin1 x2);
        [now apply (all_values_In _ ps1 k) |
         now apply (all_values_In _ ps2 k) | exact Heq].
Qed.

(** X28: [isEqual] is symmetric: [isEqual(a, b)] and [isEqual(b, a)]
    give the same answer, on values whose objects have pairwise
    different keys. *)
Theorem isEqual_symmetric (a b : value) :
  wf_keys a = true -> wf_keys b = true -> isEqual a b = isEqual b a.
Proof.
  intros Ha Hb.
  destruct (isEqual a b) eqn:Hab, (isEqual b a) eqn:Hba; try reflexivity.
  - rewrite (isEqual_sym_true a b Ha Hb Hab) in Hba. discriminate Hba.
  - rewrite (isEqual_sym_true b a Hb Ha Hba) in Hab. discriminate Hab.
Qed.

Lemma isEqual_symmetric_witness :
  let a := obj 0 [("a", num 1); ("b", arr 1 [("0", VNull)])] in
  let b := obj 2 [("b", obj 3 [("0", VNull)]); ("a", num 1)] in
  wf_keys a = true /\ wf_keys b = true /\ isEqual a b = isEqual b a.
Proof.
  split; [reflexivity|]. split; [reflexivity|].
  apply (isEqual_symmetric
           (obj 0 [("a", num 1); ("b", arr 1 [("0", VNull)])])
           (obj 2 [("b", obj 3 [("0", VNull)]); ("a", num 1)]));
    reflexivity.
Defined.

(* ================================================================== *)
(** * isEqual and the order of the properties *)

Lemma equal_props_perm (equal : value -> value -> bool) (obj2 : value)
      (keys2 : list string) (ps ps' : props) :
  Permutation ps ps' ->
  equal_props equal obj2 keys2 ps = equal_props equal obj2 keys2 ps'.
Proof.
  induction 1 as [|[k x] ps ps' _ IH|[k x] [k' x'] ps|ps ps' ps'' _ IH1 _ IH2].
  - reflexivity.
  - simpl. now rewrite IH.
  - simpl.
    destruct (includes k keys2), (includes k' keys2); simpl; try reflexivity;
      destruct (equal x (get_prop obj2 k)), (equal x' (get_prop obj2 k'));
      reflexivity.
  - now rewrite IH1.
Qed.

Lemma equal_props_ext (equal : value -> value -> bool) (o o' : value)
      (ks ks' : list string) (ps : props) :
  (forall k, includes k ks = includes k ks') ->
  (forall k, get_prop o k = get_prop o' k) ->
  equal_props equal o ks ps = equal_props equal o' ks' ps.
Proof.
  intros Hks Hget. induction ps as [|[k x] ps IH]; simpl; [reflexivity|].
  now rewrite Hks, Hget, IH.
Qed.

Lemma includes_perm (k : string) (ks ks' : list string) :
  Permutation ks ks' -> includes k ks = includes k ks'.
Proof.
  intros Hp.
  destruct (includes k ks) eqn:E1, (includes k ks') eqn:E2; try reflexivity.
  - apply includes_In in E1. apply includes_false in E2.
    exfalso. apply E2. now apply (Permutation_in _ Hp).
  - apply includes_In in E2. apply includes_false in E1.
    exfalso. apply E1. apply (Permutation_in _ (Permutation_sym Hp) E2).
Qed.

(** X29: [isEqual] does not depend on the order of the properties: an
    object compares the same, on either side, as an object with the same
    properties in another order. *)
Theorem isEqual_order_independent
        (r : loc) (c : class) (ps ps' : props) (b : value) :
  distinct (keys ps) = true -> Permutation ps ps' ->
  isEqual (VObj r c ps) b = isEqual (VObj r c ps') b
  /\ isEqual b (VObj r c ps) = isEqual b (VObj r c ps').
Proof.
  intros Hd Hp. apply distinct_NoDup in Hd.
  assert (Hkeys : Permutation (keys ps) (keys ps'))
    by (unfold keys; now apply Permutation_map).
  assert (Hlen : List.length (keys ps) = List.length (keys ps'))
    by now apply Permutation_length.
  destruct b as [| |bb|fb|sb|r2 c2 ps2];
    try (rewrite !isEqual_primitive_r, !isEqual_primitive_l by reflexivity;
         split; reflexivity).
  split; simpl.
  - rewrite Hlen, (equal_props_perm isEqual _ _ ps ps' Hp). reflexivity.
  - rewrite Hlen.
    rewrite (equal_props_ext isEqual (VObj r c ps) (VObj r c ps')
               (keys ps) (keys ps') ps2); [reflexivity| |].
    + intros k. now apply includes_perm.
    + intros k. simpl. now rewrite (lookup_perm k ps ps' Hd Hp).
Qed.

Lemma isEqual_order_independent_witness :
  let ps := [("a", num 1); ("b", VNull)] in
  let ps' := [("b", VNull); ("a", num 1)] in
  let b := obj 1 [("b", VNull); ("a", num 1)] in
  distinct (keys ps) = true /\ Permutation ps ps'
  /\ isEqual (VObj 0 CPlain ps) b = isEqual (VObj 0 CPlain ps') b
  /\ isEqual b (VObj 0 CPlain ps) = isEqual b (VObj 0 CPlain ps').
Proof.
  split; [reflexivity|]. split; [apply perm_swap|].
  apply (isEqual_order_independent 0 CPlain
           [("a", num 1); ("b", VNull)] [("b", VNull); ("a", num 1)]
           (obj 1 [("b", VNull); ("a", num 1)]));
    [reflexivity | apply perm_swap].
Defined.

(* ================================================================== *)
(** * Which arguments are refused *)

Lemma not_object_primitive (o : value) :
  negb (truthy o) || negb (jstype_eqb (typeof o) TObject) = is_primitive o.
Proof.
  destruct o as [| |b|f|s|r c ps]; simpl; rewrite ?orb_true_r; reflexivity.
Qed.

(** X30: the functions that check their arguments throw a [TypeError]
    when the object argument is not an object ([null] and [undefined]
    included) and when, where there is one, the second argument is not
    of its kind: an array of keys for [pick] and [omit], a function for
    [mapKeys] and [mapValues], an object for [defaults].  [mapValues]
    and [defaults], which convert no value to a property key, throw in
    no other case. *)
Theorem refused_arguments
        (to_string : value -> string) (o second prop : value)
        (fk : callback (string -> value)) (fv : callback (value -> value))
        (next : loc) :
  (is_primitive o = true \/ isArray second = false ->
   pick to_string o second next = ThrowTypeError)
  /\ (is_primitive o = true \/ isArray second = false ->
      omit to_string o second next = ThrowTypeError)
  /\ (is_primitive o = true -> has to_string o prop = ThrowTypeError)
  /\ (is_primitive o = true -> invert to_string o next = ThrowTypeError)
  /\ (is_primitive o = true \/ is_function fk = false ->
      mapKeys to_string o fk next = ThrowTypeError)
  /\ (mapValues o fv next = ThrowTypeError
      <-> is_primitive o = true \/ is_function fv = false)
  /\ (defaults o second next = ThrowTypeError
      <-> is_primitive o = true \/ is_primitive second = true).
Proof.
  unfold pick, omit, has, invert, mapKeys, mapValues, defaults.
  rewrite !not_object_primitive.
  destruct (is_primitive o); simpl.
  - repeat split; auto.
  - destruct (isArray second), (is_primitive second), fk, fv; simpl;
      repeat split; auto; try discriminate;
      intros [H|H]; (discriminate H || reflexivity).
Qed.

Lemma refused_arguments_witness :
  pick (fun _ => "") VNull (arr 0 []) 1 = ThrowTypeError
  /\ omit (fun _ => "") (obj 0 []) (VStr "a") 1 = ThrowTypeError
  /\ mapKeys (fun _ => "") (obj 0 []) (NotCallable VNull) 1 = ThrowTypeError.
Proof.
  destruct (refused_arguments (fun _ => "") VNull (arr 0 []) VNull
              (NotCallable VNull) (NotCallable VNull) 1)
    as (Hpick & _).
  destruct (refused_arguments (fun _ => "") (obj 0 []) (VStr "a") VNull
              (NotCallable VNull) (NotCallable VNull) 1)
    as (_ & Homit & _ & _ & HmapKeys & _).
  split; [apply Hpick; now left|].
  split; [apply Homit; now right | apply HmapKeys; now right].
Defined.
